(** * Snapshot annotation and ref addressing: a shallow embedding

    The development follows the snapshot module of the repository: the ref
    allocator, the role taxonomy and line classifier, the duplicate tracker,
    the tree filter pipeline, the cursor-interactive detector, the region
    partitioner and [parseRef].  Each definition below is a transcription of the
    TypeScript function of the same name.

    Conventions of the embedding:
    - a JavaScript string is a list of code units; the embedding covers the
      code units below 256 ([ascii]), which is where the syntax recognised by
      the module lives (whitespace, [-], word characters, quotes, brackets);
    - the module-level counter [refCounter], the [RefMap] object and the
      tracker object are mutated in place by the source; here they travel in
      an explicit state record [St];
    - a call that can reject (an accessibility-tree acquisition, an in-page
      evaluation) returns an [outcome]; [try]/[catch] is [try_catch]. *)

From Stdlib Require Import Ascii String ZArith NArith.
From Stdlib Require Import DecimalString DecimalN.
From stdpp Require Import strings gmap list sorting.

Open Scope string_scope.
Open Scope list_scope.
Open Scope nat_scope.

(** ** JavaScript strings *)

Abbreviation str := (list ascii).

Coercion list_ascii_of_string : string >-> list.

Definition strs (l : list string) : list str := map list_ascii_of_string l.

Definition code (c : ascii) : N := N_of_ascii c.

Definition chr_newline : ascii := ascii_of_N 10.
Definition chr_quote : ascii := ascii_of_N 34.

(** [\s]: tab, line feed, vertical tab, form feed, carriage return, space and
    the no-break space (the members of the class below 256). *)
Definition isSpace (c : ascii) : bool :=
  let n := code c in
  ((9 <=? n) && (n <=? 13) || (n =? 32) || (n =? 160))%N.

(** [\d] *)
Definition isDigit (c : ascii) : bool :=
  let n := code c in ((48 <=? n) && (n <=? 57))%N.

(** [\w]: [A-Za-z0-9_] *)
Definition isWord (c : ascii) : bool :=
  let n := code c in
  ((65 <=? n) && (n <=? 90) || (97 <=? n) && (n <=? 122)
   || isDigit c || (n =? 95))%N.

(** The characters [.] does not match: line feed and carriage return. *)
Definition isLineTerminator (c : ascii) : bool :=
  let n := code c in ((n =? 10) || (n =? 13))%N.

Definition isQuote (c : ascii) : bool := (code c =? 34)%N.

(** Longest prefix whose characters satisfy [p], and the rest. *)
Fixpoint span (p : ascii -> bool) (s : str) : str * str :=
  match s with
  | [] => ([], [])
  | c :: s' =>
      if p c then let '(a, b) := span p s' in (c :: a, b) else ([], s)
  end.

(** [s.startsWith(pre)] *)
Fixpoint startsWith (pre s : str) : bool :=
  match pre, s with
  | [], _ => true
  | _ :: _, [] => false
  | a :: pre', b :: s' => Ascii.eqb a b && startsWith pre' s'
  end.

(** [s.includes(needle)] *)
Fixpoint includes (needle s : str) : bool :=
  startsWith needle s ||
  match s with
  | [] => false
  | _ :: s' => includes needle s'
  end.

(** [s.endsWith(suf)] *)
Definition endsWith (suf s : str) : bool :=
  startsWith (rev suf) (rev s).

(** [s.slice(n)] for [0 <= n]. *)
Definition sliceFrom (n : nat) (s : str) : str := drop n s.

(** [s.slice(0, n)] *)
Definition sliceTo (n : nat) (s : str) : str := take n s.

(** [s.split('\n')] *)
Fixpoint split (s : str) : list str :=
  match s with
  | [] => [[]]
  | c :: s' =>
      if Ascii.eqb c chr_newline then [] :: split s'
      else match split s' with
           | l :: ls => (c :: l) :: ls
           | [] => [[c]]
           end
  end.

(** [lines.join(sep)] *)
Fixpoint join (sep : str) (lines : list str) : str :=
  match lines with
  | [] => []
  | [l] => l
  | l :: rest => l ++ sep ++ join sep rest
  end.

Definition nl : str := [chr_newline].

Definition lowerChar (c : ascii) : ascii :=
  let n := code c in
  if ((65 <=? n) && (n <=? 90))%N then ascii_of_N (n + 32) else c.

(** [s.toLowerCase()] on the letters [A-Z]; the module applies it to role
    tokens, which are word characters or are only compared with ASCII names. *)
Definition toLowerCase (s : str) : str := map lowerChar s.

(** Truthiness of a string and of an optional string. *)
Definition truthy (s : str) : bool :=
  match s with [] => false | _ => true end.

Definition truthyOpt (s : option str) : bool :=
  match s with Some s => truthy s | None => false end.

(** [a || b] on strings. *)
Definition strOr (a b : str) : str := if truthy a then a else b.

(** [String(n)] for a non-negative integer. *)
Definition toString (n : N) : str :=
  list_ascii_of_string (NilEmpty.string_of_uint (N.to_uint n)).

Definition strEq (a b : str) : bool := bool_decide (a = b).

Definition memStr (x : str) (l : list str) : bool := bool_decide (x ∈ l).

(** ** Failure of the collaborators *)

Inductive outcome (A : Type) : Type :=
| Returned (a : A)
| Threw.
Arguments Returned {A} a.
Arguments Threw {A}.

Definition bindO {A B} (m : outcome A) (k : A -> outcome B) : outcome B :=
  match m with
  | Returned a => k a
  | Threw => Threw
  end.

(** [try { body } catch { handler }] *)
Definition try_catch {A} (body : outcome A) (handler : outcome A) : outcome A :=
  match body with
  | Returned a => Returned a
  | Threw => handler
  end.

Notation "'let!' x ':=' m 'in' k" := (bindO m (fun x => k))
  (at level 10, x name, k at level 200).

(** ** Data model *)

Record RefEntry : Type := mkRefEntry {
  re_selector : str;
  re_role : str;
  re_name : option str;
  (** index for disambiguation when several entries share role and name *)
  re_nth : option N
}.

(** A [RefMap] is an object keyed by ref id; its own string keys enumerate in
    insertion order. *)
Abbreviation RefMap := (list (str * RefEntry)).

Record EnhancedSnapshot : Type := mkSnapshot {
  tree : str;
  snap_refs : RefMap
}.

Record SnapshotOptions : Type := mkOptions {
  o_interactive : bool;
  o_cursor : bool;
  o_maxDepth : option Z;
  o_compact : bool;
  o_selector : option str
}.

Definition defaultOptions : SnapshotOptions :=
  mkOptions false false None false None.

Inductive RegionKey : Type := sidebar | contents | drawer | fab.

Record SnapshotRegion : Type := mkRegion {
  rg_key : RegionKey;
  rg_title : str;
  rg_selectors : list str
}.

(** [counts] and [refsByKey] of the tracker object. *)
Record RoleNameTracker : Type := mkTracker {
  counts : gmap str N;
  refsByKey : gmap str (list str)
}.

(** The mutable state of one run: the module counter, the ref map and the
    tracker. *)
Record St : Type := mkSt {
  refCounter : N;
  refs : RefMap;
  tracker : RoleNameTracker
}.

(** ** Ref allocator *)

Definition resetRefs (st : St) : St :=
  mkSt 0 (refs st) (tracker st).

(** [`e${++refCounter}`] *)
Definition nextRef (st : St) : str * St :=
  let c := (refCounter st + 1)%N in
  ("e" ++ toString c, mkSt c (refs st) (tracker st)).

(** ** Role taxonomy *)

Definition INTERACTIVE_ROLES : list str := strs
  [ "button"; "link"; "textbox"; "checkbox"; "radio"; "combobox"; "listbox";
    "menuitem"; "menuitemcheckbox"; "menuitemradio"; "option"; "searchbox";
    "slider"; "spinbutton"; "switch"; "tab"; "treeitem" ].

Definition CONTENT_ROLES : list str := strs
  [ "heading"; "cell"; "gridcell"; "columnheader"; "rowheader"; "listitem";
    "article"; "region"; "main"; "navigation" ].

Definition STRUCTURAL_ROLES : list str := strs
  [ "generic"; "group"; "list"; "table"; "row"; "rowgroup"; "grid";
    "treegrid"; "menu"; "menubar"; "toolbar"; "tablist"; "tree"; "directory";
    "document"; "application"; "presentation"; "none" ].

(** [name.replace] of every double quote by a backslash and a double quote. *)
Definition escapeQuotes (s : str) : str :=
  flat_map (fun c => if isQuote c then "\" ++ [chr_quote] else [c]) s.

Definition buildSelector (role : str) (name : option str) : str :=
  match name with
  | Some (c :: n) =>
      "getByRole('" ++ role ++ "', { name: " ++ [chr_quote]
        ++ escapeQuotes (c :: n) ++ [chr_quote] ++ ", exact: true })"
  | _ => "getByRole('" ++ role ++ "')"
  end.

(** ** Regular expressions

    The patterns of the module use character classes, greedy repetition of a
    class, concatenation, a greedy optional group, capture groups and the end
    anchor.  [run] matches the way a backtracking engine does: a greedy
    repetition takes as many characters as it can and gives them back one at
    a time while what follows fails; an optional group is tried first and
    skipped when what follows fails.  [k] is what remains to be matched. *)

Inductive regex : Type :=
| Class (p : ascii -> bool)
| Star (p : ascii -> bool)
| Plus (p : ascii -> bool)
| Seq (a b : regex)
| Opt (a : regex)
| Group (i : nat) (a : regex)
| End.

Infix ">>" := Seq (at level 60, right associativity).

Abbreviation captures := (gmap nat str).

Fixpoint starGreedy {R : Type} (p : ascii -> bool) (s : str)
    (k : str -> option R) : option R :=
  match s with
  | c :: s' =>
      if p c then
        match starGreedy p s' k with
        | Some r => Some r
        | None => k s
        end
      else k s
  | [] => k []
  end.

Fixpoint run (r : regex) (s : str) (caps : captures)
    (k : str -> captures -> option captures) : option captures :=
  match r with
  | Class p =>
      match s with
      | c :: s' => if p c then k s' caps else None
      | [] => None
      end
  | Star p => starGreedy p s (fun s' => k s' caps)
  | Plus p =>
      match s with
      | c :: s' => if p c then starGreedy p s' (fun s'' => k s'' caps) else None
      | [] => None
      end
  | Seq a b => run a s caps (fun s' caps' => run b s' caps' k)
  | Opt a =>
      match run a s caps k with
      | Some res => Some res
      | None => k s caps
      end
  | Group i a =>
      run a s caps
        (fun s' caps' => k s' (<[i := take (length s - length s') s]> caps'))
  | End =>
      match s with
      | [] => k [] caps
      | _ :: _ => None
      end
  end.

(** [s.match(r)] for a pattern that starts with the start anchor: the match
    is attempted at the start of the string only. *)
Definition exec (r : regex) (s : str) : option captures :=
  run r s ∅ (fun _ caps => Some caps).

(** [r.test(s)] *)
Definition test (r : regex) (s : str) : bool :=
  match exec r s with
  | Some _ => true
  | None => false
  end.

Definition isDash (c : ascii) : bool := (code c =? 45)%N.
Definition notQuote (c : ascii) : bool := negb (isQuote c).

(** The dot: any character but a line terminator. *)
Definition anyChar (c : ascii) : bool := negb (isLineTerminator c).

(** ** Line grammar

    Both [processLine] and the interactive loop of [processAriaTree] match a
    line against one pattern, anchored at both ends and without flags.  Its
    four capture groups are the prefix (optional whitespace, a dash, optional
    whitespace), the role (one or more word characters), the name (optional:
    after whitespace, the characters between two double quotes) and the
    suffix (any characters up to the end). *)

Definition lineRegex : regex :=
  Group 1 (Star isSpace >> Class isDash >> Star isSpace)
  >> Group 2 (Plus isWord)
  >> Opt (Plus isSpace >> Class isQuote >> Group 3 (Star notQuote)
          >> Class isQuote)
  >> Group 4 (Star anyChar)
  >> End.

Record LineMatch : Type := mkMatch {
  lm_prefix : str;
  lm_role : str;
  lm_name : option str;
  lm_suffix : str
}.

(** [const [, prefix, role, name, suffix] = match] *)
Definition lineMatch (line : str) : option LineMatch :=
  match exec lineRegex line with
  | Some caps =>
      Some (mkMatch (default [] (caps !! 1)) (default [] (caps !! 2))
              (caps !! 3) (default [] (caps !! 4)))
  | None => None
  end.

(** ** Duplicate tracker *)

Definition createRoleNameTracker : RoleNameTracker := mkTracker ∅ ∅.

(** [`${role}:${name ?? ''}`] *)
Definition getKey (role : str) (name : option str) : str :=
  role ++ ":" ++ default [] name.

Definition getNextIndex (role : str) (name : option str)
    (t : RoleNameTracker) : N * RoleNameTracker :=
  let key := getKey role name in
  let current := default 0%N (counts t !! key) in
  (current, mkTracker (<[key := (current + 1)%N]> (counts t)) (refsByKey t)).

Definition trackRef (role : str) (name : option str) (ref : str)
    (t : RoleNameTracker) : RoleNameTracker :=
  let key := getKey role name in
  let rs := default [] (refsByKey t !! key) in
  mkTracker (counts t) (<[key := rs ++ [ref]]> (refsByKey t)).

Definition getDuplicateKeys (t : RoleNameTracker) : gset str :=
  dom (filter (fun kv : str * list str => 1 < length kv.2) (refsByKey t)).

(** [refs[ref] = entry]: an existing key keeps its place, a new key goes last. *)
Fixpoint refsSet (ref : str) (entry : RefEntry) (m : RefMap) : RefMap :=
  match m with
  | [] => [(ref, entry)]
  | (k, v) :: m' =>
      if strEq k ref then (k, entry) :: m' else (k, v) :: refsSet ref entry m'
  end.

Definition deleteNth (e : RefEntry) : RefEntry :=
  mkRefEntry (re_selector e) (re_role e) (re_name e) None.

(** Remove [nth] from the entries whose key did not recur. *)
Definition removeNthFromNonDuplicates (st : St) : St :=
  let duplicateKeys := getDuplicateKeys (tracker st) in
  let strip (kv : str * RefEntry) :=
    let key := getKey (re_role kv.2) (re_name kv.2) in
    if bool_decide (key ∈ duplicateKeys) then kv else (kv.1, deleteNth kv.2) in
  mkSt (refCounter st) (map strip (refs st)) (tracker st).

(** ** Tree filter pipeline *)

(** Indentation level: the leading whitespace characters, divided by two. *)
Definition getIndentLevel (line : str) : nat :=
  match exec (Group 1 (Star isSpace)) line with
  | Some caps => length (default [] (caps !! 1)) / 2
  | None => 0
  end.

(** [options.maxDepth !== undefined && depth > options.maxDepth] *)
Definition tooDeep (options : SnapshotOptions) (depth : nat) : bool :=
  match o_maxDepth options with
  | Some d => (d <? Z.of_nat depth)%Z
  | None => false
  end.

Definition quoted (s : str) : str := " " ++ chr_quote :: s ++ [chr_quote].

(** The suffix of an annotated line after the role: the quoted name when it is
    non-empty, the ref, and the nth index when it is positive. *)
Definition annotation (name : option str) (ref : str) (nth : N) : str :=
  (if truthyOpt name then quoted (default [] name) else [])
    ++ " [ref=" ++ ref ++ "]"
    ++ (if (0 <? nth)%N then " [nth=" ++ toString nth ++ "]" else []).

(** The four steps shared by every ref assignment: allocate the ref, take the
    next index of the key, record the ref under the key, store the entry. *)
Definition assignRef (roleLower : str) (name : option str) (st : St)
    : str * N * St :=
  let '(ref, st1) := nextRef st in
  let '(nth, t1) := getNextIndex roleLower name (tracker st1) in
  let t2 := trackRef roleLower name ref t1 in
  let entry := mkRefEntry (buildSelector roleLower name) roleLower name (Some nth) in
  (ref, nth, mkSt (refCounter st1) (refsSet ref entry (refs st1)) t2).

(** Process a single line: add a ref if needed, filter if requested. *)
Definition processLine (line : str) (options : SnapshotOptions) (st : St)
    : option str * St :=
  let depth := getIndentLevel line in
  if tooDeep options depth then (None, st)
  else
    match lineMatch line with
    | None =>
        if o_interactive options then (None, st) else (Some line, st)
    | Some m =>
        let role := lm_role m in
        let name := lm_name m in
        let suffix := lm_suffix m in
        let roleLower := toLowerCase role in
        if startsWith "/" role then (Some line, st)
        else
          let isInteractive := memStr roleLower INTERACTIVE_ROLES in
          let isContent := memStr roleLower CONTENT_ROLES in
          let isStructural := memStr roleLower STRUCTURAL_ROLES in
          if o_interactive options && negb isInteractive then (None, st)
          else if o_compact options && isStructural && negb (truthyOpt name)
          then (None, st)
          else
            let shouldHaveRef := isInteractive || (isContent && truthyOpt name) in
            if shouldHaveRef then
              let '(ref, nth, st') := assignRef roleLower name st in
              let enhanced :=
                lm_prefix m ++ role ++ annotation name ref nth
                  ++ (if truthy suffix then suffix else []) in
              (Some enhanced, st')
            else (Some line, st)
    end.

(** The loop of [compactTree] that looks below line [i] for a line carrying a
    ref, stopping at the first line that is not indented deeper. *)
Fixpoint hasRelevantChildren (currentIndent : nat) (below : list str) : bool :=
  match below with
  | [] => false
  | l :: below' =>
      if getIndentLevel l <=? currentIndent then false
      else if includes "[ref=" l then true
      else hasRelevantChildren currentIndent below'
  end.

(** The outer loop of [compactTree] over the array of lines. *)
Fixpoint compactLines (lines : list str) : list str :=
  match lines with
  | [] => []
  | line :: below =>
      if includes "[ref=" line then line :: compactLines below
      else if includes ":" line && negb (endsWith ":" line)
      then line :: compactLines below
      else if hasRelevantChildren (getIndentLevel line) below
      then line :: compactLines below
      else compactLines below
  end.

(** Remove empty structural branches in compact mode. *)
Definition compactTree (tree : str) : str :=
  join nl (compactLines (split tree)).

(** The loop of the interactive-only mode. *)
Fixpoint interactiveLoop (lines : list str) (st : St) : list str * St :=
  match lines with
  | [] => ([], st)
  | line :: rest =>
      match lineMatch line with
      | None => interactiveLoop rest st
      | Some m =>
          let role := lm_role m in
          let name := lm_name m in
          let suffix := lm_suffix m in
          let roleLower := toLowerCase role in
          if memStr roleLower INTERACTIVE_ROLES then
            let '(ref, nth, st') := assignRef roleLower name st in
            let enhanced :=
              "- " ++ role ++ annotation name ref nth
                ++ (if truthy suffix && includes "[" suffix then suffix else []) in
            let '(result, st'') := interactiveLoop rest st' in
            (enhanced :: result, st'')
          else interactiveLoop rest st
      end
  end.

(** The loop of the normal mode, with the depth and compact filters of
    [processLine]. *)
Fixpoint fullLoop (lines : list str) (options : SnapshotOptions) (st : St)
    : list str * St :=
  match lines with
  | [] => ([], st)
  | line :: rest =>
      let '(processed, st') := processLine line options st in
      let '(result, st'') := fullLoop rest options st' in
      match processed with
      | Some l => (l :: result, st'')
      | None => (result, st'')
      end
  end.

(** The array [result] of [processAriaTree] as it stands when the function
    returns: the lines of the loop, after the pass of [compactTree] over their
    joined text in compact mode. *)
Definition processAriaTreeLines (ariaTree : str) (options : SnapshotOptions)
    (finalizeNth : bool) (st : St) : list str * St :=
  let lines := split ariaTree in
  if o_interactive options then
    let '(result, st') := interactiveLoop lines st in
    (result, if finalizeNth then removeNthFromNonDuplicates st' else st')
  else
    let '(result, st') := fullLoop lines options st in
    let st'' := if finalizeNth then removeNthFromNonDuplicates st' else st' in
    if o_compact options then (compactLines (split (join nl result)), st'')
    else (result, st'').

Definition textEmpty : str := "(empty)".
Definition textNoInteractive : str := "(no interactive elements)".

(** Process an ARIA snapshot: add refs and apply filters.  The tracker is the
    one of [st]; the call sites that rely on the default argument start from
    [createRoleNameTracker]. *)
Definition processAriaTree (ariaTree : str) (options : SnapshotOptions)
    (finalizeNth : bool) (st : St) : str * St :=
  let '(result, st') := processAriaTreeLines ariaTree options finalizeNth st in
  if o_interactive options
  then (strOr (join nl result) textNoInteractive, st')
  else (join nl result, st').

(** ** parseRef and statistics *)

(** The pattern of the third branch of [parseRef]: an [e], one or more
    digits, the end. *)
Definition refRegex : regex :=
  Class (fun c => (code c =? 101)%N) >> Plus isDigit >> End.

Definition isRefId (arg : str) : bool := test refRegex arg.

(** Parse a ref from a command argument. *)
Definition parseRef (arg : str) : option str :=
  if startsWith "@" arg then Some (sliceFrom 1 arg)
  else if startsWith "ref=" arg then Some (sliceFrom 4 arg)
  else if isRefId arg then Some arg
  else None.

Record SnapshotStats : Type := mkStats {
  stat_lines : nat;
  stat_chars : nat;
  stat_tokens : nat;
  stat_refs : nat;
  stat_interactive : nat
}.

Definition getSnapshotStats (tree : str) (refs : RefMap) : SnapshotStats :=
  mkStats (length (split tree))
          (length tree)
          ((length tree + 3) / 4)
          (length refs)
          (length (filter (fun kv : str * RefEntry =>
                             memStr (re_role kv.2) INTERACTIVE_ROLES = true) refs)).

(** ** The page as the in-page queries see it

    The two in-page queries read the DOM through the browser: computed style,
    geometry, attribute access, selector matching.  An [Element] records what
    the queries read from one element.  Three verdicts that the source computes
    from engine-reported floating-point geometry are recorded as such rather
    than recomputed: the empty bounding box of the cursor query,
    [isOnScreenAndVisible] and [isFabLikeFloatingControl]; so are the two
    structural selector strings the source derives from the ancestors of an
    element. *)

Record Element : Type := mkElement {
  (** position in the tree: child indices from the document element *)
  el_path : list nat;
  el_tagName : str;
  el_id : str;
  el_classList : list str;
  el_role : option str;
  el_title : option str;
  el_ariaLabel : option str;
  el_innerText : option str;
  el_textContent : option str;
  (** [getComputedStyle(el)] *)
  el_cursor : str;
  el_display : str;
  el_visibility : str;
  el_opacity : str;
  (** [el.style?.cursor] *)
  el_inlineCursor : option str;
  (** [el.hasAttribute('onclick') || typeof el.onclick === 'function'] *)
  el_onclick : bool;
  (** [getAttribute('tabindex')] read by [Number.parseInt]: absent, not a
      number, or an integer *)
  el_tabindex : option (option Z);
  (** [rect.width === 0 || rect.height === 0] *)
  el_rectEmpty : bool;
  (** [buildSelector(el)] of the cursor query *)
  el_selector : str;
  (** [isOnScreenAndVisible(el)] *)
  el_onScreenAndVisible : bool;
  (** [isFabLikeFloatingControl(el)] *)
  el_fabLikeFloatingControl : bool;
  (** [buildUniqueSelector(el)] of the region query *)
  el_uniqueSelector : str
}.

Record Document : Type := mkDocument {
  (** every element, in document order *)
  doc_elements : list Element;
  doc_body : option Element;
  (** selector matching by the engine; [None] is a selector it rejects *)
  doc_matches : str -> option (Element -> bool)
}.

Record Page : Type := mkPage {
  (** [page.locator(selector).ariaSnapshot()] *)
  pg_ariaSnapshot : str -> outcome str;
  (** the document an evaluation runs against; [Threw] when the evaluation
      itself is rejected *)
  pg_document : outcome Document
}.

(** [page.evaluate(fn)] *)
Definition evaluate {A} (page : Page) (fn : Document -> outcome A) : outcome A :=
  let! doc := pg_document page in fn doc.

Definition querySelectorAll (doc : Document) (sel : str) : outcome (list Element) :=
  match doc_matches doc sel with
  | Some p => Returned (filter (fun e => p e = true) (doc_elements doc))
  | None => Threw
  end.

Definition querySelector (doc : Document) (sel : str) : outcome (option Element) :=
  let! l := querySelectorAll doc sel in Returned (head l).

Fixpoint isPrefix (p q : list nat) : bool :=
  match p, q with
  | [], _ => true
  | _ :: _, [] => false
  | a :: p', b :: q' => (a =? b) && isPrefix p' q'
  end.

(** [a.contains(b)]: [b] is [a] or a descendant of [a]. *)
Definition contains (a b : Element) : bool := isPrefix (el_path a) (el_path b).

Definition sameElement (a b : Element) : bool :=
  bool_decide (el_path a = el_path b).

(** [root.querySelectorAll('*')] *)
Definition descendants (doc : Document) (root : Element) : list Element :=
  filter (fun e => contains root e && negb (sameElement root e) = true)
         (doc_elements doc).

(** The number of ancestors, counted by following [parentElement]. *)
Definition getDepth (el : Element) : nat := length (el_path el).

(** [array.sort(compare)]: the sort is stable, and the comparators of this
    module are total preorders, so the result is the insertion of every
    element, from the last to the first, before the first element it does not
    follow. *)
Fixpoint insertBy {A} (compare : A -> A -> Z) (x : A) (l : list A) : list A :=
  match l with
  | [] => [x]
  | y :: l' =>
      if (compare x y <=? 0)%Z then x :: l else y :: insertBy compare x l'
  end.

Definition jsSort {A} (compare : A -> A -> Z) (l : list A) : list A :=
  foldr (insertBy compare) [] l.

(** ** Cursor-interactive detector *)

Record Candidate : Type := mkCandidate {
  c_element : Element;
  c_selector : str;
  c_text : str;
  c_tagName : str;
  c_hasOnClick : bool;
  c_hasCursorPointer : bool;
  c_hasTabIndex : bool;
  c_hasTitle : bool;
  c_hasAriaLabel : bool;
  c_hasDirectCursorPointer : bool;
  c_depth : nat;
  c_order : nat
}.

(** What the query returns for an accepted candidate. *)
Record CursorElement : Type := mkCursorElement {
  ce_selector : str;
  ce_text : str;
  ce_tagName : str;
  ce_hasOnClick : bool;
  ce_hasCursorPointer : bool;
  ce_hasTabIndex : bool
}.

Definition interactiveTags : list str := strs
  [ "a"; "button"; "input"; "select"; "textarea"; "details"; "summary" ].

(** Runs of whitespace become one space. *)
Fixpoint collapseSpaces (inRun : bool) (s : str) : str :=
  match s with
  | [] => []
  | c :: s' =>
      if isSpace c
      then if inRun then collapseSpaces true s'
           else " " ++ collapseSpaces true s'
      else c :: collapseSpaces false s'
  end.

Definition trim (s : str) : str :=
  rev (span isSpace (rev (span isSpace s).2)).2.

Definition normalizeText (value : str) : str := trim (collapseSpaces false value).

Definition getVisibleText (el : Element) : str :=
  match el_innerText el with
  | Some t => normalizeText t
  | None => []
  end.

Definition getBestText (el : Element) : str :=
  let title := normalizeText (default [] (el_title el)) in
  if truthy title then title
  else
    let ariaLabel := normalizeText (default [] (el_ariaLabel el)) in
    if truthy ariaLabel then ariaLabel
    else
      let visibleText := getVisibleText el in
      if truthy visibleText then visibleText
      else normalizeText (default [] (el_textContent el)).

(** One iteration of the collecting loop: the candidate of an element that
    passes every [continue]. *)
Definition candidateOf (el : Element) (order : nat) : option Candidate :=
  let tagName := toLowerCase (el_tagName el) in
  if memStr tagName interactiveTags then None
  else if match el_role el with
          | Some role => truthy role && memStr (toLowerCase role) INTERACTIVE_ROLES
          | None => false
          end
  then None
  else
    let hasCursorPointer := strEq (el_cursor el) "pointer" in
    let hasDirectCursorPointer :=
      match el_inlineCursor el with
      | Some c => strEq c "pointer"
      | None => false
      end in
    let hasOnClick := el_onclick el in
    let hasTabIndex :=
      match el_tabindex el with
      | Some (Some n) => (0 <=? n)%Z
      | _ => false
      end in
    if negb hasCursorPointer && negb hasOnClick && negb hasTabIndex then None
    else if strEq (el_display el) "none" || strEq (el_visibility el) "hidden"
            || strEq (el_opacity el) "0"
    then None
    else if el_rectEmpty el then None
    else
      let text := sliceTo 100 (getBestText el) in
      if negb (truthy text) then None
      else
        let hasTitle := truthy (normalizeText (default [] (el_title el))) in
        let hasAriaLabel := truthy (normalizeText (default [] (el_ariaLabel el))) in
        Some (mkCandidate el (el_selector el) text tagName hasOnClick
                hasCursorPointer hasTabIndex hasTitle hasAriaLabel
                hasDirectCursorPointer (getDepth el) order).

(** The collecting loop over [allElements], with its counter [order]. *)
Fixpoint collectCandidates (allElements : list Element) (order : nat)
    : list Candidate :=
  match allElements with
  | [] => []
  | el :: rest =>
      match candidateOf el order with
      | Some c => c :: collectCandidates rest (S order)
      | None => collectCandidates rest order
      end
  end.

Definition scoreCandidate (c : Candidate) : Z :=
  ((if c_hasTitle c then 16 else if c_hasAriaLabel c then 8 else 0)
   + (if c_hasDirectCursorPointer c then 4 else 0)
   + (if c_hasOnClick c then 2 else 0)
   + (if c_hasTabIndex c then 1 else 0))%Z.

(** The comparator of the first sort. *)
Definition compareCandidates (a b : Candidate) : Z :=
  let scoreDiff := (scoreCandidate b - scoreCandidate a)%Z in
  if negb (scoreDiff =? 0)%Z then scoreDiff
  else
    let aLabeled := c_hasTitle a || c_hasAriaLabel a in
    let bLabeled := c_hasTitle b || c_hasAriaLabel b in
    if aLabeled && bLabeled then
      if negb (c_depth a =? c_depth b)
      then (Z.of_nat (c_depth a) - Z.of_nat (c_depth b))%Z
      else (Z.of_nat (c_order a) - Z.of_nat (c_order b))%Z
    else if negb (c_depth a =? c_depth b)
    then (Z.of_nat (c_depth b) - Z.of_nat (c_depth a))%Z
    else (Z.of_nat (c_order a) - Z.of_nat (c_order b))%Z.

Definition compareOrder (a b : Candidate) : Z :=
  (Z.of_nat (c_order a) - Z.of_nat (c_order b))%Z.

Definition overlaps (chosen candidate : Candidate) : bool :=
  contains (c_element chosen) (c_element candidate)
  || contains (c_element candidate) (c_element chosen).

(** The accepting loop: [selected] grows at its end. *)
Fixpoint selectLoop (sorted selected : list Candidate) : list Candidate :=
  match sorted with
  | [] => selected
  | candidate :: rest =>
      if existsb (fun chosen => overlaps chosen candidate) selected
      then selectLoop rest selected
      else selectLoop rest (selected ++ [candidate])
  end.

(** Sort by score, accept without overlap, sort back by discovery order. *)
Definition selectCandidates (candidates : list Candidate) : list Candidate :=
  let sorted := jsSort compareCandidates candidates in
  let selected := selectLoop sorted [] in
  jsSort compareOrder selected.

Definition emitCandidate (c : Candidate) : CursorElement :=
  mkCursorElement (c_selector c) (c_text c) (c_tagName c) (c_hasOnClick c)
    (c_hasCursorPointer c) (c_hasTabIndex c).

(** The candidates of the scope rooted at [root]. *)
Definition scopeCandidates (doc : Document) (root : Element) : list Candidate :=
  collectCandidates (root :: descendants doc root) 0.

(** The function evaluated in the page by [findCursorInteractiveElements]. *)
Definition cursorQuery (rootSel : str) (doc : Document)
    : outcome (list CursorElement) :=
  let! found := querySelector doc rootSel in
  match (match found with Some r => Some r | None => doc_body doc end) with
  | Some root =>
      Returned (map emitCandidate (selectCandidates (scopeCandidates doc root)))
  | None => Threw
  end.

Definition findCursorInteractiveElements (page : Page) (selector : option str)
    : outcome (list CursorElement) :=
  let rootSelector := strOr (default [] selector) "body" in
  try_catch (evaluate page (cursorQuery rootSelector)) (Returned []).

(** ** Region partitioner *)

Record RegionDefinition : Type := mkDefinition {
  rd_key : RegionKey;
  rd_title : str;
  rd_candidates : list str
}.

Definition sidebarDefinition : RegionDefinition :=
  mkDefinition sidebar "Sidebar" (strs
    [ "#sidebar-header"; "#sidebar-center"; "#sidebar-footer";
      ".component.reverb.sidebar" ]).

Definition contentsDefinition : RegionDefinition :=
  mkDefinition contents "Contents" (strs
    [ "#panel-header"; "#panel-center"; "#panel-footer"; "#contents-header";
      "#contents-center"; "#contents-footer"; ".component.reverb.threads";
      ".component.reverb.messages" ]).

Definition drawerDefinition : RegionDefinition :=
  mkDefinition drawer "Drawer" (strs
    [ "#drawer-container"; "#drawer-header"; "#drawer-center";
      "#drawer-footer" ]).

Definition definitions : list RegionDefinition :=
  [ sidebarDefinition; contentsDefinition; drawerDefinition ].

(** [doc.querySelector(s1) || doc.querySelector(s2) || ...], as a boolean. *)
Fixpoint anyMatch (doc : Document) (selectors : list str) : outcome bool :=
  match selectors with
  | [] => Returned false
  | s :: rest =>
      let! found := querySelector doc s in
      match found with
      | Some _ => Returned true
      | None => anyMatch doc rest
      end
  end.

Definition hasMyheloSubLayout (doc : Document) : outcome bool :=
  let! contentsLike := anyMatch doc (strs
    [ "#panel-center"; "#contents-center"; ".component.reverb.threads";
      ".component.reverb.messages" ]) in
  if contentsLike
  then anyMatch doc (strs
    [ "#sidebar-center"; "#drawer-container"; ".component.reverb.sidebar" ])
  else Returned false.

(** [Array.from(new Set(elements))]: the first occurrence of every element. *)
Fixpoint uniqueElements (elements : list Element) : list Element :=
  match elements with
  | [] => []
  | e :: rest =>
      e :: filter (fun x => negb (sameElement e x) = true) (uniqueElements rest)
  end.

Definition compareDepth (a b : Element) : Z :=
  (Z.of_nat (getDepth a) - Z.of_nat (getDepth b))%Z.

Fixpoint topLevelLoop (candidates selected : list Element) : list Element :=
  match candidates with
  | [] => selected
  | candidate :: rest =>
      if existsb (fun picked => contains picked candidate) selected
      then topLevelLoop rest selected
      else topLevelLoop rest (selected ++ [candidate])
  end.

Definition dedupeTopLevelElements (elements : list Element) : list Element :=
  topLevelLoop (jsSort compareDepth (uniqueElements elements)) [].

(** The on-screen matches of every candidate selector, in order. *)
Fixpoint collectMatches (doc : Document) (candidateSelectors : list str)
    : outcome (list Element) :=
  match candidateSelectors with
  | [] => Returned []
  | selector :: rest =>
      let! elements := querySelectorAll doc selector in
      let! more := collectMatches doc rest in
      Returned (filter (fun el => el_onScreenAndVisible el = true) elements ++ more)
  end.

Definition collectRegionSelectors (doc : Document) (candidateSelectors : list str)
    : outcome (list str) :=
  let! matches := collectMatches doc candidateSelectors in
  Returned (map el_uniqueSelector (dedupeTopLevelElements matches)).

Definition isTokenSeparator (c : ascii) : bool :=
  ((code c =? 45) || (code c =? 95))%N.

(** The two token patterns: the token, ignoring case, between two boundaries,
    each of which is an end of the string, a dash or an underscore. *)
Fixpoint hasToken (token : str) (atBoundary : bool) (s : str) : bool :=
  (atBoundary && startsWith token (toLowerCase s)
     && match drop (length token) s with
        | [] => true
        | c :: _ => isTokenSeparator c
        end)
  || match s with
     | [] => false
     | c :: s' => hasToken token (isTokenSeparator c) s'
     end.

Definition fabTokenPattern (s : str) : bool := hasToken "fab" true s.

Definition isFabElement (el : Element) : bool :=
  if negb (el_onScreenAndVisible el) then false
  else if fabTokenPattern (el_id el) then true
  else if existsb fabTokenPattern (el_classList el) then true
  else el_fabLikeFloatingControl el.

Definition collectFabSelectors (doc : Document) : list str :=
  let fabElements := filter (fun el => isFabElement el = true) (doc_elements doc) in
  map el_uniqueSelector (dedupeTopLevelElements fabElements).

(** The loop over [definitions]: a region is pushed when it has a selector. *)
Fixpoint collectRegions (doc : Document) (defs : list RegionDefinition)
    : outcome (list SnapshotRegion) :=
  match defs with
  | [] => Returned []
  | definition :: rest =>
      let! selectors := collectRegionSelectors doc (rd_candidates definition) in
      let! regions := collectRegions doc rest in
      Returned
        (match selectors with
         | _ :: _ =>
             mkRegion (rd_key definition) (rd_title definition) selectors :: regions
         | [] => regions
         end)
  end.

(** The function evaluated in the page by [getMyheloActiveRegions]. *)
Definition regionsQuery (doc : Document) : outcome (list SnapshotRegion) :=
  let! shell := hasMyheloSubLayout doc in
  if negb shell then Returned []
  else
    let! regions := collectRegions doc definitions in
    let fabSelectors := collectFabSelectors doc in
    Returned
      (regions ++ match fabSelectors with
                  | _ :: _ => [mkRegion fab "FAB" fabSelectors]
                  | [] => []
                  end).

Definition getMyheloActiveRegions (page : Page) : outcome (list SnapshotRegion) :=
  try_catch (evaluate page regionsQuery) (Returned []).

(** ** Snapshot of one scope *)

Definition withSelector (options : SnapshotOptions) (selector : option str)
    : SnapshotOptions :=
  mkOptions (o_interactive options) (o_cursor options) (o_maxDepth options)
    (o_compact options) selector.

(** [options.interactive ? '(no interactive elements)' : '(empty)'] *)
Definition emptyText (options : SnapshotOptions) : str :=
  if o_interactive options then textNoInteractive else textEmpty.

Definition isPlaceholder (t : str) : bool :=
  strEq t textNoInteractive || strEq t textEmpty.

(** The body of the [try] of [getEnhancedSnapshotForScope]. *)
Definition acquireTree (page : Page) (options : SnapshotOptions) (st : St)
    : outcome (str * St) :=
  let locator := if truthyOpt (o_selector options)
                 then default [] (o_selector options) else ":root" in
  let! ariaTree := pg_ariaSnapshot page locator in
  if truthy ariaTree then Returned (processAriaTree ariaTree options false st)
  else if o_interactive options then Returned (textNoInteractive, st)
  else Returned (textEmpty, st).

Definition cursorRole (el : CursorElement) : str :=
  if ce_hasCursorPointer el then "clickable"
  else if ce_hasOnClick el then "clickable" else "focusable".

Definition cursorHints (el : CursorElement) : list str :=
  (if ce_hasCursorPointer el then ["cursor:pointer" : str] else [])
    ++ (if ce_hasOnClick el then ["onclick" : str] else [])
    ++ (if ce_hasTabIndex el then ["tabindex" : str] else []).

(** The loop over the cursor elements: each gets a ref and a line. *)
Fixpoint cursorLoop (cursorElements : list CursorElement) (st : St)
    : list str * St :=
  match cursorElements with
  | [] => ([], st)
  | el :: rest =>
      let '(ref, st1) := nextRef st in
      let role := cursorRole el in
      let entry := mkRefEntry (ce_selector el) role (Some (ce_text el)) None in
      let st2 := mkSt (refCounter st1) (refsSet ref entry (refs st1)) (tracker st1) in
      let line :=
        "- " ++ role ++ quoted (ce_text el) ++ " [ref=" ++ ref ++ "] ["
          ++ join ", " (cursorHints el) ++ "]" in
      let '(lines, st3) := cursorLoop rest st2 in
      (line :: lines, st3)
  end.

Definition getEnhancedSnapshotForScope (page : Page) (options : SnapshotOptions)
    (st : St) : outcome (str * St) :=
  let! acquired :=
    try_catch (acquireTree page options st) (Returned (emptyText options, st)) in
  let enhancedTree := acquired.1 in
  let st1 := acquired.2 in
  if o_cursor options then
    let! cursorElements := findCursorInteractiveElements page (o_selector options) in
    let '(additionalLines, st2) := cursorLoop cursorElements st1 in
    match additionalLines with
    | _ :: _ =>
        let separator :=
          if isPlaceholder enhancedTree then []
          else nl ++ "# Cursor-interactive elements:" ++ nl in
        let base := if isPlaceholder enhancedTree then [] else enhancedTree in
        Returned (base ++ separator ++ join nl additionalLines, st2)
    | [] => Returned (enhancedTree, st2)
    end
  else Returned (enhancedTree, st1).

(** The loop of [buildMyheloRegionSection] over the selectors of a region. *)
Fixpoint sectionLoop (page : Page) (options : SnapshotOptions)
    (selectors : list str) (st : St) : outcome (list str * St) :=
  match selectors with
  | [] => Returned ([], st)
  | selector :: rest =>
      let! scoped :=
        getEnhancedSnapshotForScope page (withSelector options (Some selector)) st in
      let scopedTree := scoped.1 in
      let! more := sectionLoop page options rest scoped.2 in
      if negb (truthy scopedTree) || strEq scopedTree textEmpty
         || strEq scopedTree textNoInteractive
      then Returned more
      else Returned (scopedTree :: more.1, more.2)
  end.

Definition buildMyheloRegionSection (page : Page) (options : SnapshotOptions)
    (selectors : list str) (st : St) : outcome (str * St) :=
  let! parts := sectionLoop page options selectors st in
  match parts.1 with
  | _ :: _ => Returned (join nl parts.1, parts.2)
  | [] => Returned (emptyText options, parts.2)
  end.

(** The loop of [getEnhancedSnapshot] over the regions. *)
Fixpoint regionLoop (page : Page) (options : SnapshotOptions)
    (regions : list SnapshotRegion) (st : St) : outcome (list str * St) :=
  match regions with
  | [] => Returned ([], st)
  | region :: rest =>
      let! section :=
        buildMyheloRegionSection page options (rg_selectors region) st in
      let! more := regionLoop page options rest section.2 in
      Returned (("# " ++ rg_title region ++ ":" ++ nl ++ section.1) :: more.1, more.2)
  end.

(** ** Top-level snapshot

    The module counter is the one piece of state that outlives a call: the
    function takes its value before the call and returns its value after. *)
Definition getEnhancedSnapshot (page : Page) (options : SnapshotOptions)
    (counter : N) : outcome (EnhancedSnapshot * N) :=
  let st0 := resetRefs (mkSt counter [] createRoleNameTracker) in
  let whole :=
    let! scoped := getEnhancedSnapshotForScope page options st0 in
    let st := removeNthFromNonDuplicates scoped.2 in
    Returned (mkSnapshot scoped.1 (refs st), refCounter st) in
  if negb (truthyOpt (o_selector options)) then
    let! regions := getMyheloActiveRegions page in
    match regions with
    | _ :: _ =>
        let! sections := regionLoop page options regions st0 in
        let st := removeNthFromNonDuplicates sections.2 in
        Returned (mkSnapshot (join (nl ++ nl) sections.1) (refs st), refCounter st)
    | [] => whole
    end
  else whole.

(** ** The snapshot module before region partitioning

    [src/snapshot.ts] has the same allocator, taxonomy, tracker, [processLine],
    [compactTree], cursor query and [parseRef]; its [processAriaTree] always
    creates its own tracker and always finalizes, and its [getEnhancedSnapshot]
    is the function below. *)
Module Legacy.

Definition processAriaTree (ariaTree : str) (options : SnapshotOptions)
    (st : St) : str * St :=
  processAriaTree ariaTree options true
    (mkSt (refCounter st) (refs st) createRoleNameTracker).

Definition getEnhancedSnapshot (page : Page) (options : SnapshotOptions)
    (counter : N) : outcome (EnhancedSnapshot * N) :=
  let st0 := resetRefs (mkSt counter [] createRoleNameTracker) in
  let locator := if truthyOpt (o_selector options)
                 then default [] (o_selector options) else ":root" in
  let! ariaTree := pg_ariaSnapshot page locator in
  if negb (truthy ariaTree) then Returned (mkSnapshot textEmpty [], refCounter st0)
  else
    let '(enhancedTree, st1) := processAriaTree ariaTree options st0 in
    if o_cursor options then
      let! cursorElements := findCursorInteractiveElements page (o_selector options) in
      let '(additionalLines, st2) := cursorLoop cursorElements st1 in
      match additionalLines with
      | _ :: _ =>
          let noInteractive := strEq enhancedTree textNoInteractive in
          let separator :=
            if noInteractive then []
            else nl ++ "# Cursor-interactive elements:" ++ nl in
          let base := if noInteractive then [] else enhancedTree in
          Returned (mkSnapshot (base ++ separator ++ join nl additionalLines)
                               (refs st2), refCounter st2)
      | [] => Returned (mkSnapshot enhancedTree (refs st2), refCounter st2)
      end
    else Returned (mkSnapshot enhancedTree (refs st1), refCounter st1).

End Legacy.

(** * Vocabulary of the statements *)

(** A line without a line feed, as [split] produces them. *)
Definition noNewline (l : str) : Prop := Forall (fun c => c <> chr_newline) l.

(** The line pattern read from left to right without backtracking: all the
    whitespace around the dash, the longest run of word characters, then the
    quoted name when it is there and what follows it has no line terminator,
    and the rest of the line as the suffix.  [lineMatch_parseLine] shows that
    this is what matching [lineRegex] gives. *)
Definition noTerminator (s : str) : bool :=
  forallb (fun c => negb (isLineTerminator c)) s.

Definition matchQuotedName (s : str) : option (str * str) :=
  let '(ws, r) := span isSpace s in
  match ws, r with
  | _ :: _, q :: r' =>
      if isQuote q then
        let '(name, r'') := span (fun c => negb (isQuote c)) r' in
        match r'' with
        | _ :: rest => Some (name, rest)
        | [] => None
        end
      else None
  | _, _ => None
  end.

Definition parseLine (line : str) : option LineMatch :=
  let '(ws1, r1) := span isSpace line in
  match r1 with
  | dash :: r1' =>
      if (code dash =? 45)%N then
        let '(ws2, r2) := span isSpace r1' in
        let '(role, r3) := span isWord r2 in
        if truthy role then
          let prefix := ws1 ++ dash :: ws2 in
          let plain :=
            if noTerminator r3 then Some (mkMatch prefix role None r3)
            else None in
          match matchQuotedName r3 with
          | Some (name, rest) =>
              if noTerminator rest
              then Some (mkMatch prefix role (Some name) rest)
              else plain
          | None => plain
          end
        else None
      else None
  | [] => None
  end.

(** The third pattern of [parseRef] in the words of the claim: an [e] followed
    by one or more decimal digits, and nothing else. *)
Definition matchesRefPattern (s : str) : Prop :=
  exists ds, s = "e" ++ ds /\ ds <> [] /\ Forall (fun c => isDigit c = true) ds.

(** The ref id with number [i], and the ids numbered from one to [c]. *)
Definition refName (i : N) : str := "e" ++ toString i.

Definition refIds (c : N) : list str :=
  map (fun i => refName (N.of_nat i)) (seq 1 (N.to_nat c)).

(** The roles a line of the tree can get a ref for. *)
Definition treeRole (role : str) : Prop :=
  role ∈ INTERACTIVE_ROLES \/ role ∈ CONTENT_ROLES.

(** The state after one iteration of [cursorLoop]. *)
Definition cursorStep (el : CursorElement) (st : St) : St :=
  let '(ref, st1) := nextRef st in
  let entry := mkRefEntry (ce_selector el) (cursorRole el) (Some (ce_text el)) None in
  mkSt (refCounter st1) (refsSet ref entry (refs st1)) (tracker st1).

(** The two ways in which a snapshot changes its state before the final
    clean-up: a ref for a line of the tree, a ref for a cursor element. *)
Inductive step : St -> St -> Prop :=
| step_tree role name st :
    treeRole role -> step st (assignRef role name st).2
| step_cursor el st :
    step st (cursorStep el st).

Definition initialState : St := mkSt 0 [] createRoleNameTracker.

(** What [processLine] does with a line: drop it, keep it as it is, or keep it
    with a ref. *)
Inductive LineKind : Type :=
| Dropped
| Verbatim
| Annotated (m : LineMatch).

Definition shouldHaveRef (m : LineMatch) : bool :=
  memStr (toLowerCase (lm_role m)) INTERACTIVE_ROLES
  || (memStr (toLowerCase (lm_role m)) CONTENT_ROLES && truthyOpt (lm_name m)).

Definition classify (line : str) (options : SnapshotOptions) : LineKind :=
  if tooDeep options (getIndentLevel line) then Dropped
  else
    match lineMatch line with
    | None => if o_interactive options then Dropped else Verbatim
    | Some m =>
        let roleLower := toLowerCase (lm_role m) in
        if startsWith "/" (lm_role m) then Verbatim
        else if o_interactive options && negb (memStr roleLower INTERACTIVE_ROLES)
        then Dropped
        else if o_compact options && memStr roleLower STRUCTURAL_ROLES
                && negb (truthyOpt (lm_name m))
        then Dropped
        else if shouldHaveRef m then Annotated m else Verbatim
    end.

(** The text of a line of the normal mode that got ref [ref] and index [nth]. *)
Definition render (m : LineMatch) (ref : str) (nth : N) : str :=
  lm_prefix m ++ lm_role m ++ annotation (lm_name m) ref nth
    ++ (if truthy (lm_suffix m) then lm_suffix m else []).

(** The text of a line of the interactive mode. *)
Definition renderInteractive (m : LineMatch) (ref : str) (nth : N) : str :=
  "- " ++ lm_role m ++ annotation (lm_name m) ref nth
    ++ (if truthy (lm_suffix m) && includes "[" (lm_suffix m)
        then lm_suffix m else []).

(** The keys of the ref map are the ids handed out so far, in order. *)
Definition keysInv (st : St) : Prop :=
  map fst (refs st) = refIds (refCounter st).

(** The locator a scope is acquired through. *)
Definition scopeLocator (options : SnapshotOptions) : str :=
  if truthyOpt (o_selector options) then default [] (o_selector options)
  else ":root".

(** A page whose accessibility tree cannot be acquired and whose in-page
    evaluation is rejected. *)
Definition brokenPage : Page := mkPage (fun _ => Threw) Threw.

(** A line whose role token is in none of the three sets. *)
Definition unknownRole (line : str) : Prop :=
  exists m, lineMatch line = Some m
    /\ (toLowerCase (lm_role m) ∉ INTERACTIVE_ROLES)
    /\ (toLowerCase (lm_role m) ∉ CONTENT_ROLES)
    /\ (toLowerCase (lm_role m) ∉ STRUCTURAL_ROLES).

Definition isSlash (c : ascii) : bool := (code c =? 47)%N.

(** A metadata line: after its indentation the line begins with a slash, or
    with the dash of an entry whose token begins with a slash. *)
Definition isMetadataLine (line : str) : bool :=
  match (span isSpace line).2 with
  | c :: r =>
      isSlash c
      || ((code c =? 45)%N
          && match (span isSpace r).2 with
             | c' :: _ => isSlash c'
             | [] => false
             end)
  | [] => false
  end.

(** The options with one field replaced. *)
Definition withCompact (options : SnapshotOptions) (compact : bool)
    : SnapshotOptions :=
  mkOptions (o_interactive options) (o_cursor options) (o_maxDepth options)
    compact (o_selector options).

Definition withMaxDepth (options : SnapshotOptions) (maxDepth : option Z)
    : SnapshotOptions :=
  mkOptions (o_interactive options) (o_cursor options) maxDepth
    (o_compact options) (o_selector options).

Definition withInteractive (options : SnapshotOptions) (interactive : bool)
    : SnapshotOptions :=
  mkOptions interactive (o_cursor options) (o_maxDepth options)
    (o_compact options) (o_selector options).

(** The order on depth limits: no limit is the largest. *)
Definition depthLe (d1 d2 : option Z) : Prop :=
  match d1, d2 with
  | _, None => True
  | Some x, Some y => (x <= y)%Z
  | None, Some _ => False
  end.

(** Two lines that the compact pass cannot tell apart: same indentation, both
    with a ref or the same line without one. *)
Definition sameShape (a b : str) : Prop :=
  getIndentLevel a = getIndentLevel b
  /\ includes "[ref=" a = includes "[ref=" b
  /\ (includes "[ref=" a = false -> a = b).

(** The lines of a run with depth limit [d] against the lines of a run with a
    larger limit: the second run has the lines of the first, up to the number
    of a ref, and between them lines deeper than [d]. *)
Inductive masked (d : Z) : list str -> list str -> Prop :=
| masked_nil : masked d [] []
| masked_extra x l1 l2 :
    masked d l1 l2 -> (d < Z.of_nat (getIndentLevel x))%Z ->
    masked d l1 (x :: l2)
| masked_both x1 x2 l1 l2 :
    masked d l1 l2 -> sameShape x1 x2 ->
    (Z.of_nat (getIndentLevel x1) <= d)%Z ->
    masked d (x1 :: l1) (x2 :: l2).

(** The key of an entry, and the entries of a ref map that share a key, in
    insertion order. *)
Definition entryKey (e : RefEntry) : str := getKey (re_role e) (re_name e).

Definition sharing (k : str) (m : RefMap) : RefMap :=
  filter (fun kv : str * RefEntry => entryKey kv.2 = k) m.

Definition nthOf (kv : str * RefEntry) : option N := re_nth kv.2.

(** The indices 0, 1, ..., n-1 as stored in entries. *)
Definition nths (n : nat) : list (option N) :=
  map (fun i => Some (N.of_nat i)) (seq 0 n).

(** The roles of the entries that come from the cursor detector. *)
Definition cursorRoleName (role : str) : Prop :=
  role = "clickable" \/ role = "focusable".

Definition colonFree (s : str) : bool :=
  forallb (fun c => negb (code c =? 58)%N) s.

(** The state of the tracker and of the nth fields before the final clean-up:
    the two maps of the tracker agree; the entries under a key of the tree
    carry the indices from zero in order; an entry has a role of the tree, or
    a role of the detector and no index. *)
Record trackInv (st : St) : Prop := mkTrackInv {
  ti_keys : keysInv st;
  ti_tracked : forall k,
    length (default [] (refsByKey (tracker st) !! k))
      = N.to_nat (default 0%N (counts (tracker st) !! k));
  ti_nths : forall role name, treeRole role ->
    map nthOf (sharing (getKey role name) (refs st))
      = nths (N.to_nat (default 0%N (counts (tracker st) !! getKey role name)));
  ti_roles : forall kv, kv ∈ refs st ->
    treeRole (re_role kv.2)
    \/ (cursorRoleName (re_role kv.2) /\ re_nth kv.2 = None)
}.

(** A page with two clickable elements that carry the same text. *)
Definition saveButton (i : nat) : Element :=
  mkElement [0; i] "DIV" [] [] None None None (Some ("Save" : str))
    (Some ("Save" : str)) "pointer" "block" "visible" "1" None true None false
    ("div:nth-of-type(" ++ toString (N.of_nat (S i)) ++ ")") true false [].

Definition bodyElement : Element :=
  mkElement [0] "BODY" [] [] None None None (Some ("Save Save" : str))
    (Some ("SaveSave" : str)) "auto" "block" "visible" "1" None false None false
    "body" true false "body".

Definition twoSavePage : Page :=
  mkPage (fun _ => Returned [])
    (Returned (mkDocument [bodyElement; saveButton 0; saveButton 1]
                 (Some bodyElement)
                 (fun sel => if strEq sel "body"
                             then Some (fun e => sameElement e bodyElement)
                             else Some (fun _ => false)))).

(** An interactive-mode line and the normal-mode line of the same entry: the
    same role, name and nth index; the interactive line starts at the dash
    and keeps the suffix only when it has a bracket; the ref numbers are
    those of each run. *)
Definition corresponds (interactiveLine fullLine : str) : Prop :=
  exists m refI refF nth,
    memStr (toLowerCase (lm_role m)) INTERACTIVE_ROLES = true
    /\ interactiveLine = renderInteractive m refI nth
    /\ fullLine = render m refF nth.

(** Two states whose trackers count the keys of interactive roles alike. *)
Definition agree (st1 st2 : St) : Prop :=
  forall role name, memStr role INTERACTIVE_ROLES = true ->
    counts (tracker st1) !! getKey role name
      = counts (tracker st2) !! getKey role name.

(** A candidate labeled by [title] or [aria-label]. *)
Definition labeled (c : Candidate) : bool := c_hasTitle c || c_hasAriaLabel c.


(** No element of the list contains, or is contained in, a later one. *)
Fixpoint disjointList (l : list Candidate) : Prop :=
  match l with
  | [] => True
  | x :: r => Forall (fun y => overlaps x y = false) r /\ disjointList r
  end.

(** The heading of a region and the text of its section. *)
Definition titleOf (key : RegionKey) : str :=
  match key with
  | sidebar => "Sidebar"
  | contents => "Contents"
  | drawer => "Drawer"
  | fab => "FAB"
  end.

Definition sectionText (region : SnapshotRegion) (body : str) : str :=
  "# " ++ rg_title region ++ ":" ++ nl ++ body.

(** A region as [getMyheloActiveRegions] returns them: at least one selector,
    and the title of its key. *)
Definition wellFormedRegion (region : SnapshotRegion) : Prop :=
  rg_selectors region <> [] /\ rg_title region = titleOf (rg_key region).

(** The region of a key with the selectors found for it: none when there is
    no selector. *)
Definition regionOf (key : RegionKey) (selectors : list str)
    : list SnapshotRegion :=
  match selectors with
  | [] => []
  | _ :: _ => [mkRegion key (titleOf key) selectors]
  end.

(** *** Pages used in the examples *)

Definition exampleElement (path : list nat) (tag id : str) (title : option str)
    (text cursor : str) (visible : bool) : Element :=
  mkElement path tag id [] None title None (Some text) (Some text) cursor
    "block" "visible" "1" None false None false ("#" ++ id) visible false
    ("#" ++ id).

(** Selector matching of the example documents: an id selector matches the
    element with that id, [body] matches the body, nothing else matches. *)
Definition idMatcher (sel : str) : option (Element -> bool) :=
  match sel with
  | c :: i =>
      if (code c =? 35)%N then Some (fun e => strEq (el_id e) i)
      else Some (fun e => strEq sel "body" && strEq (el_tagName e) "BODY")
  | [] => None
  end.

(** A wrapper labeled by [title] around an icon and a text, all with the
    pointer cursor. *)
Definition settingsPage : Page :=
  let body := exampleElement [0] "BODY" "body" None "Settings" "auto" true in
  mkPage (fun _ => Returned [])
    (Returned (mkDocument
       [ body;
         exampleElement [0; 0] "DIV" "wrap" (Some ("Settings" : str))
           "* Settings" "pointer" true;
         exampleElement [0; 0; 0] "DIV" "icon" None "*" "pointer" true;
         exampleElement [0; 0; 1] "SPAN" "label" None "Settings" "pointer" true ]
       (Some body) idMatcher)).

(** The shell: a sidebar, a contents pane, a drawer and a floating button,
    each on screen or not. *)
Definition shellPage (showSidebar showDrawer showFab : bool) : Page :=
  let body := exampleElement [0] "BODY" "body" None [] "auto" true in
  mkPage
    (fun sel =>
       if strEq sel "#sidebar-center" then Returned ("- button" ++ quoted "Threads")
       else if strEq sel "#contents-center"
       then Returned ("- button" ++ quoted "Conversation")
       else if strEq sel "#drawer-container"
       then Returned ("- button" ++ quoted "Details")
       else if strEq sel "#chat-fab" then Returned ("- button" ++ quoted "+")
       else Returned ("- document" : str))
    (Returned (mkDocument
       [ body;
         exampleElement [0; 0] "DIV" "sidebar-center" None "Threads" "auto"
           showSidebar;
         exampleElement [0; 1] "DIV" "contents-center" None "Conversation"
           "auto" true;
         exampleElement [0; 2] "DIV" "drawer-container" None "Details" "auto"
           showDrawer;
         exampleElement [0; 3] "BUTTON" "chat-fab" None "+" "pointer" showFab ]
       (Some body) idMatcher)).

Definition treeOf (r : outcome (EnhancedSnapshot * N)) : option str :=
  match r with
  | Returned (snap, _) => Some (tree snap)
  | Threw => None
  end.

(** A line whose role, as the line pattern reads it, is in the Interactive
    set. *)
Definition hasInteractiveRole (line : str) : bool :=
  match lineMatch line with
  | Some m => memStr (toLowerCase (lm_role m)) INTERACTIVE_ROLES
  | None => false
  end.

(** A page whose accessibility tree is the empty string and whose document
    cannot be evaluated. *)
Definition emptyPage : Page := mkPage (fun _ => Returned []) Threw.


(** *** Vocabulary of the further properties *)

(** The two kinds of line the compact pass keeps without looking below them:
    a line that carries a ref, and a line with text after a colon. *)
Definition carriesRef (line : str) : bool := includes "[ref=" line.

Definition hasInlineText (line : str) : bool :=
  includes ":" line && negb (endsWith ":" line).

Definition alwaysKept (line : str) : bool := carriesRef line || hasInlineText line.

(** An output line of the normal mode against its input line: the line as it
    is, or the line with a ref. *)
Definition annotates (line out : str) : Prop :=
  out = line
  \/ exists m ref nth,
       lineMatch line = Some m /\ shouldHaveRef m = true
       /\ out = render m ref nth.

(** The text that shows a ref in a line. *)
Definition refTag (ref : str) : str := "[ref=" ++ ref ++ "]".

(** Every ref that state [st'] has and state [st] had not is shown in one of
    the texts. *)
Definition refsShown (texts : list str) (st st' : St) : Prop :=
  forall r, r ∈ map fst (refs st') ->
    r ∈ map fst (refs st)
    \/ exists t, t ∈ texts /\ includes (refTag r) t = true.

(** What every element returned by the cursor detector has: a name of one to
    a hundred characters, at least one of the three marks of interactivity,
    and a tag outside the natively interactive ones. *)
Definition cursorShaped (el : CursorElement) : Prop :=
  truthy (ce_text el) = true
  /\ length (ce_text el) <= 100
  /\ ce_hasCursorPointer el || ce_hasOnClick el || ce_hasTabIndex el = true
  /\ ce_tagName el ∉ interactiveTags.

(** A text in which every whitespace character is a space that stands alone
    between two other characters or at an end. *)
Fixpoint singleSpaced (s : str) : bool :=
  match s with
  | [] => true
  | c :: s' =>
      (negb (isSpace c)
       || (Ascii.eqb c " "
           && match s' with
              | d :: _ => negb (isSpace d)
              | [] => true
              end))
      && singleSpaced s'
  end.

(** No whitespace at the start and none at the end. *)
Definition trimmed (s : str) : Prop :=
  match s with c :: _ => isSpace c = false | [] => True end
  /\ match rev s with c :: _ => isSpace c = false | [] => True end.

(** The marks the score of a candidate is made of, the heaviest first; the
    aria-label counts only without a title. *)
Definition scoreFlags (c : Candidate) : list bool :=
  [ c_hasTitle c; negb (c_hasTitle c) && c_hasAriaLabel c;
    c_hasDirectCursorPointer c; c_hasOnClick c; c_hasTabIndex c ].

(** The lexicographic order on lists of marks, a missing mark before a
    present one. *)
Fixpoint flagsLt (a b : list bool) : bool :=
  match a, b with
  | x :: a', y :: b' => (negb x && y) || (Bool.eqb x y && flagsLt a' b')
  | _, _ => false
  end.

(** The state changes of a snapshot with the options taken into account: a
    ref for a line with an interactive role; outside the interactive mode, a
    ref for a named line with a content role; with the cursor option, a ref
    for an element of the detector. *)
Inductive produced (interactive cursor : bool) : St -> St -> Prop :=
| produced_interactive role name st :
    role ∈ INTERACTIVE_ROLES ->
    produced interactive cursor st (assignRef role name st).2
| produced_content role name st :
    interactive = false -> role ∈ CONTENT_ROLES -> truthyOpt name = true ->
    produced interactive cursor st (assignRef role name st).2
| produced_cursor el st :
    cursor = true -> cursorShaped el ->
    produced interactive cursor st (cursorStep el st).

(** The three kinds of entry of a ref map. *)
Definition interactiveEntry (e : RefEntry) : Prop :=
  re_role e ∈ INTERACTIVE_ROLES
  /\ re_selector e = buildSelector (re_role e) (re_name e).

Definition contentEntry (e : RefEntry) : Prop :=
  re_role e ∈ CONTENT_ROLES /\ truthyOpt (re_name e) = true
  /\ re_selector e = buildSelector (re_role e) (re_name e).

Definition cursorEntry (e : RefEntry) : Prop :=
  cursorRoleName (re_role e) /\ re_nth e = None
  /\ exists text, re_name e = Some text /\ truthy text = true
       /\ length text <= 100.

Definition entryOk (interactive cursor : bool) (e : RefEntry) : Prop :=
  interactiveEntry e
  \/ (interactive = false /\ contentEntry e)
  \/ (cursor = true /\ cursorEntry e).

(** A role made of word characters, as the role of a matched line is. *)
Definition wordOnly (s : str) : bool := forallb isWord s.

(** What the final clean-up does to one entry. *)
Definition stripNth (t : RoleNameTracker) (e : RefEntry) : RefEntry :=
  if bool_decide (entryKey e ∈ getDuplicateKeys t) then e else deleteNth e.

(** Some element of the document matches one of the selectors. *)
Definition present (doc : Document) (selectors : list str) : Prop :=
  exists sel p e,
    sel ∈ selectors /\ doc_matches doc sel = Some p
    /\ e ∈ doc_elements doc /\ p e = true.

(** Two elements of which neither contains the other, the first no deeper
    than the second. *)
Definition apart (a b : Element) : Prop :=
  contains a b = false /\ contains b a = false /\ getDepth a <= getDepth b.

(** A line that begins, after optional whitespace, with a dash, optional
    whitespace and a word character. *)
Definition entryShaped (line : str) : Prop :=
  exists ws1 ws2 w rest,
    line = ws1 ++ "-" ++ ws2 ++ w :: rest
    /\ Forall (fun c => isSpace c = true) ws1
    /\ Forall (fun c => isSpace c = true) ws2
    /\ isWord w = true.

(** What stands between the role and the suffix of a matched line: nothing,
    or whitespace and the name between two double quotes. *)
Definition nameText (name : option str) (mid : str) : Prop :=
  match name with
  | None => mid = []
  | Some n =>
      exists ws, mid = ws ++ chr_quote :: n ++ [chr_quote]
        /\ ws <> [] /\ Forall (fun c => isSpace c = true) ws
        /\ Forall (fun c => isQuote c = false) n
  end.

Definition withCursor (options : SnapshotOptions) (cursor : bool)
    : SnapshotOptions :=
  mkOptions (o_interactive options) cursor (o_maxDepth options)
    (o_compact options) (o_selector options).

(** The heading between the tree and the lines of the cursor detector. *)
Definition cursorHeading : str := nl ++ "# Cursor-interactive elements:" ++ nl.

(** What identifies the target of an entry, the index apart. *)
Definition entryId (kv : str * RefEntry) : str * str * option str :=
  (re_selector kv.2, re_role kv.2, re_name kv.2).

(** State [st'] has the refs of state [st] followed by [added], under the ids
    handed out in order. *)
Definition grows (st st' : St) (added : RefMap) : Prop :=
  refs st' = refs st ++ added /\ keysInv st'.

(** The four fields of an entry, the ref id apart. *)
Definition entryData (kv : str * RefEntry)
    : str * str * option str * option N :=
  (re_selector kv.2, re_role kv.2, re_name kv.2, re_nth kv.2).

(** The entries of a ref map other than those of content roles. *)
Definition withoutContent (m : RefMap) : RefMap :=
  filter (fun kv : str * RefEntry => re_role kv.2 ∉ CONTENT_ROLES) m.

(** A run of the interactive mode from [sI] to [sI'] beside a run of the
    normal mode from [sF] to [sF']: the entries the first adds are those the
    second adds outside the content roles, field for field, and the trackers
    still count the keys of interactive roles alike. *)
Definition mirrors (sI sF sI' sF' : St) : Prop :=
  exists aI aF,
    grows sI sI' aI /\ grows sF sF' aF /\ agree sI' sF'
    /\ map entryData aI = map entryData (withoutContent aF).

(** The texts of the scopes of a region: the scoped snapshot of each selector
    in turn, each from the state the one before it left. *)
Inductive scopeTexts (page : Page) (options : SnapshotOptions)
    : list str -> St -> list str -> St -> Prop :=
| scopeTexts_nil st : scopeTexts page options [] st [] st
| scopeTexts_cons selector rest st scoped texts st' :
    getEnhancedSnapshotForScope page (withSelector options (Some selector)) st
      = Returned scoped ->
    scopeTexts page options rest scoped.2 texts st' ->
    scopeTexts page options (selector :: rest) st (scoped.1 :: texts) st'.

(** A scope text that goes into the body of a region: not the empty string
    and not a placeholder. *)
Definition keptText (t : str) : bool := truthy t && negb (isPlaceholder t).

(** * Properties *)

(** ** Strings *)

Section StringFacts.

Lemma forallb_all {A} (p : A -> bool) (l : list A) :
  forallb p l = true <-> Forall (fun c => p c = true) l.
Proof.
  induction l as [|c l IH]; simpl.
  - split; [constructor|done].
  - rewrite andb_true_iff, Forall_cons. by rewrite IH.
Qed.

Lemma memStr_false (x : str) (l : list str) : x ∉ l -> memStr x l = false.
Proof. intros H. unfold memStr. by apply bool_decide_eq_false_2. Qed.

Lemma memStr_false_inv (x : str) (l : list str) : memStr x l = false -> x ∉ l.
Proof. unfold memStr. apply bool_decide_eq_false_1. Qed.

Lemma memStr_true (x : str) (l : list str) : memStr x l = true <-> x ∈ l.
Proof. unfold memStr. apply bool_decide_eq_true. Qed.

Lemma span_eq (p : ascii -> bool) (s : str) :
  s = (span p s).1 ++ (span p s).2.
Proof.
  induction s as [|c s IH]; simpl; [done|].
  destruct (p c); [|done].
  destruct (span p s) as [a b]; simpl in *. by rewrite IH at 1.
Qed.

Lemma span_all (p : ascii -> bool) (s : str) :
  Forall (fun c => p c = true) (span p s).1.
Proof.
  induction s as [|c s IH]; simpl; [constructor|].
  destruct (p c) eqn:Hc; [|constructor].
  destruct (span p s) as [a b]; simpl in *. by constructor.
Qed.

Lemma span_stop (p : ascii -> bool) (s : str) c r :
  (span p s).2 = c :: r -> p c = false.
Proof.
  induction s as [|x s IH]; simpl; [done|].
  destruct (p x) eqn:Hx.
  - destruct (span p s) as [a b]; simpl in *. exact IH.
  - simpl. intros [= -> _]. exact Hx.
Qed.

Lemma span_app (p : ascii -> bool) (a b : str) :
  Forall (fun c => p c = true) a ->
  match b with [] => True | c :: _ => p c = false end ->
  span p (a ++ b) = (a, b).
Proof.
  intros Ha Hb. induction Ha as [|c a Hc Ha IH]; simpl.
  - destruct b as [|c b]; simpl; [done|]. by rewrite Hb.
  - by rewrite Hc, IH.
Qed.

Lemma startsWith_app (pre s : str) : startsWith pre (pre ++ s) = true.
Proof.
  induction pre as [|c pre IH]; simpl; [done|].
  by rewrite Ascii.eqb_refl, IH.
Qed.

Lemma startsWith_spec (pre s : str) :
  startsWith pre s = true <-> exists t, s = pre ++ t.
Proof.
  split.
  - revert s. induction pre as [|c pre IH]; intros s H; simpl in *.
    + by exists s.
    + destruct s as [|d s]; [done|].
      apply andb_true_iff in H as [Hc H]. apply Ascii.eqb_eq in Hc as ->.
      destruct (IH _ H) as [t ->]. by exists t.
  - intros [t ->]. apply startsWith_app.
Qed.

Lemma includes_startsWith (needle s : str) :
  startsWith needle s = true -> includes needle s = true.
Proof. intros H. destruct s; simpl; by rewrite H. Qed.

Lemma includes_spec (needle s : str) :
  includes needle s = true <-> exists a b, s = a ++ needle ++ b.
Proof.
  split.
  - induction s as [|c s IH]; simpl; intros H.
    + rewrite orb_false_r in H. apply startsWith_spec in H as [t ->].
      by exists [], t.
    + apply orb_true_iff in H as [H|H].
      * apply startsWith_spec in H as [t ->]. by exists [], t.
      * destruct (IH H) as (a & b & ->). by exists (c :: a), b.
  - intros (a & b & ->). induction a as [|c a IH]; simpl.
    + apply includes_startsWith, startsWith_app.
    + rewrite IH. apply orb_true_r.
Qed.

Lemma includes_app_r (needle a b : str) :
  includes needle b = true -> includes needle (a ++ b) = true.
Proof.
  rewrite !includes_spec. intros (x & y & ->).
  exists (a ++ x), y. by rewrite <- app_assoc.
Qed.

Lemma includes_app_l (needle a b : str) :
  includes needle a = true -> includes needle (a ++ b) = true.
Proof.
  rewrite !includes_spec. intros (x & y & ->).
  exists x, (y ++ b). by rewrite <- !app_assoc.
Qed.

(** *** Lines *)

Lemma split_nonempty (s : str) : split s <> [].
Proof.
  destruct s as [|c s]; simpl; [done|].
  destruct (Ascii.eqb c chr_newline); [done|]. by destruct (split s).
Qed.

Lemma join_split (s : str) : join nl (split s) = s.
Proof.
  induction s as [|c s IH]; simpl; [done|].
  destruct (Ascii.eqb c chr_newline) eqn:E.
  - apply Ascii.eqb_eq in E as ->.
    destruct (split s) as [|l ls] eqn:Es; [by destruct (split_nonempty s)|].
    simpl. simpl in IH. by rewrite IH.
  - destruct (split s) as [|l ls] eqn:Es; [by destruct (split_nonempty s)|].
    simpl in *. destruct ls; simpl in *; by rewrite IH.
Qed.

Lemma split_noNewline (s : str) : Forall noNewline (split s).
Proof.
  induction s as [|c s IH]; simpl.
  - repeat constructor.
  - destruct (Ascii.eqb c chr_newline) eqn:E.
    + constructor; [constructor|done].
    + destruct (split s) as [|l ls]; [repeat constructor|].
      * intros ->. by rewrite Ascii.eqb_refl in E.
      * inversion IH; subst. constructor; [|done].
        constructor; [|done]. intros ->. by rewrite Ascii.eqb_refl in E.
Qed.

Lemma split_line (l : str) : noNewline l -> split l = [l].
Proof.
  induction 1 as [|c l Hc Hl IH]; simpl; [done|].
  destruct (Ascii.eqb c chr_newline) eqn:E.
  - by apply Ascii.eqb_eq in E.
  - by rewrite IH.
Qed.

Lemma split_app_line (l s : str) :
  noNewline l -> split (l ++ nl ++ s) = l :: split s.
Proof.
  induction 1 as [|c l Hc Hl IH]; simpl; [done|].
  destruct (Ascii.eqb c chr_newline) eqn:E.
  - by apply Ascii.eqb_eq in E.
  - simpl in IH. by rewrite IH.
Qed.

Lemma split_join (ls : list str) :
  ls <> [] -> Forall noNewline ls -> split (join nl ls) = ls.
Proof.
  intros Hne H. induction H as [|l ls Hl Hls IH]; [done|].
  destruct ls as [|l' ls].
  - by apply split_line.
  - change (join nl (l :: l' :: ls)) with (l ++ nl ++ join nl (l' :: ls)).
    rewrite split_app_line by done. f_equal. by apply IH.
Qed.



End StringFacts.

(** ** Patterns

    Each repeated class of the module's patterns is followed by something
    that a character of the class cannot start, so the greedy choice is the
    only one that can succeed and backtracking never changes the result. *)

Section Patterns.

Lemma span_forallb (p : ascii -> bool) (s : str) :
  forallb p s = match (span p s).2 with [] => true | _ :: _ => false end.
Proof.
  induction s as [|c s IH]; simpl; [done|].
  destruct (p c); [|done].
  destruct (span p s) as [a b]; simpl in *. exact IH.
Qed.

Lemma take_consumed (a b : str) :
  take (length (a ++ b) - length b) (a ++ b) = a.
Proof.
  rewrite length_app.
  replace (length a + length b - length b) with (length a) by lia.
  apply take_app_length.
Qed.

Lemma take_span (p : ascii -> bool) (s : str) :
  take (length s - length (span p s).2) s = (span p s).1.
Proof. rewrite (span_eq p s) at 1 3. apply take_consumed. Qed.

(** A greedy repetition gives characters back only when the rest fails after
    the longest run. *)
Lemma starGreedy_span {R} (p : ascii -> bool) (s : str) (k : str -> option R) :
  (k (span p s).2 = None ->
   forall a c b, (span p s).1 = a ++ c :: b ->
     k (c :: b ++ (span p s).2) = None) ->
  starGreedy p s k = k (span p s).2.
Proof.
  induction s as [|x s IH]; simpl; [done|].
  destruct (p x) eqn:Hx; [|done].
  pose proof (span_eq p s) as E.
  destruct (span p s) as [a0 b0]; simpl in *.
  intros H. rewrite IH.
  - destruct (k b0) eqn:Hk; [done|].
    rewrite E. exact (H eq_refl [] x a0 eq_refl).
  - intros Hk a c b Hab. apply (H Hk (x :: a) c b). by rewrite Hab.
Qed.

Lemma starGreedy_class {R} (p : ascii -> bool) (s : str) (k : str -> option R) :
  (forall c r, p c = true -> k (c :: r) = None) ->
  starGreedy p s k = k (span p s).2.
Proof.
  intros H. apply starGreedy_span. intros _ a c b Hab. apply H.
  pose proof (span_all p s) as Hall. rewrite Hab in Hall.
  apply Forall_app in Hall as [_ Hall]. by inversion Hall.
Qed.

Lemma isSpace_isDash (c : ascii) : isSpace c = true -> isDash c = false.
Proof. destruct c as [[] [] [] [] [] [] [] []]; done. Qed.

Lemma isSpace_isWord (c : ascii) : isSpace c = true -> isWord c = false.
Proof. destruct c as [[] [] [] [] [] [] [] []]; done. Qed.

Lemma isSpace_isQuote (c : ascii) : isSpace c = true -> isQuote c = false.
Proof. destruct c as [[] [] [] [] [] [] [] []]; done. Qed.

Lemma isWord_isSpace (c : ascii) : isWord c = true -> isSpace c = false.
Proof. destruct c as [[] [] [] [] [] [] [] []]; done. Qed.

Lemma run_opt (a b : regex) (s : str) (caps : captures)
    (k : str -> captures -> option captures) :
  run (Opt a >> b) s caps k
  = match run a s caps (fun s' c' => run b s' c' k) with
    | Some res => Some res
    | None => run b s caps k
    end.
Proof. reflexivity. Qed.

(** The suffix group and the end anchor. *)
Lemma run_suffix (s : str) (caps : captures) :
  run (Group 4 (Star anyChar) >> End) s caps (fun _ c => Some c)
  = if noTerminator s then Some (<[4 := s]> caps) else None.
Proof.
  cbn [run]. rewrite starGreedy_class by done.
  unfold noTerminator. rewrite (span_forallb _ s).
  pose proof (take_span anyChar s) as Ht. pose proof (span_eq anyChar s) as E.
  unfold anyChar in *.
  destruct (span _ s) as [a b]; simpl in *.
  destruct b as [|c b]; [|done].
  rewrite Ht. rewrite app_nil_r in E. by rewrite E.
Qed.

(** The optional group. *)
Lemma run_name (s : str) (caps : captures)
    (k : str -> captures -> option captures) :
  run (Plus isSpace >> Class isQuote >> Group 3 (Star notQuote)
       >> Class isQuote) s caps k
  = match matchQuotedName s with
    | Some (name, rest) => k rest (<[3 := name]> caps)
    | None => None
    end.
Proof.
  cbn [run]. unfold matchQuotedName.
  destruct s as [|c s]; [done|]. simpl span.
  destruct (isSpace c) eqn:Hc; [|done].
  rewrite starGreedy_class.
  2:{ intros q r Hq. by rewrite (isSpace_isQuote q Hq). }
  destruct (span isSpace s) as [ws r]; simpl.
  destruct r as [|q r]; [done|].
  destruct (isQuote q); [|done].
  rewrite starGreedy_class.
  2:{ intros x t Hx. unfold notQuote in Hx.
      destruct (isQuote x); [done|done]. }
  pose proof (take_span notQuote r) as Ht.
  pose proof (span_stop notQuote r) as Hstop.
  unfold notQuote in *.
  destruct (span _ r) as [name r5]; simpl in *.
  destruct r5 as [|q2 r6]; [done|].
  specialize (Hstop q2 r6 eq_refl). apply negb_false_iff in Hstop.
  by rewrite Hstop, Ht.
Qed.

(** What follows the role. *)
Lemma run_rest (s : str) (caps : captures) :
  run (Opt (Plus isSpace >> Class isQuote >> Group 3 (Star notQuote)
            >> Class isQuote)
       >> Group 4 (Star anyChar) >> End) s caps (fun _ c => Some c)
  = let plain := if noTerminator s then Some (<[4 := s]> caps) else None in
    match matchQuotedName s with
    | Some (name, rest) =>
        if noTerminator rest then Some (<[4 := rest]> (<[3 := name]> caps))
        else plain
    | None => plain
    end.
Proof.
  rewrite run_opt.
  rewrite run_name, run_suffix. cbv zeta.
  destruct (matchQuotedName s) as [[name rest]|]; [|done].
  rewrite run_suffix. by destruct (noTerminator rest).
Qed.

Lemma run_rest_word (c : ascii) (s : str) (caps caps' : captures) :
  isWord c = true ->
  run (Opt (Plus isSpace >> Class isQuote >> Group 3 (Star notQuote)
            >> Class isQuote)
       >> Group 4 (Star anyChar) >> End) s caps (fun _ c => Some c) = None ->
  forall b,
  run (Opt (Plus isSpace >> Class isQuote >> Group 3 (Star notQuote)
            >> Class isQuote)
       >> Group 4 (Star anyChar) >> End) (c :: b ++ s) caps'
    (fun _ c => Some c) = None.
Proof.
  intros Hc Hs b. rewrite run_rest in *. cbv zeta in *.
  assert (Hterm : noTerminator s = false).
  { destruct (noTerminator s); [|done].
    by destruct (matchQuotedName s) as [[? rest]|]; [destruct (noTerminator rest)|]. }
  assert (noTerminator (c :: b ++ s) = false) as ->.
  { unfold noTerminator in *. simpl. rewrite forallb_app, Hterm.
    by rewrite andb_false_r, andb_false_r. }
  unfold matchQuotedName. simpl span. by rewrite (isWord_isSpace c Hc).
Qed.

Lemma run_prefix (r : regex) (line : str) (caps : captures)
    (k : str -> captures -> option captures) :
  run (Group 1 (Star isSpace >> Class isDash >> Star isSpace) >> r) line caps k
  = starGreedy isSpace line (fun s1 =>
      match s1 with
      | c :: s2 =>
          if isDash c then
            starGreedy isSpace s2 (fun s3 =>
              run r s3 (<[1 := take (length line - length s3) line]> caps) k)
          else None
      | [] => None
      end).
Proof. reflexivity. Qed.

Lemma run_role (r : regex) (s : str) (caps : captures)
    (k : str -> captures -> option captures) :
  run (Group 2 (Plus isWord) >> r) s caps k
  = match s with
    | w :: s' =>
        if isWord w then
          starGreedy isWord s' (fun s'' =>
            run r s'' (<[2 := take (length s - length s'') s]> caps) k)
        else None
    | [] => None
    end.
Proof. reflexivity. Qed.

(** Matching [lineRegex] is reading the line from left to right. *)
Lemma lineMatch_parseLine (line : str) : lineMatch line = parseLine line.
Proof.
  unfold lineMatch, parseLine, exec, lineRegex.
  rewrite run_prefix.
  rewrite starGreedy_class.
  2:{ intros c r Hc. by rewrite (isSpace_isDash c Hc). }
  pose proof (span_eq isSpace line) as E1.
  destruct (span isSpace line) as [ws1 r1]; cbn [fst snd] in E1 |- *.
  destruct r1 as [|dash r1]; [done|].
  unfold isDash. destruct (code dash =? 45)%N eqn:Hdash; [|done].
  rewrite starGreedy_class.
  2:{ intros c r Hc. rewrite run_role. by rewrite (isSpace_isWord c Hc). }
  pose proof (span_eq isSpace r1) as E2.
  destruct (span isSpace r1) as [ws2 r2]; cbn [fst snd] in E2 |- *.
  assert (Hcap1 : take (length line - length r2) line = ws1 ++ dash :: ws2).
  { rewrite E1, E2.
    replace (ws1 ++ dash :: ws2 ++ r2) with ((ws1 ++ dash :: ws2) ++ r2)
      by (by rewrite <- app_assoc).
    apply take_consumed. }
  rewrite Hcap1, run_role.
  destruct r2 as [|w r2']; [done|]. simpl span.
  destruct (isWord w) eqn:Hw; [|done].
  rewrite starGreedy_span.
  2:{ intros Hnone a c b Hab. cbn [fst snd] in *.
      pose proof (span_all isWord r2') as Hall. rewrite Hab in Hall.
      apply Forall_app in Hall as [_ Hall]. inversion Hall as [|? ? Hc _]; subst.
      eapply run_rest_word; [exact Hc|exact Hnone]. }
  pose proof (take_span isWord (w :: r2')) as Hcap2. simpl span in Hcap2.
  rewrite Hw in Hcap2.
  destruct (span isWord r2') as [role r3]; cbn [fst snd] in Hcap2 |- *.
  rewrite Hcap2, run_rest. cbv zeta.
  destruct (matchQuotedName r3) as [[name rest]|].
  - destruct (noTerminator rest); [by simplify_map_eq|].
    destruct (noTerminator r3); [by simplify_map_eq|done].
  - destruct (noTerminator r3); [by simplify_map_eq|done].
Qed.

(** The leading whitespace of a line. *)
Lemma getIndentLevel_span (line : str) :
  getIndentLevel line = length (span isSpace line).1 / 2.
Proof.
  unfold getIndentLevel, exec. cbn [run].
  rewrite starGreedy_span by done.
  rewrite take_span. by simplify_map_eq.
Qed.

(** The pattern of ref ids: an [e] and a non-empty run of digits. *)
Lemma isRefId_unfold (arg : str) :
  isRefId arg
  = match arg with
    | c :: d :: ds => (code c =? 101)%N && forallb isDigit (d :: ds)
    | _ => false
    end.
Proof.
  unfold isRefId, test, exec, refRegex. cbn [run].
  destruct arg as [|c [|d ds]]; [done| |].
  - by destruct (code c =? 101)%N.
  - destruct (code c =? 101)%N; [|done]. simpl.
    destruct (isDigit d); [|done].
    rewrite starGreedy_class by done.
    rewrite (span_forallb isDigit ds).
    by destruct (span isDigit ds).2.
Qed.

End Patterns.

(** ** C10: parseRef *)

Section ParseRef.

Lemma code_inj (c : ascii) (n : N) : code c = n -> c = ascii_of_N n.
Proof. intros <-. unfold code. by rewrite ascii_N_embedding. Qed.

Lemma isRefId_spec (s : str) : isRefId s = true <-> matchesRefPattern s.
Proof.
  rewrite isRefId_unfold. split.
  - destruct s as [|c [|d ds]]; simpl; try done.
    intros H. apply andb_true_iff in H as [Hc Hd].
    apply N.eqb_eq, code_inj in Hc as ->.
    exists (d :: ds). split; [done|]. split; [done|].
    by apply (forallb_all isDigit (d :: ds)).
  - intros (ds & -> & Hne & Hd). destruct ds as [|d ds]; [done|].
    simpl. by apply (forallb_all isDigit (d :: ds)).
Qed.

Lemma parseRef_pattern (arg : str) :
  matchesRefPattern arg -> parseRef arg = Some arg.
Proof.
  intros H. pose proof H as (ds & -> & _ & _).
  apply isRefId_spec in H. unfold parseRef.
  change (startsWith "@" ("e" ++ ds)) with false.
  change (startsWith "ref=" ("e" ++ ds)) with false.
  cbv iota. by rewrite H.
Qed.

(** C10.  [parseRef] is a total function with four cases: after [@] the rest
    is returned as it is, after [ref=] the rest is returned as it is, a string
    made of [e] and one or more digits is returned whole, and every other
    string gives [None] (null).  The strings made of [e] and one or more
    digits are the ones the pattern of the third branch accepts. *)
Theorem parseRef_cases (arg : str) :
  (forall rest, arg = "@" ++ rest -> parseRef arg = Some rest) /\
  (forall rest, arg = "ref=" ++ rest -> parseRef arg = Some rest) /\
  (matchesRefPattern arg -> parseRef arg = Some arg) /\
  (startsWith "@" arg = false -> startsWith "ref=" arg = false ->
   ~ matchesRefPattern arg -> parseRef arg = None) /\
  (exists r, parseRef arg = r /\
     (r = None \/ r = Some arg \/ r = Some (sliceFrom 1 arg)
      \/ r = Some (sliceFrom 4 arg))) /\
  (test refRegex arg = true <-> matchesRefPattern arg).
Proof.
  split; [by intros rest ->|]. split; [by intros rest ->|].
  split; [apply parseRef_pattern|]. split; [|split; [|apply isRefId_spec]].
  - intros H1 H2 H3. unfold parseRef. rewrite H1, H2.
    destruct (isRefId arg) eqn:E; [|done].
    by apply isRefId_spec in E.
  - exists (parseRef arg). split; [done|]. unfold parseRef.
    destruct (startsWith "@" arg); [auto|].
    destruct (startsWith "ref=" arg); [auto|].
    destruct (isRefId arg); auto.
Qed.

(** The example of the claim: no validation of what follows the [@]. *)
Lemma parseRef_cases_witness :
  parseRef "@foo" = Some ("foo" : str) /\
  parseRef "ref=e7" = Some ("e7" : str) /\
  parseRef "e12" = Some ("e12" : str) /\
  parseRef "button" = None.
Proof.
  destruct (parseRef_cases "@foo") as (H1 & _).
  destruct (parseRef_cases "ref=e7") as (_ & H2 & _).
  destruct (parseRef_cases "e12") as (_ & _ & H3 & _).
  destruct (parseRef_cases "button") as (_ & _ & _ & H4 & _).
  split; [by apply H1|]. split; [by apply H2|].
  split.
  - apply H3. exists ("12" : str). split; [done|]. split; [done|].
    repeat constructor.
  - apply H4; [done|done|]. intros (ds & E & _). discriminate E.
Defined.

End ParseRef.

(** ** Every function of the pipeline moves the state by [step]s *)

Section Steps.

(** [processAriaTree] as the source writes it, with [compactTree] applied to
    the joined lines. *)
Lemma processAriaTree_eq ariaTree options finalizeNth st :
  processAriaTree ariaTree options finalizeNth st =
    let lines := split ariaTree in
    if o_interactive options then
      let '(result, st') := interactiveLoop lines st in
      (strOr (join nl result) textNoInteractive,
       if finalizeNth then removeNthFromNonDuplicates st' else st')
    else
      let '(result, st') := fullLoop lines options st in
      let st'' := if finalizeNth then removeNthFromNonDuplicates st' else st' in
      if o_compact options then (compactTree (join nl result), st'')
      else (join nl result, st'').
Proof.
  unfold processAriaTree, processAriaTreeLines, compactTree. cbv zeta.
  destruct (o_interactive options).
  - by destruct (interactiveLoop _ _).
  - destruct (fullLoop _ _ _). by destruct (o_compact options).
Qed.

Lemma processLine_classify line options st :
  processLine line options st =
    match classify line options with
    | Dropped => (None, st)
    | Verbatim => (Some line, st)
    | Annotated m =>
        let '(ref, nth, st') := assignRef (toLowerCase (lm_role m)) (lm_name m) st in
        (Some (render m ref nth), st')
    end.
Proof.
  unfold processLine, classify, shouldHaveRef, render.
  destruct (tooDeep _ _); [done|].
  destruct (lineMatch line) as [m|]; [|by destruct (o_interactive options)].
  destruct (startsWith _ _); [done|].
  destruct (o_interactive options && _); [done|].
  destruct (o_compact options && _ && _); [done|].
  by destruct (_ || _).
Qed.

Lemma shouldHaveRef_treeRole m :
  shouldHaveRef m = true -> treeRole (toLowerCase (lm_role m)).
Proof.
  unfold shouldHaveRef, treeRole, memStr. intros H.
  apply orb_true_iff in H as [H|H].
  - left. by apply bool_decide_eq_true in H.
  - right. apply andb_true_iff in H as [H _]. by apply bool_decide_eq_true in H.
Qed.

Lemma classify_annotated line options m :
  classify line options = Annotated m ->
  lineMatch line = Some m /\ shouldHaveRef m = true
  /\ tooDeep options (getIndentLevel line) = false.
Proof.
  unfold classify. destruct (tooDeep _ _); [done|].
  destruct (lineMatch line) as [m'|]; [|by destruct (o_interactive options)].
  destruct (startsWith _ _); [done|].
  destruct (o_interactive options && _); [done|].
  destruct (o_compact options && _ && _); [done|].
  destruct (shouldHaveRef m') eqn:E; [|done]. by intros [= <-].
Qed.

Lemma assignRef_eq role name st :
  assignRef role name st =
    let ref := refName (refCounter st + 1) in
    let key := getKey role name in
    let current := default 0%N (counts (tracker st) !! key) in
    (ref, current,
     mkSt (refCounter st + 1)
       (refsSet ref (mkRefEntry (buildSelector role name) role name (Some current))
          (refs st))
       (mkTracker (<[key := (current + 1)%N]> (counts (tracker st)))
          (<[key := default [] (refsByKey (tracker st) !! key) ++ [ref]]>
             (refsByKey (tracker st))))).
Proof. done. Qed.

Lemma processLine_steps line options st :
  rtc step st (processLine line options st).2.
Proof.
  rewrite processLine_classify.
  destruct (classify line options) as [| |m] eqn:E; [done|done|].
  apply classify_annotated in E as (_ & E & _).
  pose proof (step_tree _ (lm_name m) st (shouldHaveRef_treeRole m E)) as H.
  destruct (assignRef _ _ st) as [[ref nth] st']. by apply rtc_once.
Qed.

Lemma fullLoop_steps lines options st :
  rtc step st (fullLoop lines options st).2.
Proof.
  revert st. induction lines as [|line rest IH]; intros st; simpl; [done|].
  pose proof (processLine_steps line options st) as H1.
  destruct (processLine line options st) as [processed st']. simpl in H1.
  specialize (IH st'). destruct (fullLoop rest options st') as [result st''].
  simpl in IH. destruct processed; simpl; by etrans.
Qed.

Lemma interactiveLoop_steps lines st :
  rtc step st (interactiveLoop lines st).2.
Proof.
  revert st. induction lines as [|line rest IH]; intros st;
    cbn [interactiveLoop]; [done|].
  destruct (lineMatch line) as [m|]; [|apply IH].
  destruct (memStr _ _) eqn:Hi; [|apply IH].
  assert (Hrole : treeRole (toLowerCase (lm_role m)))
    by (left; by apply bool_decide_eq_true in Hi).
  pose proof (step_tree _ (lm_name m) st Hrole) as H1.
  destruct (assignRef _ _ st) as [[ref nth] st']. simpl in H1.
  specialize (IH st'). destruct (interactiveLoop rest st') as [result st''].
  simpl in *. etrans; [apply rtc_once, H1|done].
Qed.

Lemma processAriaTree_steps ariaTree options st :
  rtc step st (processAriaTree ariaTree options false st).2.
Proof.
  unfold processAriaTree, processAriaTreeLines.
  destruct (o_interactive options).
  - pose proof (interactiveLoop_steps (split ariaTree) st) as H.
    by destruct (interactiveLoop _ _).
  - pose proof (fullLoop_steps (split ariaTree) options st) as H.
    destruct (fullLoop _ _ _). by destruct (o_compact options).
Qed.

Lemma cursorLoop_cons el rest st :
  cursorLoop (el :: rest) st =
    let ref := "e" ++ toString (refCounter st + 1) in
    let line := "- " ++ cursorRole el ++ quoted (ce_text el) ++ " [ref=" ++ ref
                  ++ "] [" ++ join ", " (cursorHints el) ++ "]" in
    (line :: (cursorLoop rest (cursorStep el st)).1,
     (cursorLoop rest (cursorStep el st)).2).
Proof.
  simpl. unfold cursorStep, nextRef.
  by destruct (cursorLoop rest _).
Qed.

Lemma cursorLoop_steps els st : rtc step st (cursorLoop els st).2.
Proof.
  revert st. induction els as [|el rest IH]; intros st; [done|].
  rewrite cursorLoop_cons. simpl.
  etrans; [apply rtc_once, (step_cursor el)|apply IH].
Qed.

(** The detector never rejects: a failure inside the page is caught. *)
Lemma findCursorInteractiveElements_returns page selector :
  exists l, findCursorInteractiveElements page selector = Returned l.
Proof.
  unfold findCursorInteractiveElements, try_catch.
  destruct (evaluate _ _); eauto.
Qed.

Lemma getMyheloActiveRegions_returns page :
  exists l, getMyheloActiveRegions page = Returned l.
Proof.
  unfold getMyheloActiveRegions, try_catch.
  destruct (evaluate _ _); eauto.
Qed.

Lemma acquired_steps page options st :
  exists r,
    try_catch (acquireTree page options st) (Returned (emptyText options, st))
      = Returned r /\ rtc step st r.2.
Proof.
  unfold acquireTree, try_catch, bindO.
  destruct (pg_ariaSnapshot _ _) as [ariaTree|]; [|by eexists].
  destruct (truthy ariaTree).
  - eexists. split; [done|]. apply processAriaTree_steps.
  - destruct (o_interactive options); by eexists.
Qed.

Lemma getEnhancedSnapshotForScope_steps page options st :
  exists r,
    getEnhancedSnapshotForScope page options st = Returned r /\ rtc step st r.2.
Proof.
  unfold getEnhancedSnapshotForScope.
  destruct (acquired_steps page options st) as ([t st1] & -> & H1).
  simpl. destruct (o_cursor options); [|by eexists].
  destruct (findCursorInteractiveElements_returns page (o_selector options))
    as [els ->]. simpl.
  pose proof (cursorLoop_steps els st1) as H2.
  destruct (cursorLoop els st1) as [[|l ls] st2]; simpl in *;
    eexists; (split; [done|]); simpl; by etrans.
Qed.

Lemma sectionLoop_steps page options selectors st :
  exists r,
    sectionLoop page options selectors st = Returned r /\ rtc step st r.2.
Proof.
  revert st. induction selectors as [|sel rest IH]; intros st; simpl.
  - by eexists.
  - destruct (getEnhancedSnapshotForScope_steps page
                (withSelector options (Some sel)) st) as ([t st1] & -> & H1).
    simpl. destruct (IH st1) as ([ps st2] & -> & H2). simpl in *.
    destruct (_ || _); eexists; (split; [done|]); simpl; by etrans.
Qed.

Lemma buildMyheloRegionSection_steps page options selectors st :
  exists r,
    buildMyheloRegionSection page options selectors st = Returned r
    /\ rtc step st r.2.
Proof.
  unfold buildMyheloRegionSection.
  destruct (sectionLoop_steps page options selectors st) as ([ps st1] & -> & H).
  simpl. destruct ps; by eexists.
Qed.

Lemma regionLoop_steps page options regions st :
  exists r,
    regionLoop page options regions st = Returned r /\ rtc step st r.2.
Proof.
  revert st. induction regions as [|region rest IH]; intros st; simpl.
  - by eexists.
  - destruct (buildMyheloRegionSection_steps page options
                (rg_selectors region) st) as ([t st1] & -> & H1).
    simpl. destruct (IH st1) as ([ss st2] & -> & H2). simpl in *.
    eexists; (split; [done|]); simpl; by etrans.
Qed.

(** The top-level call returns, and what it returns comes from a state reached
    by [step]s from the initial one, after the final clean-up. *)
Lemma getEnhancedSnapshot_steps page options counter :
  exists text st,
    getEnhancedSnapshot page options counter
      = Returned (mkSnapshot text (refs (removeNthFromNonDuplicates st)),
                  refCounter st)
    /\ rtc step initialState st.
Proof.
  unfold getEnhancedSnapshot.
  change (resetRefs _) with initialState.
  assert (Hwhole : exists text st,
    (let! scoped := getEnhancedSnapshotForScope page options initialState in
     Returned (mkSnapshot scoped.1 (refs (removeNthFromNonDuplicates scoped.2)),
               refCounter (removeNthFromNonDuplicates scoped.2)))
      = Returned (mkSnapshot text (refs (removeNthFromNonDuplicates st)),
                  refCounter st)
    /\ rtc step initialState st).
  { destruct (getEnhancedSnapshotForScope_steps page options initialState)
      as ([t st1] & -> & H1). simpl. by exists t, st1. }
  destruct (negb _); [|exact Hwhole].
  destruct (getMyheloActiveRegions_returns page) as [[|r rs] ->]; simpl;
    [exact Hwhole|].
  destruct (regionLoop_steps page options (r :: rs) initialState)
    as ([ss st1] & E & H1).
  simpl in E. rewrite E. simpl. by eexists _, st1.
Qed.

End Steps.

(** ** C1: the ref ids of a snapshot *)

Section RefIds.

Lemma toString_inj (n m : N) : toString n = toString m -> n = m.
Proof.
  unfold toString. intros H.
  apply (f_equal string_of_list_ascii) in H.
  rewrite !string_of_list_ascii_of_string in H.
  apply (f_equal NilEmpty.uint_of_string) in H.
  rewrite !NilEmpty.usu in H. injection H as H.
  by apply DecimalN.Unsigned.to_uint_inj.
Qed.

Lemma refName_inj (n m : N) : refName n = refName m -> n = m.
Proof. unfold refName. intros [= H]. by apply toString_inj. Qed.

Lemma string_of_uint_digits (d : Decimal.uint) :
  Forall (fun c => isDigit c = true)
    (list_ascii_of_string (NilEmpty.string_of_uint d)).
Proof. induction d; simpl; by constructor. Qed.

Lemma toString_digits (n : N) : Forall (fun c => isDigit c = true) (toString n).
Proof. apply string_of_uint_digits. Qed.

Lemma toString_nonempty (n : N) : toString n <> [].
Proof.
  unfold toString. destruct n as [|p]; [done|].
  simpl. pose proof (DecimalPos.Unsigned.to_uint_nonnil p) as H.
  by destruct (Pos.to_uint p).
Qed.

Lemma refName_matches (n : N) : matchesRefPattern (refName n).
Proof.
  exists (toString n). split; [done|].
  split; [apply toString_nonempty|apply toString_digits].
Qed.

Lemma refIds_succ (c : N) : refIds (c + 1) = refIds c ++ [refName (c + 1)].
Proof.
  unfold refIds. replace (N.to_nat (c + 1)) with (S (N.to_nat c)) by lia.
  rewrite seq_S, map_app. simpl. do 3 f_equal. lia.
Qed.

Lemma refIds_lookup (c : N) i r :
  refIds c !! i = Some r -> r = refName (N.of_nat (S i)).
Proof.
  unfold refIds. rewrite list_lookup_fmap. intros H.
  destruct (seq 1 (N.to_nat c) !! i) as [k|] eqn:E; [|done].
  apply lookup_seq in E as [-> _]. simpl in H. by injection H as <-.
Qed.

Lemma refName_fresh (c : N) : refName (c + 1) ∉ refIds c.
Proof.
  unfold refIds. intros H. apply list_elem_of_fmap in H as (i & E & Hi).
  apply refName_inj in E. apply elem_of_seq in Hi. lia.
Qed.

Lemma refIds_NoDup (c : N) : NoDup (refIds c).
Proof.
  unfold refIds. apply NoDup_fmap_2_strong; [|apply NoDup_seq].
  intros i j _ _ H. apply refName_inj in H. lia.
Qed.

Lemma refsSet_fresh ref entry (m : RefMap) :
  ref ∉ map fst m -> refsSet ref entry m = m ++ [(ref, entry)].
Proof.
  induction m as [|[k v] m IH]; simpl; [done|]. intros H.
  apply not_elem_of_cons in H as [Hk Hm]. unfold strEq.
  rewrite bool_decide_eq_false_2 by done. by rewrite IH.
Qed.

Lemma keysInv_push st entry :
  keysInv st ->
  refsSet (refName (refCounter st + 1)) entry (refs st)
    = refs st ++ [(refName (refCounter st + 1), entry)].
Proof.
  intros H. apply refsSet_fresh. rewrite H. apply refName_fresh.
Qed.

Lemma step_keysInv st st' : step st st' -> keysInv st -> keysInv st'.
Proof.
  intros Hstep H. destruct Hstep as [role name st Hrole|el st].
  - rewrite assignRef_eq. unfold keysInv. cbn [snd refs refCounter].
    rewrite keysInv_push by done.
    by rewrite map_app, H, refIds_succ.
  - unfold cursorStep, nextRef, keysInv. cbn [snd refs refCounter].
    change ("e" ++ toString (refCounter st + 1))
      with (refName (refCounter st + 1)).
    rewrite keysInv_push by done.
    by rewrite map_app, H, refIds_succ.
Qed.

Lemma steps_keysInv st st' : rtc step st st' -> keysInv st -> keysInv st'.
Proof. induction 1; eauto using step_keysInv. Qed.

Lemma removeNth_keys st :
  map fst (refs (removeNthFromNonDuplicates st)) = map fst (refs st).
Proof.
  unfold removeNthFromNonDuplicates. cbn. rewrite map_map.
  apply map_ext. intros [k v]. cbn. by destruct (bool_decide _).
Qed.

(** C1.  Every top-level snapshot returns a ref map whose keys are, in
    insertion order, e1, e2, ..., en for n the number of refs: they are
    pairwise distinct, each is an [e] followed by the digits of a positive
    integer, the numbers increase by one from one entry to the next, and the
    numbering starts from e1 whatever the counter was before the call. *)
Theorem snapshot_ref_ids (page : Page) (options : SnapshotOptions) (counter : N) :
  exists snap counter',
    getEnhancedSnapshot page options counter = Returned (snap, counter')
    /\ map fst (snap_refs snap) = refIds counter'
    /\ NoDup (map fst (snap_refs snap))
    /\ Forall matchesRefPattern (map fst (snap_refs snap))
    /\ (forall i r, map fst (snap_refs snap) !! i = Some r ->
          r = refName (N.of_nat (S i)) /\ parseRef r = Some r).
Proof.
  destruct (getEnhancedSnapshot_steps page options counter)
    as (text & st & -> & Hsteps).
  eexists _, _. split; [done|]. cbn [snap_refs].
  rewrite removeNth_keys.
  assert (H : keysInv st) by (by apply (steps_keysInv initialState)).
  rewrite H. split; [done|]. split; [apply refIds_NoDup|].
  split.
  - unfold refIds. apply Forall_fmap, Forall_forall.
    intros i _. apply refName_matches.
  - intros i r Hi. apply refIds_lookup in Hi as ->. split; [done|].
    by apply parseRef_pattern, refName_matches.
Qed.

End RefIds.

(** ** C3: failures of the collaborators *)

Section Failures.

Lemma legacy_throws_iff page options counter :
  Legacy.getEnhancedSnapshot page options counter = Threw
  <-> pg_ariaSnapshot page (scopeLocator options) = Threw.
Proof.
  unfold Legacy.getEnhancedSnapshot. fold (scopeLocator options).
  destruct (pg_ariaSnapshot page (scopeLocator options)) as [ariaTree|];
    [|done]. cbn [bindO].
  destruct (negb (truthy ariaTree)); [done|].
  destruct (Legacy.processAriaTree _ _ _) as [t st1].
  destruct (o_cursor options); [|done].
  destruct (findCursorInteractiveElements_returns page (o_selector options))
    as [els ->]. cbn [bindO].
  destruct (cursorLoop els st1) as [[|l ls] st2]; done.
Qed.

Lemma fullLoop_cursor lines options cursor st :
  fullLoop lines (withCursor options cursor) st = fullLoop lines options st.
Proof.
  revert st. induction lines as [|line rest IH]; intros st; [done|].
  cbn [fullLoop].
  change (processLine line (withCursor options cursor) st)
    with (processLine line options st).
  destruct (processLine line options st) as [processed st']. by rewrite IH.
Qed.

Lemma processAriaTree_cursor ariaTree options cursor finalizeNth st :
  processAriaTree ariaTree (withCursor options cursor) finalizeNth st
  = processAriaTree ariaTree options finalizeNth st.
Proof.
  unfold processAriaTree, processAriaTreeLines.
  cbn [withCursor o_interactive o_compact]. by rewrite fullLoop_cursor.
Qed.

Lemma acquire_cursor page options cursor st :
  try_catch (acquireTree page (withCursor options cursor) st)
    (Returned (emptyText (withCursor options cursor), st))
  = try_catch (acquireTree page options st) (Returned (emptyText options, st)).
Proof.
  unfold acquireTree, emptyText.
  change (o_selector (withCursor options cursor)) with (o_selector options).
  change (o_interactive (withCursor options cursor)) with (o_interactive options).
  destruct (pg_ariaSnapshot page _) as [ariaTree|]; [|done]. cbn [bindO].
  destruct (truthy ariaTree); [|done]. by rewrite processAriaTree_cursor.
Qed.

(** C3, as the code has it.  In the region-aware module no failure of a
    collaborator leaves the snapshot functions: the top-level call and the
    scope snapshot always return.  A scope whose tree acquisition throws or
    returns the empty string gets no ref from the tree and is rendered as the
    placeholder of the mode; with the cursor option the detector still runs,
    and when it finds elements their lines stand in place of the
    placeholder.  A rejected cursor query gives zero candidates, so that the
    scope is what it is without the cursor option; a rejected region query
    gives zero regions.  The older entry point of [src/snapshot.ts] throws
    exactly when the tree acquisition throws; an empty tree makes it return
    [(empty)] with no ref in every mode, without running the detector; a
    rejected cursor query leaves its result as it is without the cursor
    option. *)
Theorem snapshot_recovers (page : Page) (options : SnapshotOptions) (counter : N) :
  (exists r, getEnhancedSnapshot page options counter = Returned r)
  /\ (forall st, exists r, getEnhancedSnapshotForScope page options st = Returned r)
  /\ (forall st,
        pg_ariaSnapshot page (scopeLocator options) = Threw
        \/ pg_ariaSnapshot page (scopeLocator options) = Returned [] ->
        exists els,
          (if o_cursor options
           then findCursorInteractiveElements page (o_selector options)
                = Returned els
           else els = [])
          /\ getEnhancedSnapshotForScope page options st
             = Returned (match (cursorLoop els st).1 with
                         | [] => emptyText options
                         | l :: ls => join nl (l :: ls)
                         end, (cursorLoop els st).2))
  /\ (forall selector,
        evaluate page (cursorQuery (strOr (default [] selector) "body")) = Threw ->
        findCursorInteractiveElements page selector = Returned [])
  /\ (forall st,
        evaluate page
          (cursorQuery (strOr (default [] (o_selector options)) "body")) = Threw ->
        getEnhancedSnapshotForScope page options st
        = getEnhancedSnapshotForScope page (withCursor options false) st)
  /\ (evaluate page regionsQuery = Threw ->
        getMyheloActiveRegions page = Returned [])
  /\ (Legacy.getEnhancedSnapshot page options counter = Threw
      <-> pg_ariaSnapshot page (scopeLocator options) = Threw)
  /\ (pg_ariaSnapshot page (scopeLocator options) = Returned [] ->
      Legacy.getEnhancedSnapshot page options counter
      = Returned (mkSnapshot textEmpty [], 0%N))
  /\ (evaluate page
        (cursorQuery (strOr (default [] (o_selector options)) "body")) = Threw ->
      Legacy.getEnhancedSnapshot page options counter
      = Legacy.getEnhancedSnapshot page (withCursor options false) counter).
Proof.
  assert (Hempty : forall selector,
    evaluate page (cursorQuery (strOr (default [] selector) "body")) = Threw ->
    findCursorInteractiveElements page selector = Returned []).
  { intros selector H. unfold findCursorInteractiveElements. by rewrite H. }
  split.
  { destruct (getEnhancedSnapshot_steps page options counter)
      as (text & st & -> & _). by eexists. }
  split.
  { intros st.
    destruct (getEnhancedSnapshotForScope_steps page options st) as (r & -> & _).
    by eexists. }
  split.
  { intros st H. unfold getEnhancedSnapshotForScope.
    assert (Ha : try_catch (acquireTree page options st)
                   (Returned (emptyText options, st))
                 = Returned (emptyText options, st)).
    { unfold acquireTree. fold (scopeLocator options).
      destruct H as [-> | ->]; cbn; [done|].
      unfold emptyText. by destruct (o_interactive options). }
    rewrite Ha. cbn [bindO fst snd].
    destruct (o_cursor options); [|by exists []].
    destruct (findCursorInteractiveElements_returns page (o_selector options))
      as [els ->]. cbn [bindO]. exists els. split; [done|].
    assert (Hp : isPlaceholder (emptyText options) = true)
      by (unfold emptyText; by destruct (o_interactive options)).
    rewrite Hp. by destruct (cursorLoop els st) as [[|l ls] st2]. }
  split; [exact Hempty|].
  split.
  { intros st H. unfold getEnhancedSnapshotForScope.
    rewrite acquire_cursor.
    change (o_cursor (withCursor options false)) with false.
    destruct (try_catch _ _) as [[t st1]|]; [|done]. cbn [bindO fst snd].
    destruct (o_cursor options); [|done]. by rewrite (Hempty _ H). }
  split.
  { intros H. unfold getMyheloActiveRegions. by rewrite H. }
  split; [apply legacy_throws_iff|].
  split.
  { intros H. unfold Legacy.getEnhancedSnapshot. fold (scopeLocator options).
    by rewrite H. }
  intros H. unfold Legacy.getEnhancedSnapshot, Legacy.processAriaTree.
  change (o_selector (withCursor options false)) with (o_selector options).
  change (o_cursor (withCursor options false)) with false.
  destruct (pg_ariaSnapshot page _) as [ariaTree|]; [|done]. cbn [bindO].
  destruct (negb (truthy ariaTree)); [done|].
  rewrite processAriaTree_cursor.
  destruct (processAriaTree ariaTree options true _) as [t st1].
  destruct (o_cursor options); [|done]. by rewrite (Hempty _ H).
Qed.


Lemma snapshot_recovers_witness :
  getEnhancedSnapshotForScope brokenPage defaultOptions initialState
    = Returned (textEmpty, initialState)
  /\ findCursorInteractiveElements brokenPage None = Returned []
  /\ getMyheloActiveRegions brokenPage = Returned []
  /\ Legacy.getEnhancedSnapshot emptyPage (mkOptions true true None false None) 0
     = Returned (mkSnapshot textEmpty [], 0%N).
Proof.
  destruct (snapshot_recovers brokenPage defaultOptions 0)
    as (_ & _ & H1 & H2 & _ & H3 & _).
  destruct (snapshot_recovers emptyPage (mkOptions true true None false None) 0)
    as (_ & _ & _ & _ & _ & _ & _ & H4 & _).
  split.
  { destruct (H1 initialState (or_introl eq_refl)) as (els & -> & E). exact E. }
  split; [by apply H2|]. split; [by apply H3|]. by apply H4.
Defined.


(** C3 as stated fails for the entry point of [src/snapshot.ts]: there the
    acquisition is not guarded, and its exception leaves the function. *)
Lemma legacy_snapshot_throws :
  Legacy.getEnhancedSnapshot brokenPage defaultOptions 0 = Threw.
Proof. reflexivity. Qed.

End Failures.

(** ** The parts of a matched line *)

Section LineParts.

Lemma isQuote_eq (c : ascii) : isQuote c = true -> c = chr_quote.
Proof. unfold isQuote. intros H. by apply N.eqb_eq, code_inj in H. Qed.

Lemma matchQuotedName_inv (s name rest : str) :
  matchQuotedName s = Some (name, rest) ->
  exists ws, s = ws ++ chr_quote :: name ++ chr_quote :: rest
    /\ ws <> [] /\ Forall (fun c => isSpace c = true) ws
    /\ Forall (fun c => isQuote c = false) name.
Proof.
  unfold matchQuotedName.
  pose proof (span_eq isSpace s) as Hs.
  pose proof (span_all isSpace s) as Hws.
  destruct (span isSpace s) as [ws r]. cbn [fst snd] in *.
  destruct ws as [|w ws]; [done|]. destruct r as [|q r']; [done|].
  destruct (isQuote q) eqn:Hq; [|done]. apply isQuote_eq in Hq as ->.
  pose proof (span_eq (fun c => negb (isQuote c)) r') as Hr.
  pose proof (span_all (fun c => negb (isQuote c)) r') as Hn.
  pose proof (span_stop (fun c => negb (isQuote c)) r') as Hstop.
  destruct (span _ r') as [n r'']. cbn [fst snd] in *.
  destruct r'' as [|q2 rest']; [done|]. intros [= -> ->].
  specialize (Hstop _ _ eq_refl). apply negb_false_iff, isQuote_eq in Hstop as ->.
  exists (w :: ws). split; [by rewrite Hs, Hr|]. split; [done|]. split; [done|].
  eapply Forall_impl; [exact Hn|]. intros c Hc. by apply negb_true_iff in Hc.
Qed.

(** A matched line is its prefix, its role, the quoted name when there is
    one, and its suffix. *)
Lemma lineMatch_inv (line : str) (m : LineMatch) :
  lineMatch line = Some m ->
  exists ws1 dash ws2 mid,
    line = ws1 ++ dash :: ws2 ++ lm_role m ++ mid ++ lm_suffix m
    /\ lm_prefix m = ws1 ++ dash :: ws2
    /\ Forall (fun c => isSpace c = true) ws1
    /\ code dash = 45%N
    /\ Forall (fun c => isSpace c = true) ws2
    /\ Forall (fun c => isWord c = true) (lm_role m)
    /\ lm_role m <> []
    /\ noTerminator (lm_suffix m) = true
    /\ match lm_name m with
       | None => mid = []
       | Some n =>
           exists ws3, mid = ws3 ++ chr_quote :: n ++ [chr_quote]
             /\ ws3 <> [] /\ Forall (fun c => isSpace c = true) ws3
             /\ Forall (fun c => isQuote c = false) n
       end.
Proof.
  rewrite lineMatch_parseLine. unfold parseLine.
  pose proof (span_eq isSpace line) as H1.
  pose proof (span_all isSpace line) as Hws1.
  destruct (span isSpace line) as [ws1 r1]. cbn [fst snd] in *.
  destruct r1 as [|dash r1']; [done|].
  destruct (code dash =? 45)%N eqn:Hdash; [|done]. apply N.eqb_eq in Hdash.
  pose proof (span_eq isSpace r1') as H2.
  pose proof (span_all isSpace r1') as Hws2.
  destruct (span isSpace r1') as [ws2 r2]. cbn [fst snd] in *.
  pose proof (span_eq isWord r2) as H3.
  pose proof (span_all isWord r2) as Hrole.
  destruct (span isWord r2) as [role r3]. cbn [fst snd] in *.
  destruct (truthy role) eqn:Ht; [|done].
  assert (Hne : role <> []) by (by destruct role).
  assert (Hplain : (if noTerminator r3
                    then Some (mkMatch (ws1 ++ dash :: ws2) role None r3)
                    else None) = Some m ->
    exists ws1' dash' ws2' mid,
      line = ws1' ++ dash' :: ws2' ++ lm_role m ++ mid ++ lm_suffix m
      /\ lm_prefix m = ws1' ++ dash' :: ws2'
      /\ Forall (fun c => isSpace c = true) ws1'
      /\ code dash' = 45%N
      /\ Forall (fun c => isSpace c = true) ws2'
      /\ Forall (fun c => isWord c = true) (lm_role m)
      /\ lm_role m <> []
      /\ noTerminator (lm_suffix m) = true
      /\ match lm_name m with
         | None => mid = []
         | Some n =>
             exists ws3, mid = ws3 ++ chr_quote :: n ++ [chr_quote]
               /\ ws3 <> [] /\ Forall (fun c => isSpace c = true) ws3
               /\ Forall (fun c => isQuote c = false) n
         end).
  { destruct (noTerminator r3) eqn:Hterm; [|done]. intros [= <-].
    exists ws1, dash, ws2, []. cbn. rewrite H1, H2, H3.
    repeat (split; [done|]). done. }
  destruct (matchQuotedName r3) as [[name rest]|] eqn:Hq; [|exact Hplain].
  destruct (noTerminator rest) eqn:Hterm; [|exact Hplain].
  intros [= <-]. apply matchQuotedName_inv in Hq as (ws3 & Hr3 & ? & ? & ?).
  exists ws1, dash, ws2, (ws3 ++ chr_quote :: name ++ [chr_quote]). cbn.
  split.
  - rewrite H1, H2, H3, Hr3. do 3 f_equal.
    by rewrite <- !app_assoc, <- app_comm_cons, <- app_assoc.
  - repeat (split; [done|]). by exists ws3.
Qed.

Lemma isSpace_dash (c : ascii) : code c = 45%N -> isSpace c = false.
Proof. unfold isSpace. by intros ->. Qed.

Lemma lineMatch_indent (line : str) (m : LineMatch) (x : str) :
  lineMatch line = Some m ->
  getIndentLevel (lm_prefix m ++ x) = getIndentLevel line.
Proof.
  intros H. apply lineMatch_inv in H
    as (ws1 & dash & ws2 & mid & -> & -> & Hws1 & Hdash & _).
  rewrite !getIndentLevel_span. rewrite <- app_assoc. cbn [app].
  rewrite !span_app; [done| | | |]; try done; by apply isSpace_dash.
Qed.

Lemma toString_noNewline (n : N) : noNewline (toString n).
Proof.
  eapply Forall_impl; [apply toString_digits|].
  intros c Hc ->. done.
Qed.

Lemma noNewline_app (a b : str) : noNewline (a ++ b) <-> noNewline a /\ noNewline b.
Proof. apply Forall_app. Qed.

Lemma annotation_noNewline name ref nth :
  (forall n, name = Some n -> noNewline n) -> noNewline ref ->
  noNewline (annotation name ref nth).
Proof.
  intros Hn Hr. unfold annotation, quoted.
  repeat (apply noNewline_app; split); try done.
  - destruct name as [n|]; cbn; [|constructor].
    destruct (truthy n); [|constructor].
    repeat (first [apply noNewline_app; split | constructor]); try done.
    by apply Hn.
  - repeat constructor; done.
  - repeat constructor; done.
  - destruct (0 <? nth)%N; [|constructor].
    repeat (apply noNewline_app; split); try (repeat constructor; done).
    apply toString_noNewline.
Qed.

Lemma refName_noNewline (n : N) : noNewline (refName n).
Proof. constructor; [done|apply toString_noNewline]. Qed.

Lemma lineMatch_noNewline (line : str) (m : LineMatch) :
  lineMatch line = Some m -> noNewline line ->
  noNewline (lm_prefix m) /\ noNewline (lm_role m)
  /\ (forall n, lm_name m = Some n -> noNewline n) /\ noNewline (lm_suffix m).
Proof.
  intros H Hl. apply lineMatch_inv in H
    as (ws1 & dash & ws2 & mid & -> & -> & _ & _ & _ & _ & _ & _ & Hname).
  unfold noNewline in *.
  rewrite !Forall_app, !Forall_cons, !Forall_app in Hl.
  destruct Hl as (? & ? & ? & ? & Hmid & ?).
  split; [rewrite Forall_app, Forall_cons; done|]. split; [done|].
  split; [|done]. intros n Hn. rewrite Hn in Hname.
  destruct Hname as (ws3 & -> & _).
  rewrite Forall_app, Forall_cons, Forall_app in Hmid. tauto.
Qed.

Lemma render_noNewline line m n :
  lineMatch line = Some m -> noNewline line ->
  forall nth, noNewline (render m (refName n) nth).
Proof.
  intros H Hl nth. destruct (lineMatch_noNewline _ _ H Hl) as (? & ? & ? & ?).
  unfold render.
  apply noNewline_app; split; [done|].
  apply noNewline_app; split; [done|].
  apply noNewline_app; split.
  - apply annotation_noNewline; [done|apply refName_noNewline].
  - destruct (truthy _); [done|constructor].
Qed.

Lemma render_hasRef m ref nth : includes "[ref=" (render m ref nth) = true.
Proof.
  unfold render, annotation.
  do 2 apply includes_app_r. apply includes_app_l.
  apply includes_app_r. apply includes_spec. exists " ", (ref ++ "]" ++ (if (0 <? nth)%N then " [nth=" ++ toString nth ++ "]" else [])).
  reflexivity.
Qed.

Lemma render_indent line m ref nth :
  lineMatch line = Some m ->
  getIndentLevel (render m ref nth) = getIndentLevel line.
Proof. intros H. unfold render. by apply lineMatch_indent. Qed.

Lemma noTerminator_app (a b : str) :
  noTerminator (a ++ b) = noTerminator a && noTerminator b.
Proof. unfold noTerminator. apply forallb_app. Qed.

Lemma parseLine_parts (ws1 ws2 role rest : str) (dash : ascii) :
  Forall (fun c => isSpace c = true) ws1 -> code dash = 45%N ->
  Forall (fun c => isSpace c = true) ws2 ->
  Forall (fun c => isWord c = true) role -> role <> [] ->
  match rest with [] => True | c :: _ => isWord c = false end ->
  parseLine (ws1 ++ dash :: ws2 ++ role ++ rest)
  = let plain :=
      if noTerminator rest
      then Some (mkMatch (ws1 ++ dash :: ws2) role None rest) else None in
    match matchQuotedName rest with
    | Some (name, rest') =>
        if noTerminator rest'
        then Some (mkMatch (ws1 ++ dash :: ws2) role (Some name) rest')
        else plain
    | None => plain
    end.
Proof.
  intros H1 Hdash H2 Hrole Hne Hrest. unfold parseLine.
  rewrite (span_app isSpace ws1 (dash :: ws2 ++ role ++ rest));
    [|done|by apply isSpace_dash].
  rewrite Hdash. cbn [N.eqb Pos.eqb].
  destruct role as [|w role]; [done|].
  apply Forall_cons in Hrole as [Hw Hrole].
  rewrite (span_app isSpace ws2 ((w :: role) ++ rest));
    [|done|by apply isWord_isSpace].
  rewrite (span_app isWord (w :: role) rest); [done| |done].
  by constructor.
Qed.

Lemma matchQuotedName_quoted (n rest : str) :
  Forall (fun c => isQuote c = false) n ->
  matchQuotedName (" " ++ chr_quote :: n ++ chr_quote :: rest) = Some (n, rest).
Proof.
  intros Hn. unfold matchQuotedName.
  rewrite (span_app isSpace " " (chr_quote :: n ++ chr_quote :: rest));
    [|by repeat constructor|done].
  cbn [list_ascii_of_string]. change (isQuote chr_quote) with true. cbv iota.
  rewrite (span_app (fun c => negb (isQuote c)) n (chr_quote :: rest)); [done| |done].
  eapply Forall_impl; [exact Hn|]. intros c Hc. by rewrite Hc.
Qed.

Lemma toString_noTerminator (n : N) : noTerminator (toString n) = true.
Proof.
  apply forallb_all. eapply Forall_impl; [apply toString_digits|].
  intros c Hc. destruct c as [[] [] [] [] [] [] [] []]; done.
Qed.

(** The line of the normal mode for an entry is read back by the line
    pattern with the role of the entry. *)
Lemma render_role line m n nth :
  lineMatch line = Some m ->
  exists m', lineMatch (render m (refName n) nth) = Some m'
    /\ lm_role m' = lm_role m.
Proof.
  intros Hm.
  destruct (lineMatch_inv line m Hm)
    as (ws1 & dash & ws2 & mid & _ & Hprefix & H1 & Hdash & H2 & Hrole & Hne
        & Hsuffix & Hname).
  assert (Htail : noTerminator
            (" [ref=" ++ refName n ++ "]"
               ++ (if (0 <? nth)%N then " [nth=" ++ toString nth ++ "]" else [])
               ++ lm_suffix m) = true).
  { rewrite !noTerminator_app. unfold refName. rewrite !noTerminator_app.
    rewrite toString_noTerminator, Hsuffix.
    destruct (0 <? nth)%N; [|done].
    by rewrite !noTerminator_app, toString_noTerminator. }
  rewrite lineMatch_parseLine. unfold render, annotation.
  replace (if truthy (lm_suffix m) then lm_suffix m else []) with (lm_suffix m)
    by (by destruct (lm_suffix m)).
  rewrite Hprefix, <- !app_assoc. cbn [app].
  destruct (truthyOpt (lm_name m)) eqn:Ht.
  - destruct (lm_name m) as [name|]; [|done]. cbn [default].
    destruct Hname as (ws3 & _ & _ & _ & Hq).
    unfold quoted. rewrite <- !app_assoc. cbn [app]. rewrite <- !app_assoc.
    cbn [app].
    rewrite parseLine_parts by done. cbv zeta.
    rewrite (matchQuotedName_quoted name) by done.
    rewrite Htail. by eexists.
  - cbn [app]. rewrite parseLine_parts by done. cbv zeta.
    rewrite Htail.
    destruct (matchQuotedName _) as [[name rest']|]; [|by eexists].
    destruct (noTerminator rest'); by eexists.
Qed.

Lemma render_hasInteractiveRole line m n nth :
  lineMatch line = Some m ->
  hasInteractiveRole (render m (refName n) nth)
  = memStr (toLowerCase (lm_role m)) INTERACTIVE_ROLES.
Proof.
  intros Hm. destruct (render_role line m n nth Hm) as (m' & E & Hr).
  unfold hasInteractiveRole. by rewrite E, Hr.
Qed.

Lemma fullLoop_noNewline lines options st :
  Forall noNewline lines -> Forall noNewline (fullLoop lines options st).1.
Proof.
  intros H. revert st. induction H as [|line rest Hl Hrest IH]; intros st;
    [constructor|].
  cbn [fullLoop]. rewrite processLine_classify.
  destruct (classify line options) as [| |m] eqn:E.
  - specialize (IH st). by destruct (fullLoop rest options st).
  - specialize (IH st). destruct (fullLoop rest options st). by constructor.
  - apply classify_annotated in E as (Hm & _).
    rewrite assignRef_eq. cbv beta iota zeta.
    match goal with |- context [fullLoop rest options ?s] =>
      specialize (IH s); destruct (fullLoop rest options s) end.
    constructor; [|done]. by eapply render_noNewline.
Qed.

Lemma interactiveLoop_lines lines st :
  Forall (fun l => startsWith "- " l = true) (interactiveLoop lines st).1.
Proof.
  revert st. induction lines as [|line rest IH]; intros st; [constructor|].
  cbn [interactiveLoop].
  destruct (lineMatch line) as [m|]; [|apply IH].
  destruct (memStr _ _); [|apply IH].
  destruct (assignRef _ _ st) as [[ref nth] st'].
  specialize (IH st'). destruct (interactiveLoop rest st').
  by constructor.
Qed.

Lemma interactiveLoop_noNewline lines st :
  Forall noNewline lines -> Forall noNewline (interactiveLoop lines st).1.
Proof.
  intros H. revert st. induction H as [|line rest Hl Hrest IH]; intros st;
    [constructor|].
  cbn [interactiveLoop].
  destruct (lineMatch line) as [m|] eqn:Hm; [|apply IH].
  destruct (memStr _ _); [|apply IH].
  rewrite assignRef_eq. cbv beta iota zeta.
  match goal with |- context [interactiveLoop rest ?s] =>
    specialize (IH s); destruct (interactiveLoop rest s) end.
  constructor; [|done].
  destruct (lineMatch_noNewline _ _ Hm Hl) as (_ & Hrole & Hname & Hsuffix).
  apply noNewline_app; split; [by repeat constructor|].
  apply noNewline_app; split; [done|].
  apply noNewline_app; split.
  - apply annotation_noNewline; [done|apply refName_noNewline].
  - destruct (_ && _); [done|constructor].
Qed.

End LineParts.

(** ** C5: plain lines and metadata lines *)

Section PlainLines.

Lemma metadata_no_match (line : str) :
  isMetadataLine line = true -> lineMatch line = None.
Proof.
  rewrite lineMatch_parseLine. unfold isMetadataLine, parseLine.
  destruct (span isSpace line) as [ws1 r1]. cbn [snd].
  destruct r1 as [|c r]; [done|].
  destruct (code c =? 45)%N eqn:Hdash.
  - unfold isSlash at 1. apply N.eqb_eq in Hdash. rewrite Hdash. cbn [orb andb N.eqb Pos.eqb].
    destruct (span isSpace r) as [ws2 r2]. cbn [snd].
    destruct r2 as [|c' r2]; [done|]. intros Hs.
    cbn [span]. replace (isWord c') with false; [done|].
    unfold isSlash in Hs. apply N.eqb_eq in Hs.
    unfold isWord, isDigit. by rewrite Hs.
  - done.
Qed.

Lemma unknownRole_verbatim line options :
  unknownRole line -> o_interactive options = false ->
  tooDeep options (getIndentLevel line) = false ->
  classify line options = Verbatim.
Proof.
  intros (m & Hm & Hi & Hc & Hs) Hint Hdeep.
  apply memStr_false in Hi, Hc, Hs.
  unfold classify, shouldHaveRef. rewrite Hdeep, Hm, Hint, Hi, Hc, Hs.
  destruct (startsWith _ (lm_role m)); [done|]. cbn.
  by rewrite andb_false_r.
Qed.

Lemma metadata_verbatim line options :
  isMetadataLine line = true -> o_interactive options = false ->
  tooDeep options (getIndentLevel line) = false ->
  classify line options = Verbatim.
Proof.
  intros Hm Hint Hdeep. unfold classify.
  by rewrite Hdeep, (metadata_no_match _ Hm), Hint.
Qed.

Lemma fullLoop_verbatim_kept line lines options st :
  line ∈ lines -> classify line options = Verbatim ->
  line ∈ (fullLoop lines options st).1.
Proof.
  intros Hin Hv. revert st.
  induction lines as [|l rest IH]; intros st; [by apply elem_of_nil in Hin|].
  cbn [fullLoop]. rewrite processLine_classify.
  apply elem_of_cons in Hin as [<- | Hin].
  - rewrite Hv. destruct (fullLoop rest options st). cbn. by left.
  - specialize (IH Hin).
    destruct (classify l options) as [| |m].
    + specialize (IH st). by destruct (fullLoop rest options st).
    + specialize (IH st). destruct (fullLoop rest options st). cbn in *.
      by right.
    + destruct (assignRef _ _ st) as [[ref nth] st'].
      specialize (IH st'). destruct (fullLoop rest options st'). cbn in *.
      by right.
Qed.

(** C5, as the code has it.  Outside the interactive mode and within the
    depth limit, a line whose role is in none of the three sets, and a
    metadata line, are returned by [processLine] as they are, with no ref and
    no change of the state; without the compact pass they are lines of the
    output text.  Outside the interactive mode a line deeper than [maxDepth]
    is dropped whatever it is: [processLine] returns nothing, the state is
    unchanged and the loop goes on as if the line were not there.  In the
    interactive mode [processAriaTree] skips the plain and the metadata lines
    without output or change of the state, and it does not read [maxDepth]:
    its result is the same for every depth limit. *)
Theorem plain_lines_kept (line : str) (options : SnapshotOptions) (st : St) :
  (unknownRole line \/ isMetadataLine line = true ->
   o_interactive options = false ->
   tooDeep options (getIndentLevel line) = false ->
   processLine line options st = (Some line, st)
   /\ (forall ariaTree finalizeNth,
         o_compact options = false -> line ∈ split ariaTree ->
         line ∈ split (processAriaTree ariaTree options finalizeNth st).1))
  /\ (o_interactive options = false ->
      tooDeep options (getIndentLevel line) = true ->
      processLine line options st = (None, st)
      /\ forall rest, fullLoop (line :: rest) options st = fullLoop rest options st)
  /\ (unknownRole line \/ isMetadataLine line = true ->
      forall rest, interactiveLoop (line :: rest) st = interactiveLoop rest st)
  /\ (o_interactive options = true ->
      forall ariaTree finalizeNth maxDepth,
        processAriaTree ariaTree (withMaxDepth options maxDepth) finalizeNth st
        = processAriaTree ariaTree options finalizeNth st).
Proof.
  split; [|split; [|split]].
  - intros Hline Hint Hdeep.
    assert (Hv : classify line options = Verbatim).
    { destruct Hline; [by apply unknownRole_verbatim|by apply metadata_verbatim]. }
    split; [by rewrite processLine_classify, Hv|].
    intros ariaTree fin Hcompact Hin.
    rewrite processAriaTree_eq. cbv zeta. rewrite Hint, Hcompact.
    pose proof (fullLoop_verbatim_kept line (split ariaTree) options st Hin Hv)
      as Hkept.
    pose proof (fullLoop_noNewline (split ariaTree) options st
                  (split_noNewline ariaTree)) as Hnl.
    destruct (fullLoop _ _ _) as [result st']. cbn [fst] in *.
    rewrite split_join; [done| |done]. intros ->. by apply elem_of_nil in Hkept.
  - intros Hint Hdeep.
    assert (Hp : processLine line options st = (None, st))
      by (unfold processLine; by rewrite Hdeep).
    split; [done|]. intros rest. cbn [fullLoop]. rewrite Hp.
    by destruct (fullLoop rest options st).
  - intros Hline rest. cbn [interactiveLoop].
    destruct Hline as [(m & -> & Hi & _)|Hm].
    + apply memStr_false in Hi. by rewrite Hi.
    + by rewrite (metadata_no_match _ Hm).
  - intros Hint ariaTree fin maxDepth.
    unfold processAriaTree, processAriaTreeLines.
    cbn [withMaxDepth o_interactive]. by rewrite Hint.
Qed.


Lemma plain_lines_kept_witness :
  processLine "  - /url: /home" defaultOptions initialState
    = (Some ("  - /url: /home" : str), initialState)
  /\ processLine "- paragraph: text" defaultOptions initialState
    = (Some ("- paragraph: text" : str), initialState)
  /\ processLine "  - /url: /home" (mkOptions false false (Some 0%Z) false None)
       initialState
     = (None, initialState)
  /\ interactiveLoop ["  - /url: /home" : str] initialState
     = interactiveLoop [] initialState
  /\ processAriaTree ("- list" ++ nl ++ "  - button")
       (withMaxDepth (mkOptions true false None false None) (Some 0%Z)) false
       initialState
     = processAriaTree ("- list" ++ nl ++ "  - button")
         (mkOptions true false None false None) false initialState.
Proof.
  split.
  { apply (plain_lines_kept "  - /url: /home" defaultOptions initialState);
      [by right|done|done]. }
  split.
  { apply (plain_lines_kept "- paragraph: text" defaultOptions initialState);
      [|done|done].
    left. eexists. split; [reflexivity|]. cbn.
    repeat split; apply memStr_false_inv; reflexivity. }
  split.
  { apply (plain_lines_kept "  - /url: /home"
             (mkOptions false false (Some 0%Z) false None) initialState);
      reflexivity. }
  split.
  { apply (plain_lines_kept "  - /url: /home" defaultOptions initialState).
    by right. }
  apply (plain_lines_kept [] (mkOptions true false None false None)
           initialState).
  reflexivity.
Defined.


(** C5 as stated fails: in the interactive mode the metadata line under a
    link is not passed through, and neither is a line with a role outside the
    three sets; a depth limit drops a deeper metadata line in the normal mode
    as well. *)
Lemma metadata_line_dropped :
  (processAriaTree ("- link" ++ quoted "Home" ++ ":" ++ nl ++ "  - /url: /home")
     (mkOptions true false None false None) true initialState).1
    = "- link" ++ quoted "Home" ++ " [ref=e1]"
  /\ processLine "  - /url: /home" (mkOptions true false None false None)
       initialState
     = (None, initialState)
  /\ processLine "  - /url: /home" (mkOptions false false (Some 0%Z) false None)
       initialState
     = (None, initialState)
  /\ (processAriaTree "- paragraph: text" (mkOptions true false None false None)
        true initialState).1
     = textNoInteractive.
Proof. vm_compute. repeat split. Qed.

End PlainLines.

(** ** C7: the compact mode only removes lines *)

Section Compact.

Lemma structural_disjoint (r : str) :
  memStr r STRUCTURAL_ROLES = true ->
  memStr r INTERACTIVE_ROLES = false /\ memStr r CONTENT_ROLES = false.
Proof.
  intros H. apply memStr_true in H. unfold STRUCTURAL_ROLES, strs in H.
  cbn [map] in H.
  repeat (apply elem_of_cons in H as [->|H]; [by split|]).
  by apply elem_of_nil in H.
Qed.

Lemma classify_compact line options :
  classify line (withCompact options true) = classify line (withCompact options false)
  \/ (classify line (withCompact options true) = Dropped
      /\ classify line (withCompact options false) = Verbatim).
Proof.
  unfold classify, tooDeep, withCompact. cbn [o_maxDepth o_interactive o_compact].
  destruct (match o_maxDepth options with Some d => _ | None => false end);
    [by left|].
  destruct (lineMatch line) as [m|]; [|by left].
  destruct (startsWith _ _); [by left|].
  destruct (o_interactive options && _); [by left|].
  cbn [andb].
  destruct (memStr (toLowerCase (lm_role m)) STRUCTURAL_ROLES) eqn:Hs; [|by left].
  destruct (negb (truthyOpt (lm_name m))); [|by left].
  right. split; [done|]. apply structural_disjoint in Hs as [Hi Hc].
  unfold shouldHaveRef. by rewrite Hi, Hc.
Qed.

Lemma fullLoop_compact lines options st :
  (fullLoop lines (withCompact options true) st).2
    = (fullLoop lines (withCompact options false) st).2
  /\ sublist (fullLoop lines (withCompact options true) st).1
             (fullLoop lines (withCompact options false) st).1.
Proof.
  revert st. induction lines as [|line rest IH]; intros st; [done|].
  cbn [fullLoop]. rewrite !processLine_classify.
  destruct (classify_compact line options) as [-> | [-> ->]].
  - destruct (classify line (withCompact options false)) as [| |m].
    + destruct (IH st) as [IH1 IH2]. by do 2 destruct (fullLoop rest _ st).
    + destruct (IH st) as [IH1 IH2]. do 2 destruct (fullLoop rest _ st).
      cbn in *. split; [done|]. by apply sublist_skip.
    + destruct (assignRef _ _ st) as [[ref nth] st'].
      destruct (IH st') as [IH1 IH2]. do 2 destruct (fullLoop rest _ st').
      cbn in *. split; [done|]. by apply sublist_skip.
  - destruct (IH st) as [IH1 IH2]. do 2 destruct (fullLoop rest _ st).
    cbn in *. split; [done|]. by apply sublist_cons.
Qed.

Lemma compactLines_sublist (lines : list str) : sublist (compactLines lines) lines.
Proof.
  induction lines as [|l rest IH]; [done|]. cbn [compactLines].
  destruct (includes _ l); [by apply sublist_skip|].
  destruct (_ && _); [by apply sublist_skip|].
  destruct (hasRelevantChildren _ _); [by apply sublist_skip|by apply sublist_cons].
Qed.

Lemma split_join_length (lines : list str) :
  Forall noNewline lines -> length (split (join nl lines)) = max 1 (length lines).
Proof.
  intros H. destruct lines as [|l ls]; [done|].
  rewrite split_join by done. cbn. lia.
Qed.

Lemma Forall_sublist {A} (P : A -> Prop) (l1 l2 : list A) :
  sublist l1 l2 -> Forall P l2 -> Forall P l1.
Proof.
  induction 1 as [|x l1 l2 Hs IH|x l1 l2 Hs IH]; intros HP; [done| |];
    inversion HP; subst; auto.
Qed.

(** The lines of the normal mode after the compact pass are among the lines
    of the loop. *)
Lemma compact_pass_sublist (result : list str) :
  Forall noNewline result ->
  sublist (compactLines (split (join nl result))) result.
Proof.
  intros H. destruct result as [|l ls]; [by vm_compute|].
  rewrite split_join by done. apply compactLines_sublist.
Qed.

Lemma compactLines_noNewline (lines : list str) :
  Forall noNewline lines -> Forall noNewline (compactLines lines).
Proof. apply Forall_sublist, compactLines_sublist. Qed.

(** The lines of [compactTree tree], read back. *)
Lemma split_compactTree (tree : str) :
  split (compactTree tree)
  = match compactLines (split tree) with
    | [] => [[]]
    | l :: ls => l :: ls
    end.
Proof.
  unfold compactTree.
  pose proof (compactLines_noNewline _ (split_noNewline tree)) as Hn.
  destruct (compactLines (split tree)) as [|l ls] eqn:E; [done|].
  by apply split_join.
Qed.


Lemma processAriaTreeLines_noNewline ariaTree options finalizeNth st :
  o_interactive options = false ->
  Forall noNewline (processAriaTreeLines ariaTree options finalizeNth st).1.
Proof.
  intros Hi. unfold processAriaTreeLines. rewrite Hi.
  pose proof (fullLoop_noNewline (split ariaTree) options st
                (split_noNewline ariaTree)) as Hnl.
  destruct (fullLoop _ _ _) as [r s]. cbn [fst] in *.
  destruct (o_compact options); [|done].
  eapply Forall_sublist; [by apply compact_pass_sublist|done].
Qed.

Lemma processAriaTree_compact_state ariaTree options finalizeNth st :
  (processAriaTree ariaTree (withCompact options true) finalizeNth st).2
  = (processAriaTree ariaTree (withCompact options false) finalizeNth st).2.
Proof.
  unfold processAriaTree, processAriaTreeLines.
  cbn [withCompact o_interactive o_compact].
  destruct (o_interactive options).
  - by destruct (interactiveLoop _ st).
  - pose proof (fullLoop_compact (split ariaTree) options st) as [H _].
    destruct (fullLoop _ (withCompact options true) st) as [r1 s1].
    destruct (fullLoop _ (withCompact options false) st) as [r2 s2].
    cbn [fst snd] in *. by subst.
Qed.














End Compact.

(** ** C6: a larger depth limit keeps at least as many lines *)

Section Depth.

Lemma masked_length d l1 l2 : masked d l1 l2 -> length l1 <= length l2.
Proof. induction 1; cbn; lia. Qed.

Lemma hasRelevantChildren_masked d l1 l2 cur :
  masked d l1 l2 -> (Z.of_nat cur <= d)%Z ->
  hasRelevantChildren cur l1 = true -> hasRelevantChildren cur l2 = true.
Proof.
  intros H Hcur. induction H as [|x l1 l2 H IH Hx|x1 x2 l1 l2 H IH Hs Hx];
    cbn [hasRelevantChildren]; [done| |].
  - intros H1. rewrite (proj2 (Nat.leb_gt _ _)) by lia.
    destruct (includes _ x); [done|]. by apply IH.
  - destruct Hs as (<- & <- & _).
    destruct (getIndentLevel x1 <=? cur); [done|].
    destruct (includes _ x1); [done|]. exact IH.
Qed.

Lemma compactLines_masked d l1 l2 :
  masked d l1 l2 -> length (compactLines l1) <= length (compactLines l2).
Proof.
  induction 1 as [|x l1 l2 H IH Hx|x1 x2 l1 l2 H IH Hs Hx];
    cbn [compactLines]; [done| |].
  - destruct (includes _ x); [cbn; lia|].
    destruct (_ && _); [cbn; lia|].
    destruct (hasRelevantChildren _ _); cbn; lia.
  - destruct Hs as (Hind & Href & Hsame).
    destruct (includes "[ref=" x1) eqn:E1; rewrite <- Href; [cbn; lia|].
    rewrite <- (Hsame eq_refl).
    destruct (_ && _); [cbn; lia|].
    destruct (hasRelevantChildren (getIndentLevel x1) l1) eqn:E2.
    + rewrite (hasRelevantChildren_masked d l1 l2 _ H Hx E2). cbn. lia.
    + destruct (hasRelevantChildren _ l2); cbn; lia.
Qed.

Lemma sameShape_refl (a : str) : sameShape a a.
Proof. done. Qed.

Lemma classify_maxDepth_kept line options d1 d2 :
  tooDeep (withMaxDepth options d1) (getIndentLevel line) = false ->
  depthLe d1 d2 ->
  classify line (withMaxDepth options d1) = classify line (withMaxDepth options d2).
Proof.
  unfold classify, tooDeep, withMaxDepth, depthLe.
  cbn [o_maxDepth o_interactive o_compact].
  destruct d1 as [x|], d2 as [y|]; try done.
  - intros H1 Hle. rewrite H1.
    by rewrite (proj2 (Z.ltb_ge _ _)) by (apply Z.ltb_ge in H1; lia).
  - by intros ->.
Qed.

(** The output of a kept line is indented as the line. *)
Lemma kept_indent line options st l :
  (processLine line options st).1 = Some l ->
  getIndentLevel l = getIndentLevel line.
Proof.
  rewrite processLine_classify.
  destruct (classify line options) as [| |m] eqn:E; [done| |].
  - by intros [= <-].
  - apply classify_annotated in E as (Hm & _).
    destruct (assignRef _ _ st) as [[ref nth] st']. cbn. intros [= <-].
    by apply render_indent.
Qed.

Lemma fullLoop_masked lines options d d2 st1 st2 :
  depthLe (Some d) d2 ->
  masked d (fullLoop lines (withMaxDepth options (Some d)) st1).1
           (fullLoop lines (withMaxDepth options d2) st2).1.
Proof.
  intros Hle. revert st1 st2.
  induction lines as [|line rest IH]; intros st1 st2; [constructor|].
  cbn [fullLoop].
  destruct (tooDeep (withMaxDepth options (Some d)) (getIndentLevel line)) eqn:Hdeep.
  - (* dropped by the smaller limit *)
    assert (processLine line (withMaxDepth options (Some d)) st1 = (None, st1)) as ->
      by (unfold processLine; by rewrite Hdeep).
    pose proof (kept_indent line (withMaxDepth options d2) st2) as Hind.
    destruct (processLine line (withMaxDepth options d2) st2) as [[l|] st2'].
    + specialize (IH st1 st2').
      destruct (fullLoop rest _ st1), (fullLoop rest _ st2'). cbn [fst] in *.
      apply masked_extra; [done|]. rewrite (Hind l eq_refl).
      unfold tooDeep in Hdeep. cbn in Hdeep. by apply Z.ltb_lt in Hdeep.
    + specialize (IH st1 st2').
      by destruct (fullLoop rest _ st1), (fullLoop rest _ st2').
  - rewrite !processLine_classify.
    rewrite <- (classify_maxDepth_kept line options (Some d) d2 Hdeep Hle).
    assert (Hd : (Z.of_nat (getIndentLevel line) <= d)%Z).
    { unfold tooDeep in Hdeep. cbn in Hdeep. by apply Z.ltb_ge in Hdeep. }
    destruct (classify line (withMaxDepth options (Some d))) as [| |m] eqn:E.
    + specialize (IH st1 st2).
      by destruct (fullLoop rest _ st1), (fullLoop rest _ st2).
    + specialize (IH st1 st2).
      destruct (fullLoop rest _ st1), (fullLoop rest _ st2). cbn [fst] in *.
      apply masked_both; [done|apply sameShape_refl|done].
    + apply classify_annotated in E as (Hm & _).
      destruct (assignRef _ _ st1) as [[ref1 nth1] st1'].
      destruct (assignRef _ _ st2) as [[ref2 nth2] st2'].
      specialize (IH st1' st2').
      destruct (fullLoop rest _ st1'), (fullLoop rest _ st2'). cbn [fst] in *.
      apply masked_both; [done| |by rewrite (render_indent line)].
      split; [by rewrite !(render_indent line)|].
      split; [by rewrite !render_hasRef|]. by rewrite render_hasRef.
Qed.

Lemma masked_noNewline_split d l1 l2 :
  Forall noNewline l1 -> Forall noNewline l2 -> masked d l1 l2 ->
  masked d (split (join nl l1)) (split (join nl l2))
  \/ (l1 = [] /\ length (compactLines (split (join nl l1))) = 0).
Proof.
  intros H1 H2 H. destruct l1 as [|x l1]; [by right|]. left.
  rewrite (split_join (x :: l1)) by done.
  destruct l2 as [|y l2]; [inversion H|]. by rewrite split_join.
Qed.

Lemma processAriaTreeLines_depth ariaTree options d1 d2 finalizeNth st :
  depthLe d1 d2 ->
  length (processAriaTreeLines ariaTree (withMaxDepth options d1) finalizeNth st).1
    <= length (processAriaTreeLines ariaTree (withMaxDepth options d2) finalizeNth st).1.
Proof.
  intros Hle. unfold processAriaTreeLines.
  cbn [withMaxDepth o_interactive o_compact].
  destruct (o_interactive options); [by destruct (interactiveLoop _ _)|].
  destruct d1 as [d|]; [|by destruct d2].
  pose proof (fullLoop_masked (split ariaTree) options d d2 st st Hle) as Hm.
  pose proof (fullLoop_noNewline (split ariaTree) (withMaxDepth options (Some d)) st
                (split_noNewline ariaTree)) as Hn1.
  pose proof (fullLoop_noNewline (split ariaTree) (withMaxDepth options d2) st
                (split_noNewline ariaTree)) as Hn2.
  destruct (fullLoop _ (withMaxDepth options (Some d)) st) as [r1 s1].
  destruct (fullLoop _ (withMaxDepth options d2) st) as [r2 s2].
  cbn [fst] in *. destruct (o_compact options); cbn [fst].
  - destruct (masked_noNewline_split d r1 r2 Hn1 Hn2 Hm) as [H|[_ ->]]; [|lia].
    by eapply compactLines_masked.
  - by eapply masked_length.
Qed.

(** C6.  For every tree text, every setting of the other options and every
    state, a depth limit [d1] below a depth limit [d2] (no limit being the
    largest) keeps at most as many lines: in the array of lines the function
    joins, after the compact pass when [compact] is set, and in the number of
    lines of the text it returns. *)
Theorem depth_monotone (ariaTree : str) (options : SnapshotOptions)
    (d1 d2 : option Z) (finalizeNth : bool) (st : St) :
  depthLe d1 d2 ->
  let shallow := processAriaTree ariaTree (withMaxDepth options d1) finalizeNth st in
  let deep := processAriaTree ariaTree (withMaxDepth options d2) finalizeNth st in
  length (processAriaTreeLines ariaTree (withMaxDepth options d1) finalizeNth st).1
    <= length (processAriaTreeLines ariaTree (withMaxDepth options d2) finalizeNth st).1
  /\ stat_lines (getSnapshotStats shallow.1 (refs shallow.2))
     <= stat_lines (getSnapshotStats deep.1 (refs deep.2)).
Proof.
  intros Hle. cbv zeta. cbn [getSnapshotStats stat_lines].
  pose proof (processAriaTreeLines_depth ariaTree options d1 d2 finalizeNth st Hle)
    as Hlen.
  split; [done|].
  pose proof (processAriaTreeLines_noNewline ariaTree (withMaxDepth options d1)
                finalizeNth st) as H1.
  pose proof (processAriaTreeLines_noNewline ariaTree (withMaxDepth options d2)
                finalizeNth st) as H2.
  unfold processAriaTree. cbn [withMaxDepth o_interactive] in *.
  destruct (o_interactive options) eqn:Hi.
  - unfold processAriaTreeLines in *. cbn [withMaxDepth o_interactive] in *.
    rewrite Hi in *. by destruct (interactiveLoop _ _).
  - destruct (processAriaTreeLines _ (withMaxDepth options d1) _ _) as [r1 s1].
    destruct (processAriaTreeLines _ (withMaxDepth options d2) _ _) as [r2 s2].
    cbn [fst] in *. rewrite !split_join_length by auto. lia.
Qed.

Lemma depth_monotone_witness :
  length (processAriaTreeLines ("- list" ++ nl ++ "  - button")
            (withMaxDepth defaultOptions (Some 0%Z)) true initialState).1
  <= length (processAriaTreeLines ("- list" ++ nl ++ "  - button")
            (withMaxDepth defaultOptions (Some 1%Z)) true initialState).1.
Proof.
  apply (depth_monotone ("- list" ++ nl ++ "  - button") defaultOptions
           (Some 0%Z) (Some 1%Z) true initialState).
  cbn. lia.
Defined.

End Depth.

(** ** C2: the nth index of entries that share a key *)

Section Nth.

Lemma colonFree_spec (s : str) :
  colonFree s = true -> Forall (fun c => c <> ":"%char) s.
Proof.
  unfold colonFree. intros H. apply forallb_all in H.
  eapply Forall_impl; [exact H|]. intros c Hc ->. done.
Qed.

Lemma getKey_role_inj r1 n1 r2 n2 :
  colonFree r1 = true -> colonFree r2 = true ->
  getKey r1 n1 = getKey r2 n2 -> r1 = r2.
Proof.
  unfold getKey. intros H1 H2. apply colonFree_spec in H1, H2.
  revert r2 H2. induction H1 as [|c r1 Hc Hr1 IH]; intros r2 H2 E.
  - destruct H2 as [|d r2 Hd _]; [done|]. cbn in E. by injection E as <-.
  - destruct H2 as [|d r2 Hd H2]; cbn in E.
    + by injection E as ->.
    + injection E as -> E. f_equal. by apply IH.
Qed.

Lemma treeRole_colonFree r : treeRole r -> colonFree r = true.
Proof.
  unfold treeRole, INTERACTIVE_ROLES, CONTENT_ROLES, strs. cbn [map].
  intros [H|H];
    repeat (apply elem_of_cons in H as [->|H]; [done|]);
    by apply elem_of_nil in H.
Qed.

Lemma cursorRoleName_colonFree r : cursorRoleName r -> colonFree r = true.
Proof. by intros [-> | ->]. Qed.

Lemma treeRole_not_cursor r : treeRole r -> ~ cursorRoleName r.
Proof.
  unfold treeRole, INTERACTIVE_ROLES, CONTENT_ROLES, strs. cbn [map].
  intros [H|H] [Hc|Hc];
    repeat (apply elem_of_cons in H as [->|H]; [discriminate Hc|]);
    by apply elem_of_nil in H.
Qed.

Lemma cursorRole_name el : cursorRoleName (cursorRole el).
Proof.
  unfold cursorRole, cursorRoleName.
  destruct (ce_hasCursorPointer el); [by left|].
  destruct (ce_hasOnClick el); [by left|by right].
Qed.

Lemma nths_succ n : nths (S n) = nths n ++ [Some (N.of_nat n)].
Proof. unfold nths. by rewrite seq_S, map_app. Qed.

Lemma nths_length n : length (nths n) = n.
Proof. unfold nths. by rewrite length_map, length_seq. Qed.

Lemma sharing_app k (m1 m2 : RefMap) :
  sharing k (m1 ++ m2) = sharing k m1 ++ sharing k m2.
Proof. apply filter_app. Qed.

Lemma sharing_cons k r e (m : RefMap) :
  sharing k ((r, e) :: m)
    = if decide (entryKey e = k) then (r, e) :: sharing k m else sharing k m.
Proof. unfold sharing. by rewrite filter_cons. Qed.

Lemma initial_trackInv : trackInv initialState.
Proof.
  split; try done.
  intros kv H. by apply elem_of_nil in H.
Qed.

Lemma step_trackInv st st' : step st st' -> trackInv st -> trackInv st'.
Proof.
  intros Hstep [Hk Ht Hn Hr].
  assert (Hk' : keysInv st') by (by eapply step_keysInv).
  destruct Hstep as [role name st Hrole|el st].
  - rewrite assignRef_eq in *. cbv zeta in *. cbn [snd] in *.
    set (k0 := getKey role name) in *.
    set (cur := default 0%N (counts (tracker st) !! k0)) in *.
    split; [done| | |]; cbn [refs tracker counts refsByKey].
    + intros k. destruct (decide (k0 = k)) as [<-|Hne].
      * rewrite !lookup_insert_eq. cbn. rewrite length_app, Ht. cbn.
        fold cur. lia.
      * rewrite !lookup_insert_ne by done. apply Ht.
    + intros role' name' Hrole'. rewrite keysInv_push by done.
      rewrite sharing_app, map_app, (Hn _ _ Hrole').
      destruct (decide (k0 = getKey role' name')) as [<-|Hne].
      * rewrite lookup_insert_eq. cbn [default from_option]. unfold id.
        replace (N.to_nat (cur + 1)) with (S (N.to_nat cur)) by lia.
        rewrite nths_succ. f_equal. rewrite sharing_cons.
        rewrite decide_True by done. cbn. by rewrite N2Nat.id.
      * rewrite lookup_insert_ne by done. rewrite sharing_cons.
        rewrite decide_False by done. cbn. by rewrite app_nil_r.
    + intros kv Hin. rewrite keysInv_push in Hin by done.
      apply elem_of_app in Hin as [Hin|Hin]; [by apply Hr|].
      apply list_elem_of_singleton in Hin as ->. by left.
  - unfold cursorStep, nextRef in *. cbn [refs tracker refCounter] in *.
    change ("e" ++ toString (refCounter st + 1))
      with (refName (refCounter st + 1)) in *.
    split; [done|done| |]; cbn [refs tracker].
    + intros role' name' Hrole'. rewrite keysInv_push by done.
      rewrite sharing_app, map_app, (Hn _ _ Hrole'). rewrite sharing_cons.
      rewrite decide_False; [by rewrite app_nil_r|].
      unfold entryKey. cbn [re_role re_name snd]. intros E.
      apply getKey_role_inj in E;
        [|apply cursorRoleName_colonFree, cursorRole_name
         |by apply treeRole_colonFree].
      apply (treeRole_not_cursor _ Hrole'). rewrite <- E. apply cursorRole_name.
    + intros kv Hin. rewrite keysInv_push in Hin by done.
      apply elem_of_app in Hin as [Hin|Hin]; [by apply Hr|].
      apply list_elem_of_singleton in Hin as ->. right.
      split; [apply cursorRole_name|done].
Qed.

Lemma steps_trackInv st st' : rtc step st st' -> trackInv st -> trackInv st'.
Proof. induction 1; eauto using step_trackInv. Qed.

Lemma getDuplicateKeys_spec (t : RoleNameTracker) (k : str) :
  k ∈ getDuplicateKeys t <-> 1 < length (default [] (refsByKey t !! k)).
Proof.
  unfold getDuplicateKeys. rewrite elem_of_dom. unfold is_Some.
  setoid_rewrite map_lookup_filter_Some. cbn. split.
  - intros (rs & -> & H). done.
  - intros H. destruct (refsByKey t !! k) as [rs|]; cbn in *; [|lia].
    by exists rs.
Qed.

(** The clean-up leaves the entries of a key alone when the key recurred and
    removes their index otherwise. *)
Lemma removeNth_sharing st k :
  sharing k (refs (removeNthFromNonDuplicates st))
    = if bool_decide (k ∈ getDuplicateKeys (tracker st))
      then sharing k (refs st)
      else map (fun kv => (kv.1, deleteNth kv.2)) (sharing k (refs st)).
Proof.
  unfold removeNthFromNonDuplicates. cbn [refs].
  induction (refs st) as [|[r e] m IH]; cbn [map].
  - by destruct (bool_decide _).
  - cbn [fst snd]. fold (entryKey e).
    destruct (decide (entryKey e = k)) as [<-|Hne].
    + destruct (bool_decide (entryKey e ∈ _)) eqn:Hd.
      * rewrite !sharing_cons, !decide_True by done. by rewrite IH.
      * rewrite !sharing_cons, !decide_True by done. cbn [map]. by rewrite IH.
    + rewrite (sharing_cons k r e), decide_False by done.
      destruct (bool_decide (entryKey e ∈ _));
        rewrite sharing_cons, decide_False by done; exact IH.
Qed.

Lemma removeNth_elem st kv :
  kv ∈ refs (removeNthFromNonDuplicates st) ->
  exists kv0, kv0 ∈ refs st /\ kv.1 = kv0.1
    /\ re_role kv.2 = re_role kv0.2 /\ re_name kv.2 = re_name kv0.2
    /\ (re_nth kv.2 = re_nth kv0.2 \/ re_nth kv.2 = None).
Proof.
  unfold removeNthFromNonDuplicates. cbn [refs]. intros H.
  apply list_elem_of_fmap in H as (kv0 & -> & Hin).
  exists kv0. split; [done|]. destruct (bool_decide _); cbn; auto 10.
Qed.

Lemma removeNth_nth_none st kv :
  kv ∈ refs (removeNthFromNonDuplicates st) ->
  entryKey kv.2 ∉ getDuplicateKeys (tracker st) ->
  re_nth kv.2 = None.
Proof.
  unfold removeNthFromNonDuplicates. cbn [refs]. intros H Hnd.
  apply list_elem_of_fmap in H as (kv0 & -> & Hin).
  fold (entryKey kv0.2) in *.
  destruct (bool_decide (entryKey kv0.2 ∈ getDuplicateKeys (tracker st))) eqn:Hd;
    [|done].
  by apply bool_decide_eq_true in Hd.
Qed.

Lemma sharing_length_tracked st role name :
  trackInv st -> treeRole role ->
  length (sharing (getKey role name) (refs st))
    = length (default [] (refsByKey (tracker st) !! getKey role name)).
Proof.
  intros [_ Ht Hn _] Hrole.
  rewrite <- (length_map nthOf), (Hn _ _ Hrole), nths_length. by rewrite Ht.
Qed.

(** C2, as the code has it.  Among the entries that come from lines of the
    tree, the entries that share a key carry, when there are at least two,
    the indices 0, 1, ..., k-1 in insertion order, and an entry alone under
    its key carries no nth.  The entries of the cursor detector are not
    counted by the tracker: they never carry nth. *)
Theorem nth_disambiguation (page : Page) (options : SnapshotOptions) (counter : N) :
  exists snap counter',
    getEnhancedSnapshot page options counter = Returned (snap, counter')
    /\ forall kv, kv ∈ snap_refs snap ->
         let es := sharing (entryKey kv.2) (snap_refs snap) in
         (treeRole (re_role kv.2) \/ cursorRoleName (re_role kv.2))
         /\ (treeRole (re_role kv.2) ->
               (2 <= length es -> map nthOf es = nths (length es))
               /\ (length es = 1 -> re_nth kv.2 = None))
         /\ (cursorRoleName (re_role kv.2) -> re_nth kv.2 = None).
Proof.
  destruct (getEnhancedSnapshot_steps page options counter)
    as (text & st & -> & Hsteps).
  eexists _, _. split; [done|]. cbn [snap_refs].
  pose proof (steps_trackInv _ _ Hsteps initial_trackInv) as Hinv.
  intros kv Hkv. cbv zeta.
  destruct (removeNth_elem st kv Hkv) as (kv0 & Hin0 & _ & Hrole & Hname & Hnth).
  pose proof (ti_roles st Hinv kv0 Hin0) as Hkind. rewrite <- Hrole in Hkind.
  split; [tauto|]. split.
  - intros Htree.
    assert (Hkey : entryKey kv.2 = getKey (re_role kv.2) (re_name kv.2)) by done.
    rewrite removeNth_sharing, Hkey.
    pose proof (sharing_length_tracked st _ (re_name kv.2) Hinv Htree) as Hlen.
    pose proof (ti_nths st Hinv _ (re_name kv.2) Htree) as Hn.
    pose proof (getDuplicateKeys_spec (tracker st)
                  (getKey (re_role kv.2) (re_name kv.2))) as Hdup.
    destruct (bool_decide _) eqn:Hd.
    + split.
      * intros _. rewrite <- (length_map nthOf (sharing _ _)), Hn.
        by rewrite nths_length.
      * intros H1. apply bool_decide_eq_true in Hd. apply Hdup in Hd. lia.
    + split.
      * rewrite length_map. intros H2. apply bool_decide_eq_false in Hd.
        destruct Hd. apply Hdup. lia.
      * intros _. apply bool_decide_eq_false in Hd.
        apply (removeNth_nth_none st kv Hkv). by rewrite Hkey.
  - intros Hcur. destruct Hkind as [Ht|[_ Hnone]].
    + by destruct (treeRole_not_cursor _ Ht).
    + destruct Hnth as [-> | ->]; done.
Qed.

(** C2 as stated fails for the entries of the cursor detector: two clickable
    elements with the same text give two entries under one key, and neither
    carries nth. *)
Lemma cursor_entries_share_key_without_nth :
  exists snap counter',
    getEnhancedSnapshot twoSavePage (mkOptions false true None false None) 0
      = Returned (snap, counter')
    /\ map (fun kv => (kv.1, re_role kv.2, re_name kv.2, re_nth kv.2))
         (snap_refs snap)
       = [ ("e1" : str, "clickable" : str, Some ("Save" : str), None);
           ("e2" : str, "clickable" : str, Some ("Save" : str), None) ].
Proof. eexists _, _. split; vm_compute; reflexivity. Qed.

End Nth.

(** ** C4: the interactive mode against the normal mode *)

Section Interactive.

Lemma interactive_not_structural r :
  memStr r INTERACTIVE_ROLES = true -> memStr r STRUCTURAL_ROLES = false.
Proof.
  intros H. destruct (memStr r STRUCTURAL_ROLES) eqn:E; [|done].
  apply structural_disjoint in E as [E _]. congruence.
Qed.

Lemma interactive_not_slash role :
  memStr (toLowerCase role) INTERACTIVE_ROLES = true ->
  startsWith "/" role = false.
Proof.
  intros H. destruct role as [|c r]; [done|]. cbn [startsWith list_ascii_of_string].
  rewrite andb_true_r.
  destruct (Ascii.eqb_spec "/" c) as [<-|]; [|done]. exfalso.
  apply memStr_true in H. unfold INTERACTIVE_ROLES, strs in H. cbn in H.
  repeat (apply elem_of_cons in H as [H|H]; [discriminate H|]).
  by apply elem_of_nil in H.
Qed.

Lemma classify_interactive_role line options m :
  lineMatch line = Some m ->
  memStr (toLowerCase (lm_role m)) INTERACTIVE_ROLES = true ->
  o_maxDepth options = None ->
  classify line options = Annotated m.
Proof.
  intros Hm Hi Hd. unfold classify, tooDeep, shouldHaveRef.
  rewrite Hd, Hm, (interactive_not_slash _ Hi), Hi,
    (interactive_not_structural _ Hi).
  cbn. by rewrite !andb_false_r.
Qed.

Lemma agree_refl st : agree st st.
Proof. done. Qed.

Lemma agree_assign_both role name st1 st2 :
  agree st1 st2 ->
  agree (assignRef role name st1).2 (assignRef role name st2).2.
Proof.
  intros H role' name' Hrole'. rewrite !assignRef_eq. cbn.
  destruct (decide (getKey role name = getKey role' name')) as [E|Hne].
  - rewrite E, !lookup_insert_eq. destruct (decide (role = role')) as [<-|Hr].
    + by rewrite (H role name' Hrole').
    + by rewrite (H role' name' Hrole').
  - by rewrite !lookup_insert_ne, (H role' name' Hrole').
Qed.

Lemma agree_assign_content role name st1 st2 :
  agree st1 st2 -> treeRole role -> memStr role INTERACTIVE_ROLES = false ->
  agree st1 (assignRef role name st2).2.
Proof.
  intros H Hrole Hni role' name' Hrole'. rewrite assignRef_eq. cbn.
  rewrite lookup_insert_ne; [by apply H|]. intros E.
  apply getKey_role_inj in E; [congruence|by apply treeRole_colonFree|].
  apply treeRole_colonFree. left. by apply memStr_true.
Qed.

Lemma assignRef_nth_agree role name st1 st2 :
  agree st1 st2 -> memStr role INTERACTIVE_ROLES = true ->
  (assignRef role name st1).1.2 = (assignRef role name st2).1.2.
Proof. intros H Hrole. rewrite !assignRef_eq. cbn. by rewrite (H role name Hrole). Qed.

Lemma loops_filter lines options st1 st2 :
  o_maxDepth options = None -> agree st1 st2 ->
  Forall2 corresponds (interactiveLoop lines st1).1
    (filter (fun l => hasInteractiveRole l = true)
       (fullLoop lines options st2).1)
  /\ Forall (fun l => hasInteractiveRole l = true -> includes "[ref=" l = true)
       (fullLoop lines options st2).1.
Proof.
  intros Hd. revert st1 st2.
  induction lines as [|line rest IH]; intros st1 st2 Hagree.
  { by split; constructor. }
  assert (Hskip : forall out : list str * St,
    hasInteractiveRole line = false ->
    Forall2 corresponds (interactiveLoop rest st1).1
      (filter (fun l => hasInteractiveRole l = true) out.1)
    /\ Forall (fun l => hasInteractiveRole l = true -> includes "[ref=" l = true)
         out.1 ->
    Forall2 corresponds (interactiveLoop rest st1).1
      (filter (fun l => hasInteractiveRole l = true) (line :: out.1))
    /\ Forall (fun l => hasInteractiveRole l = true -> includes "[ref=" l = true)
         (line :: out.1)).
  { intros out Hf [H1 H2]. rewrite filter_cons_False by (by rewrite Hf).
    split; [done|]. constructor; [by rewrite Hf|done]. }
  cbn [fullLoop interactiveLoop]. rewrite processLine_classify.
  destruct (lineMatch line) as [m|] eqn:Hm.
  - destruct (memStr (toLowerCase (lm_role m)) INTERACTIVE_ROLES) eqn:Hi.
    + rewrite (classify_interactive_role line options m Hm Hi Hd).
      pose proof (assignRef_nth_agree _ (lm_name m) st1 st2 Hagree Hi) as Hnth.
      pose proof (agree_assign_both (toLowerCase (lm_role m)) (lm_name m)
                    st1 st2 Hagree) as Hagree'.
      assert (Href : (assignRef (toLowerCase (lm_role m)) (lm_name m) st2).1.1
                     = refName (refCounter st2 + 1)) by done.
      destruct (assignRef _ _ st1) as [[ref1 nth1] st1'].
      destruct (assignRef _ _ st2) as [[ref2 nth2] st2'].
      cbn [fst snd] in *. subst nth2 ref2.
      destruct (IH st1' st2' Hagree') as [Hcor Href].
      destruct (interactiveLoop rest st1'), (fullLoop rest options st2').
      cbn [fst] in *.
      rewrite filter_cons_True
        by (by rewrite (render_hasInteractiveRole line)). split.
      * constructor; [|done]. by exists m, ref1, (refName (refCounter st2 + 1)), nth1.
      * constructor; [|done]. intros _. apply render_hasRef.
    + assert (Hf : hasInteractiveRole line = false)
        by (unfold hasInteractiveRole; by rewrite Hm).
      destruct (classify line options) as [| |m'] eqn:E.
      * specialize (IH st1 st2 Hagree). by destruct (fullLoop rest options st2).
      * specialize (IH st1 st2 Hagree).
        specialize (Hskip (fullLoop rest options st2) Hf IH).
        by destruct (fullLoop rest options st2).
      * apply classify_annotated in E as (Hm' & Href' & _).
        rewrite Hm in Hm'. injection Hm' as <-.
        pose proof (agree_assign_content (toLowerCase (lm_role m)) (lm_name m)
                      st1 st2 Hagree (shouldHaveRef_treeRole m Href') Hi) as Hagree'.
        assert (Href : (assignRef (toLowerCase (lm_role m)) (lm_name m) st2).1.1
                       = refName (refCounter st2 + 1)) by done.
        destruct (assignRef _ _ st2) as [[ref2 nth2] st2'].
        cbn [fst snd] in *. subst ref2.
        destruct (IH st1 st2' Hagree') as [Hcor Href].
        destruct (fullLoop rest options st2'). cbn [fst] in *.
        assert (Hr : hasInteractiveRole
                       (render m (refName (refCounter st2 + 1)) nth2) = false)
          by (by rewrite (render_hasInteractiveRole line)).
        rewrite filter_cons_False by (by rewrite Hr). split; [done|].
        constructor; [by rewrite Hr|done].
  - assert (Hf : hasInteractiveRole line = false)
      by (unfold hasInteractiveRole; by rewrite Hm).
    assert (classify line options = Dropped \/ classify line options = Verbatim)
      as [-> | ->].
    { unfold classify. rewrite Hm. destruct (tooDeep _ _); [by left|].
      destruct (o_interactive options); auto. }
    + specialize (IH st1 st2 Hagree). by destruct (fullLoop rest options st2).
    + specialize (IH st1 st2 Hagree).
      specialize (Hskip (fullLoop rest options st2) Hf IH).
      by destruct (fullLoop rest options st2).
Qed.

Lemma compactLines_filter (p : str -> bool) (lines : list str) :
  Forall (fun l => p l = true -> includes "[ref=" l = true) lines ->
  filter (fun l => p l = true) (compactLines lines)
  = filter (fun l => p l = true) lines.
Proof.
  induction 1 as [|l rest Hl Hrest IH]; [done|]. cbn [compactLines].
  destruct (includes "[ref=" l) eqn:Hr; [by rewrite !filter_cons, IH|].
  destruct (_ && _); [by rewrite !filter_cons, IH|].
  destruct (hasRelevantChildren _ _); [by rewrite !filter_cons, IH|].
  rewrite (filter_cons_False _ l); [done|].
  intros Hp. specialize (Hl Hp). congruence.
Qed.

(** C4, as the code has it.  Without a depth limit, take the lines of the
    text of the normal mode whose role is in the Interactive set.  When there
    is none the text of the interactive mode is the placeholder.  Otherwise
    the lines of the text of the interactive mode correspond one to one, in
    order, to exactly these lines: each has the role, the name and the nth
    index of its line of the normal mode, but it starts at the dash, without
    the indentation, keeps the suffix only when the suffix has a bracket, and
    carries the ref number of its own run. *)
Theorem interactive_lines_correspond (ariaTree : str) (options : SnapshotOptions)
    (finalizeNth : bool) (st : St) :
  o_maxDepth options = None ->
  let textI :=
    (processAriaTree ariaTree (withInteractive options true) finalizeNth st).1 in
  let textF :=
    (processAriaTree ariaTree (withInteractive options false) finalizeNth st).1 in
  let linesF := filter (fun l => hasInteractiveRole l = true) (split textF) in
  (linesF = [] -> textI = textNoInteractive)
  /\ (linesF <> [] -> Forall2 corresponds (split textI) linesF).
Proof.
  intros Hd. cbv zeta. rewrite !processAriaTree_eq. cbv zeta.
  cbn [withInteractive o_interactive o_compact].
  destruct (loops_filter (split ariaTree) (withInteractive options false) st st
              Hd (agree_refl st)) as [Hcor Href].
  pose proof (fullLoop_noNewline (split ariaTree) (withInteractive options false) st
                (split_noNewline ariaTree)) as HnlF.
  pose proof (interactiveLoop_noNewline (split ariaTree) st
                (split_noNewline ariaTree)) as HnlI.
  pose proof (interactiveLoop_lines (split ariaTree) st) as Hdash.
  destruct (interactiveLoop (split ariaTree) st) as [ri si].
  destruct (fullLoop (split ariaTree) (withInteractive options false) st)
    as [rf sf].
  cbn [fst snd] in *.
  assert (Hlines : filter (fun l => hasInteractiveRole l = true)
                     (split (if o_compact options
                             then compactTree (join nl rf) else join nl rf))
                   = filter (fun l => hasInteractiveRole l = true) rf).
  { destruct rf as [|l rf]; [by destruct (o_compact options)|].
    destruct (o_compact options); [|by rewrite split_join].
    rewrite split_compactTree, split_join by done.
    rewrite <- (compactLines_filter hasInteractiveRole (l :: rf) Href).
    by destruct (compactLines (l :: rf)). }
  assert (Hgoal : forall t : str,
    filter (fun l => hasInteractiveRole l = true) (split t)
      = filter (fun l => hasInteractiveRole l = true) rf ->
    (filter (fun l => hasInteractiveRole l = true) (split t) = [] ->
     strOr (join nl ri) textNoInteractive = textNoInteractive)
    /\ (filter (fun l => hasInteractiveRole l = true) (split t) <> [] ->
        Forall2 corresponds (split (strOr (join nl ri) textNoInteractive))
          (filter (fun l => hasInteractiveRole l = true) (split t)))).
  { intros t ->. split.
    - intros E. rewrite E in Hcor. by apply Forall2_nil_inv_r in Hcor as ->.
    - intros Hne. destruct ri as [|l ri].
      { apply Forall2_nil_inv_l in Hcor. done. }
      assert (Ht : strOr (join nl (l :: ri)) textNoInteractive
                   = join nl (l :: ri)).
      { apply Forall_cons in Hdash as [Hl _].
        apply startsWith_spec in Hl as [tail ->]. by destruct ri. }
      by rewrite Ht, split_join. }
  revert Hlines.
  destruct finalizeNth, (o_compact options); cbn [fst]; intros Hlines;
    by apply Hgoal.
Qed.


Lemma interactive_lines_correspond_witness :
  Forall2 corresponds
    (split (processAriaTree ("  - button" ++ quoted "Save")
              (withInteractive defaultOptions true) true initialState).1)
    (filter (fun l => hasInteractiveRole l = true)
       (split (processAriaTree ("  - button" ++ quoted "Save")
                 (withInteractive defaultOptions false) true initialState).1)).
Proof.
  apply (interactive_lines_correspond ("  - button" ++ quoted "Save")
           defaultOptions true initialState eq_refl).
  by vm_compute.
Defined.


(** C4 as stated fails: with the same ref and no nth on both sides, the
    interactive line of an indented button is not the normal-mode line, and
    the interactive line of a link loses the colon that ends the normal-mode
    line. *)
Lemma interactive_line_differs :
  (processAriaTreeLines ("  - button" ++ quoted "Save")
     (mkOptions true false None false None) true initialState).1
    = ["- button" ++ quoted "Save" ++ " [ref=e1]"]
  /\ (processAriaTreeLines ("  - button" ++ quoted "Save")
        (mkOptions false false None false None) true initialState).1
    = ["  - button" ++ quoted "Save" ++ " [ref=e1]"]
  /\ (processAriaTreeLines ("- link" ++ quoted "Home" ++ ":")
        (mkOptions true false None false None) true initialState).1
    = ["- link" ++ quoted "Home" ++ " [ref=e1]"]
  /\ (processAriaTreeLines ("- link" ++ quoted "Home" ++ ":")
        (mkOptions false false None false None) true initialState).1
    = ["- link" ++ quoted "Home" ++ " [ref=e1]:"].
Proof. vm_compute. repeat split. Qed.

End Interactive.

(** ** C8: the selection of the cursor-interactive detector *)

Section Sorting.

Context {A : Type} (compare : A -> A -> Z).

Let before (a b : A) : Prop := (compare a b <= 0)%Z.

Lemma insertBy_perm x l : insertBy compare x l ≡ₚ x :: l.
Proof.
  induction l as [|y l IH]; cbn; [done|].
  destruct (compare x y <=? 0)%Z; [done|].
  rewrite IH. apply Permutation_swap.
Qed.

Lemma jsSort_perm l : jsSort compare l ≡ₚ l.
Proof.
  induction l as [|x l IH]; cbn; [done|].
  by rewrite insertBy_perm, IH.
Qed.

Hypothesis before_total : forall a b, before a b \/ before b a.
Hypothesis before_trans : forall a b c, before a b -> before b c -> before a c.

Lemma insertBy_sorted x l :
  StronglySorted before l -> StronglySorted before (insertBy compare x l).
Proof.
  induction 1 as [|y l Hl IH Hy]; cbn; [by repeat constructor|].
  destruct (compare x y <=? 0)%Z eqn:E.
  - apply Z.leb_le in E. constructor; [by constructor|].
    constructor; [done|]. eapply Forall_impl; [exact Hy|].
    intros z Hz. by eapply before_trans.
  - constructor; [done|]. rewrite insertBy_perm. constructor; [|done].
    apply Z.leb_gt in E. destruct (before_total x y) as [H|H]; [|done].
    unfold before in H. lia.
Qed.

Lemma jsSort_sorted l : StronglySorted before (jsSort compare l).
Proof.
  induction l as [|x l IH]; cbn; [constructor|]. by apply insertBy_sorted.
Qed.

End Sorting.

Lemma StronglySorted_weaken {A} (R R' : A -> A -> Prop) (l : list A) :
  (forall a b, R a b -> R' a b) -> StronglySorted R l -> StronglySorted R' l.
Proof.
  intros HR. induction 1 as [|x l Hl IH Hx]; constructor; [done|].
  eapply Forall_impl; [exact Hx|]. intros y. apply HR.
Qed.

Section Detector.







(** *** The collecting loop numbers the candidates in discovery order *)




(** *** The accepting loop *)

Lemma disjointList_snoc l c :
  disjointList l -> existsb (fun chosen => overlaps chosen c) l = false ->
  disjointList (l ++ [c]).
Proof.
  induction l as [|x l IH]; cbn; [done|]. intros [Hx Hl] H.
  apply orb_false_iff in H as [Hxc H]. split; [|by apply IH].
  apply Forall_app. split; [done|]. by repeat constructor.
Qed.

Lemma selectLoop_spec sorted selected :
  disjointList selected ->
  exists accepted,
    selectLoop sorted selected = selected ++ accepted
    /\ sublist accepted sorted
    /\ disjointList (selected ++ accepted)
    /\ (forall c, c ∈ sorted ->
          c ∈ accepted
          \/ exists chosen, chosen ∈ selected ++ accepted
               /\ overlaps chosen c = true).
Proof.
  revert selected. induction sorted as [|c rest IH]; intros selected Hd.
  - exists []. rewrite app_nil_r. split; [done|]. split; [done|].
    split; [done|]. intros c H. by apply elem_of_nil in H.
  - cbn [selectLoop].
    destruct (existsb (fun chosen => overlaps chosen c) selected) eqn:E.
    + destruct (IH selected Hd) as (acc & -> & Hsub & Hdis & Hmax).
      exists acc. split; [done|]. split; [by apply sublist_cons|].
      split; [done|]. intros c' Hin.
      apply elem_of_cons in Hin as [->|Hin]; [|by apply Hmax].
      right. apply existsb_exists in E as (chosen & Hin & Ho).
      exists chosen. split; [|done].
      apply elem_of_app. left. by apply list_elem_of_In.
    + destruct (IH (selected ++ [c]) (disjointList_snoc _ _ Hd E))
        as (acc & -> & Hsub & Hdis & Hmax).
      exists (c :: acc). rewrite <- app_assoc in *. cbn [app] in *.
      split; [done|]. split; [by apply sublist_skip|]. split; [done|].
      intros c' Hin. apply elem_of_cons in Hin as [->|Hin].
      * left. by left.
      * destruct (Hmax c' Hin) as [H|H]; [left; by right|by right].
Qed.





End Detector.

(** ** C9: the sections of the region partitioner *)

Section Regions.

Lemma regionsQuery_shape doc regions :
  regionsQuery doc = Returned regions ->
  regions = []
  \/ exists s c d,
       collectRegionSelectors doc (rd_candidates sidebarDefinition) = Returned s
       /\ collectRegionSelectors doc (rd_candidates contentsDefinition) = Returned c
       /\ collectRegionSelectors doc (rd_candidates drawerDefinition) = Returned d
       /\ regions = regionOf sidebar s ++ regionOf contents c
                      ++ regionOf drawer d ++ regionOf fab (collectFabSelectors doc).
Proof.
  unfold regionsQuery.
  destruct (hasMyheloSubLayout doc) as [[|]|]; cbn [bindO negb];
    [|intros [= <-]; by left|done].
  unfold definitions. cbn [collectRegions].
  destruct (collectRegionSelectors doc (rd_candidates sidebarDefinition))
    as [s|] eqn:Es; [|done].
  destruct (collectRegionSelectors doc (rd_candidates contentsDefinition))
    as [c|] eqn:Ec; [|done].
  destruct (collectRegionSelectors doc (rd_candidates drawerDefinition))
    as [d|] eqn:Ed; [|done].
  cbn [bindO]. intros [= <-]. right. exists s, c, d.
  repeat (split; [done|]).
  by destruct s, c, d, (collectFabSelectors doc).
Qed.

Lemma regionOf_keys s c d f :
  sublist (map rg_key (regionOf sidebar s ++ regionOf contents c
                         ++ regionOf drawer d ++ regionOf fab f))
          [sidebar; contents; drawer; fab].
Proof.
  destruct s, c, d, f; cbn;
    repeat first [apply sublist_nil_l | apply sublist_skip | apply sublist_cons].
Qed.

Lemma regionOf_wellFormed s c d f :
  Forall wellFormedRegion (regionOf sidebar s ++ regionOf contents c
                             ++ regionOf drawer d ++ regionOf fab f).
Proof. destruct s, c, d, f; cbn; repeat constructor; done. Qed.

Lemma regionLoop_sections page options regions st r :
  regionLoop page options regions st = Returned r ->
  exists bodies,
    length bodies = length regions /\ r.1 = zip_with sectionText regions bodies.
Proof.
  revert st r. induction regions as [|region rest IH]; intros st r;
    cbn [regionLoop].
  - intros [= <-]. exists []. by split.
  - destruct (buildMyheloRegionSection _ _ _ _) as [[body st1]|];
      cbn [bindO]; [|done].
    cbn [snd]. destruct (regionLoop page options rest st1) as [more|] eqn:E;
      cbn [bindO]; [|done].
    intros [= <-]. destruct (IH _ _ E) as (bodies & Hlen & Hm).
    exists (body :: bodies). cbn. by rewrite Hlen, Hm.
Qed.

(** C9.  Without a selector option, the regions of a snapshot are those of
    the shell that have at least one selector, in the order sidebar,
    contents, drawer, fab: the region of a key whose on-screen, visible,
    deduplicated matches are none is not in the list.  When the list is not
    empty, the tree text is the sections of these regions, in this order,
    each a heading with the title of the region on the line before its body,
    joined by a blank line. *)
Theorem region_sections (page : Page) (options : SnapshotOptions) (counter : N) :
  truthyOpt (o_selector options) = false ->
  exists regions,
    getMyheloActiveRegions page = Returned regions
    /\ (regions = []
        \/ exists doc s c d,
             pg_document page = Returned doc
             /\ collectRegionSelectors doc (rd_candidates sidebarDefinition)
                  = Returned s
             /\ collectRegionSelectors doc (rd_candidates contentsDefinition)
                  = Returned c
             /\ collectRegionSelectors doc (rd_candidates drawerDefinition)
                  = Returned d
             /\ regions = regionOf sidebar s ++ regionOf contents c
                            ++ regionOf drawer d
                            ++ regionOf fab (collectFabSelectors doc))
    /\ sublist (map rg_key regions) [sidebar; contents; drawer; fab]
    /\ Forall wellFormedRegion regions
    /\ (regions <> [] ->
        exists snap counter' bodies,
          getEnhancedSnapshot page options counter = Returned (snap, counter')
          /\ length bodies = length regions
          /\ tree snap = join (nl ++ nl) (zip_with sectionText regions bodies)).
Proof.
  intros Hsel.
  assert (Hshape : exists regions,
    getMyheloActiveRegions page = Returned regions
    /\ (regions = []
        \/ exists doc s c d,
             pg_document page = Returned doc
             /\ collectRegionSelectors doc (rd_candidates sidebarDefinition)
                  = Returned s
             /\ collectRegionSelectors doc (rd_candidates contentsDefinition)
                  = Returned c
             /\ collectRegionSelectors doc (rd_candidates drawerDefinition)
                  = Returned d
             /\ regions = regionOf sidebar s ++ regionOf contents c
                            ++ regionOf drawer d
                            ++ regionOf fab (collectFabSelectors doc))).
  { unfold getMyheloActiveRegions, evaluate, try_catch, bindO.
    destruct (pg_document page) as [doc|]; [|exists []; by split; [|left]].
    destruct (regionsQuery doc) as [regions|] eqn:E;
      [|exists []; by split; [|left]].
    exists regions. split; [done|].
    apply regionsQuery_shape in E as [->|(s & c & d & ? & ? & ? & ->)];
      [by left|]. right. by exists doc, s, c, d. }
  destruct Hshape as (regions & Hreg & Hshape).
  exists regions. split; [done|]. split; [done|].
  split.
  { destruct Hshape as [->|(doc & s & c & d & _ & _ & _ & _ & ->)];
      [apply sublist_nil_l|apply regionOf_keys]. }
  split.
  { destruct Hshape as [->|(doc & s & c & d & _ & _ & _ & _ & ->)];
      [constructor|apply regionOf_wellFormed]. }
  intros Hne. unfold getEnhancedSnapshot. rewrite Hsel, Hreg. cbn [negb bindO].
  destruct regions as [|r rs]; [done|].
  destruct (regionLoop_steps page options (r :: rs)
              (resetRefs (mkSt counter [] createRoleNameTracker)))
    as (res & E & _).
  rewrite E. cbn [bindO].
  destruct (regionLoop_sections _ _ _ _ _ E) as (bodies & Hlen & Hsec).
  eexists _, _, bodies. split; [done|]. split; [done|]. cbn [tree].
  by rewrite Hsec.
Qed.

Lemma region_sections_witness :
  exists regions,
    getMyheloActiveRegions (shellPage true false true) = Returned regions
    /\ map rg_key regions = [sidebar; contents; fab].
Proof.
  destruct (region_sections (shellPage true false true) defaultOptions 0 eq_refl)
    as (regions & H1 & _).
  exists regions. split; [done|].
  vm_compute in H1. injection H1 as <-. reflexivity.
Defined.

End Regions.

(** ** The compact pass on its own *)

Section CompactPass.

Lemma hasRelevantChildren_compactLines (cur : nat) (below : list str) :
  hasRelevantChildren cur below = true ->
  hasRelevantChildren cur (compactLines below) = true.
Proof.
  induction below as [|l below IH]; [done|].
  cbn [hasRelevantChildren compactLines].
  destruct (getIndentLevel l <=? cur) eqn:Hi; [done|].
  destruct (includes "[ref=" l) eqn:Hr.
  - intros _. cbn [hasRelevantChildren]. by rewrite Hi, Hr.
  - intros H. specialize (IH H).
    destruct (includes ":" l && negb (endsWith ":" l)).
    + cbn [hasRelevantChildren]. by rewrite Hi, Hr.
    + destruct (hasRelevantChildren (getIndentLevel l) below); [|done].
      cbn [hasRelevantChildren]. by rewrite Hi, Hr.
Qed.

Lemma compactLines_idempotent (lines : list str) :
  compactLines (compactLines lines) = compactLines lines.
Proof.
  induction lines as [|l below IH]; [done|].
  cbn [compactLines].
  destruct (includes "[ref=" l) eqn:Hr.
  { cbn [compactLines]. by rewrite Hr, IH. }
  destruct (includes ":" l && negb (endsWith ":" l)) eqn:Hc.
  { cbn [compactLines]. by rewrite Hr, Hc, IH. }
  destruct (hasRelevantChildren (getIndentLevel l) below) eqn:Hk; [|done].
  cbn [compactLines]. rewrite Hr, Hc, IH.
  by rewrite (hasRelevantChildren_compactLines _ _ Hk).
Qed.

Lemma compactLines_blank : compactLines [[]] = [].
Proof. reflexivity. Qed.

(** X1.  Compacting a compacted tree changes nothing: a line kept for a ref
    below it still has that ref below it. *)
Theorem compactTree_idempotent (tree : str) :
  compactTree (compactTree tree) = compactTree tree.
Proof.
  unfold compactTree at 1. rewrite split_compactTree.
  destruct (compactLines (split tree)) as [|l ls] eqn:E.
  - rewrite compactLines_blank. unfold compactTree. by rewrite E.
  - rewrite <- E, compactLines_idempotent. done.
Qed.

Lemma compactLines_alwaysKept (lines : list str) :
  filter (fun l => alwaysKept l = true) (compactLines lines)
  = filter (fun l => alwaysKept l = true) lines.
Proof.
  induction lines as [|l below IH]; [done|].
  cbn [compactLines]. unfold alwaysKept, carriesRef, hasInlineText in *.
  destruct (includes "[ref=" l) eqn:Hr.
  { rewrite !filter_cons, Hr. cbn [orb]. by rewrite IH. }
  destruct (includes ":" l && negb (endsWith ":" l)) eqn:Hc.
  { rewrite !filter_cons, Hr, Hc. cbn [orb]. by rewrite IH. }
  rewrite (filter_cons _ l below), Hr, Hc. cbn [orb].
  rewrite decide_False by done.
  destruct (hasRelevantChildren _ _); [|done].
  rewrite filter_cons, Hr, Hc. cbn [orb]. by rewrite decide_False.
Qed.

(** X2.  The compact pass never removes a line that carries a ref or that has
    text after a colon: these lines of the compacted text are those of the
    text, in the same order. *)
Theorem compactTree_keeps (tree : str) :
  filter (fun l => alwaysKept l = true) (split (compactTree tree))
  = filter (fun l => alwaysKept l = true) (split tree).
Proof.
  rewrite split_compactTree, <- (compactLines_alwaysKept (split tree)).
  destruct (compactLines (split tree)); [|done].
  rewrite filter_cons. by rewrite decide_False.
Qed.

End CompactPass.

(** ** The depth limit and the plain mode *)

Section DepthLimit.

Lemma processLine_within line options st l :
  (processLine line options st).1 = Some l ->
  tooDeep options (getIndentLevel line) = false.
Proof.
  unfold processLine. by destruct (tooDeep options (getIndentLevel line)).
Qed.

Lemma fullLoop_within lines options d st :
  o_maxDepth options = Some d ->
  Forall (fun l => (Z.of_nat (getIndentLevel l) <= d)%Z)
    (fullLoop lines options st).1.
Proof.
  intros Hd. revert st. induction lines as [|line rest IH]; intros st;
    [constructor|].
  cbn [fullLoop].
  pose proof (processLine_within line options st) as Hw.
  pose proof (kept_indent line options st) as Hi.
  destruct (processLine line options st) as [processed st'].
  specialize (IH st'). destruct (fullLoop rest options st') as [result st''].
  destruct processed as [l|]; [|done]. cbn [fst] in *.
  constructor; [|done]. rewrite (Hi l eq_refl).
  specialize (Hw l eq_refl). unfold tooDeep in Hw. rewrite Hd in Hw. lia.
Qed.

Lemma fullLoop_all_deep lines options d st :
  o_maxDepth options = Some d -> (d < 0)%Z ->
  fullLoop lines options st = ([], st).
Proof.
  intros Hd Hneg. induction lines as [|line rest IH]; [done|].
  cbn [fullLoop]. unfold processLine, tooDeep. rewrite Hd.
  destruct (Z.ltb_spec d (Z.of_nat (getIndentLevel line))); [|lia].
  by rewrite IH.
Qed.

(** X3.  With a depth limit, no line of the normal mode is indented deeper
    than the limit, with or without the compact pass; below zero the limit
    removes every line, the text is empty and no ref is allocated. *)
Theorem depth_limit_respected (ariaTree : str) (options : SnapshotOptions)
    (d : Z) (finalizeNth : bool) (st : St) :
  o_interactive options = false ->
  let limited := withMaxDepth options (Some d) in
  Forall (fun l => (Z.of_nat (getIndentLevel l) <= d)%Z)
    (processAriaTreeLines ariaTree limited finalizeNth st).1
  /\ ((d < 0)%Z ->
      (processAriaTree ariaTree limited finalizeNth st).1 = []
      /\ refCounter (processAriaTree ariaTree limited finalizeNth st).2
         = refCounter st).
Proof.
  intros Hi. cbv zeta. split.
  - pose proof (fullLoop_within (split ariaTree)
                  (withMaxDepth options (Some d)) d st eq_refl) as Hw.
    pose proof (fullLoop_noNewline (split ariaTree)
                  (withMaxDepth options (Some d)) st (split_noNewline _)) as Hn.
    unfold processAriaTreeLines. cbn [withMaxDepth o_interactive o_compact].
    rewrite Hi. destruct (fullLoop _ _ st) as [result st']. cbn [fst] in *.
    destruct (o_compact options); [|done]. cbn [fst].
    eapply Forall_sublist; [by apply compact_pass_sublist|done].
  - intros Hneg. unfold processAriaTree, processAriaTreeLines.
    cbn [withMaxDepth o_interactive o_compact]. rewrite Hi.
    rewrite (fullLoop_all_deep (split ariaTree)
               (withMaxDepth options (Some d)) d st eq_refl Hneg).
    by destruct (o_compact options), finalizeNth.
Qed.

Lemma depth_limit_respected_witness :
  Forall (fun l => (Z.of_nat (getIndentLevel l) <= 0)%Z)
    (processAriaTreeLines ("- list" ++ nl ++ "  - button")
       (withMaxDepth defaultOptions (Some 0%Z)) true initialState).1.
Proof.
  exact (proj1 (depth_limit_respected ("- list" ++ nl ++ "  - button")
                  defaultOptions 0%Z true initialState eq_refl)).
Defined.

Lemma classify_plain line options :
  o_interactive options = false -> o_compact options = false ->
  o_maxDepth options = None ->
  classify line options <> Dropped.
Proof.
  intros Hi Hc Hd. unfold classify, tooDeep. rewrite Hi, Hc, Hd.
  destruct (lineMatch line) as [m|]; [|done]. cbn [andb].
  destruct (startsWith "/" (lm_role m)); [done|].
  by destruct (shouldHaveRef m).
Qed.

Lemma fullLoop_plain lines options st :
  o_interactive options = false -> o_compact options = false ->
  o_maxDepth options = None ->
  Forall2 (fun line out =>
             annotates line out /\ getIndentLevel out = getIndentLevel line)
    lines (fullLoop lines options st).1.
Proof.
  intros Hi Hc Hd. revert st. induction lines as [|line rest IH]; intros st;
    [constructor|].
  cbn [fullLoop].
  pose proof (kept_indent line options st) as Hindent.
  rewrite processLine_classify in *.
  pose proof (classify_plain line options Hi Hc Hd) as Hk.
  destruct (classify line options) as [| |m] eqn:E; [done| |].
  - specialize (IH st). destruct (fullLoop rest options st).
    constructor; [|done]. split; [by left|done].
  - apply classify_annotated in E as (Hm & Href & _).
    destruct (assignRef _ _ st) as [[ref nth] st']. cbn [fst] in Hindent.
    specialize (IH st'). destruct (fullLoop rest options st').
    constructor; [|done]. split; [|by apply Hindent].
    right. by exists m, ref, nth.
Qed.

(** X4.  Without the interactive, compact and depth filters every line of the
    tree gives one line of the output, in order: the line itself, or the line
    with its ref, at the same indentation; the text has as many lines as the
    tree. *)
Theorem plain_mode_line_for_line (ariaTree : str) (options : SnapshotOptions)
    (finalizeNth : bool) (st : St) :
  o_interactive options = false -> o_compact options = false ->
  o_maxDepth options = None ->
  Forall2 (fun line out =>
             annotates line out /\ getIndentLevel out = getIndentLevel line)
    (split ariaTree) (processAriaTreeLines ariaTree options finalizeNth st).1
  /\ length (split (processAriaTree ariaTree options finalizeNth st).1)
     = length (split ariaTree).
Proof.
  intros Hi Hc Hd.
  pose proof (fullLoop_plain (split ariaTree) options st Hi Hc Hd) as H.
  pose proof (fullLoop_noNewline (split ariaTree) options st
                (split_noNewline _)) as Hn.
  unfold processAriaTree, processAriaTreeLines. rewrite Hi, Hc.
  destruct (fullLoop _ _ st) as [result st']. cbn [fst] in *.
  split; [done|].
  rewrite split_join; [by rewrite (Forall2_length _ _ _ H)| |done].
  intros ->. apply Forall2_nil_inv_r in H. by apply split_nonempty in H.
Qed.

Lemma plain_mode_line_for_line_witness :
  length (split (processAriaTree ("- list" ++ nl ++ "  - button")
                   defaultOptions true initialState).1)
  = length (split ("- list" ++ nl ++ "  - button")).
Proof.
  exact (proj2 (plain_mode_line_for_line ("- list" ++ nl ++ "  - button")
                  defaultOptions true initialState eq_refl eq_refl eq_refl)).
Defined.

End DepthLimit.

(** ** Every ref of the map is shown in the tree *)

Section RefsShown.

Lemma refsSet_keys ref entry (m : RefMap) r :
  r ∈ map fst (refsSet ref entry m) -> r = ref \/ r ∈ map fst m.
Proof.
  induction m as [|[k v] m IH]; cbn [refsSet map fst].
  - rewrite list_elem_of_singleton. by left.
  - unfold strEq. destruct (bool_decide (k = ref)) eqn:E; cbn [map fst].
    + by right.
    + rewrite !elem_of_cons. intros [->|H]; [by right; left|].
      destruct (IH H); [by left|by right; right].
Qed.

Lemma refsShown_refl texts st : refsShown texts st st.
Proof. intros r Hr. by left. Qed.

Lemma refsShown_trans a b st0 st1 st2 :
  refsShown a st0 st1 -> refsShown b st1 st2 -> refsShown (a ++ b) st0 st2.
Proof.
  intros H1 H2 r Hr. destruct (H2 r Hr) as [Hr1|(t & Ht & Hs)].
  - destruct (H1 r Hr1) as [?|(t & Ht & Hs)]; [by left|].
    right. exists t. split; [|done]. apply elem_of_app. by left.
  - right. exists t. split; [|done]. apply elem_of_app. by right.
Qed.

Lemma refsShown_mono a b st st' :
  refsShown a st st' ->
  (forall r t, t ∈ a -> includes (refTag r) t = true ->
     exists t', t' ∈ b /\ includes (refTag r) t' = true) ->
  refsShown b st st'.
Proof.
  intros H Hab r Hr. destruct (H r Hr) as [?|(t & Ht & Hs)]; [by left|].
  right. by apply (Hab r t).
Qed.

Lemma refsShown_removeNth texts st st' :
  refsShown texts st st' -> refsShown texts st (removeNthFromNonDuplicates st').
Proof. intros H r Hr. rewrite removeNth_keys in Hr. by apply H. Qed.

Lemma includes_prefix (a b s : str) :
  includes (a ++ b) s = true -> includes a s = true.
Proof.
  rewrite !includes_spec. intros (x & y & ->). exists x, (b ++ y).
  by rewrite <- app_assoc.
Qed.

Lemma includes_nil (needle : str) : needle <> [] -> includes needle [] = false.
Proof. by destruct needle. Qed.

Lemma placeholder_no_tag (t : str) r :
  isPlaceholder t = true -> includes (refTag r) t = false.
Proof.
  intros Hp. destruct (includes (refTag r) t) eqn:E; [|done].
  apply includes_prefix in E. unfold isPlaceholder, strEq in Hp.
  apply orb_true_iff in Hp as [Hp|Hp]; apply bool_decide_eq_true in Hp;
    subst t; discriminate E.
Qed.

Lemma join_includes (sep needle l : str) (ls : list str) :
  l ∈ ls -> includes needle l = true -> includes needle (join sep ls) = true.
Proof.
  intros Hin Hl. induction ls as [|x ls IH]; [by apply elem_of_nil in Hin|].
  apply elem_of_cons in Hin as [<-|Hin].
  - destruct ls; [done|]. by apply includes_app_l.
  - specialize (IH Hin). destruct ls as [|y ls]; [by apply elem_of_nil in Hin|].
    change (join sep (x :: y :: ls)) with (x ++ sep ++ join sep (y :: ls)).
    by do 2 apply includes_app_r.
Qed.

Lemma refsShown_join sep texts st st' :
  refsShown texts st st' -> refsShown [join sep texts] st st'.
Proof.
  intros H. apply (refsShown_mono _ _ _ _ H). intros r t Ht Hs.
  exists (join sep texts). split; [by apply list_elem_of_singleton|].
  by eapply join_includes.
Qed.

Lemma annotation_shows name ref nth :
  includes (refTag ref) (annotation name ref nth) = true.
Proof.
  unfold annotation, refTag. apply includes_app_r. apply includes_spec.
  exists " ", (if (0 <? nth)%N then " [nth=" ++ toString nth ++ "]" else []).
  cbn [app list_ascii_of_string]. by rewrite <- !app_assoc.
Qed.

Lemma render_shows m ref nth : includes (refTag ref) (render m ref nth) = true.
Proof.
  unfold render. do 2 apply includes_app_r. apply includes_app_l.
  apply annotation_shows.
Qed.

Lemma renderInteractive_shows m ref nth :
  includes (refTag ref) (renderInteractive m ref nth) = true.
Proof.
  unfold renderInteractive. do 2 apply includes_app_r. apply includes_app_l.
  apply annotation_shows.
Qed.

Lemma assignRef_shown role name st text :
  includes (refTag (assignRef role name st).1.1) text = true ->
  refsShown [text] st (assignRef role name st).2.
Proof.
  rewrite assignRef_eq. cbn [fst snd refs]. intros Ht r Hr.
  apply refsSet_keys in Hr as [->|Hr]; [|by left].
  right. exists text. split; [by apply list_elem_of_singleton|done].
Qed.

Lemma fullLoop_shown lines options st :
  refsShown (fullLoop lines options st).1 st (fullLoop lines options st).2.
Proof.
  revert st. induction lines as [|line rest IH]; intros st;
    [apply refsShown_refl|].
  cbn [fullLoop]. rewrite processLine_classify.
  destruct (classify line options) as [| |m].
  - specialize (IH st). by destruct (fullLoop rest options st).
  - specialize (IH st). destruct (fullLoop rest options st). cbn [fst snd] in *.
    apply (refsShown_trans [] _ st st _ (refsShown_refl _ _)) in IH.
    eapply refsShown_mono; [exact IH|]. intros r t Ht Hs. exists t.
    split; [by apply elem_of_cons; right|done].
  - pose proof (assignRef_shown (toLowerCase (lm_role m)) (lm_name m) st) as Ha.
    destruct (assignRef _ _ st) as [[ref nth] st']. cbn [fst snd] in Ha.
    specialize (Ha _ (render_shows m ref nth)).
    specialize (IH st'). destruct (fullLoop rest options st').
    cbn [fst snd] in *. exact (refsShown_trans _ _ _ _ _ Ha IH).
Qed.

Lemma interactiveLoop_shown lines st :
  refsShown (interactiveLoop lines st).1 st (interactiveLoop lines st).2.
Proof.
  revert st. induction lines as [|line rest IH]; intros st;
    [apply refsShown_refl|].
  cbn [interactiveLoop].
  destruct (lineMatch line) as [m|]; [|apply IH].
  destruct (memStr _ INTERACTIVE_ROLES); [|apply IH].
  pose proof (assignRef_shown (toLowerCase (lm_role m)) (lm_name m) st) as Ha.
  destruct (assignRef _ _ st) as [[ref nth] st']. cbn [fst snd] in Ha.
  specialize (Ha _ (renderInteractive_shows m ref nth)).
  specialize (IH st'). destruct (interactiveLoop rest st').
  cbn [fst snd] in *. exact (refsShown_trans _ _ _ _ _ Ha IH).
Qed.

Lemma compactLines_elem (l : str) (lines : list str) :
  l ∈ lines -> includes "[ref=" l = true -> l ∈ compactLines lines.
Proof.
  intros Hin Hr. induction lines as [|x lines IH]; [done|].
  cbn [compactLines]. apply elem_of_cons in Hin as [<-|Hin].
  - rewrite Hr. by left.
  - specialize (IH Hin). repeat case_match; try done; by right.
Qed.

Lemma processAriaTreeLines_shown ariaTree options finalizeNth st :
  refsShown (processAriaTreeLines ariaTree options finalizeNth st).1 st
            (processAriaTreeLines ariaTree options finalizeNth st).2.
Proof.
  unfold processAriaTreeLines. destruct (o_interactive options).
  - pose proof (interactiveLoop_shown (split ariaTree) st) as H.
    destruct (interactiveLoop _ st) as [result st']. cbn [fst snd] in *.
    destruct finalizeNth; [by apply refsShown_removeNth|done].
  - pose proof (fullLoop_shown (split ariaTree) options st) as H.
    pose proof (fullLoop_noNewline (split ariaTree) options st
                  (split_noNewline _)) as Hn.
    destruct (fullLoop _ _ st) as [result st']. cbn [fst snd] in *.
    assert (H' : refsShown result st
                   (if finalizeNth then removeNthFromNonDuplicates st' else st')).
    { destruct finalizeNth; [by apply refsShown_removeNth|done]. }
    destruct (o_compact options); [|done]. cbn [fst snd].
    eapply refsShown_mono; [exact H'|]. intros r t Ht Hs. exists t.
    split; [|done]. rewrite split_join; [|by intros ->; inversion Ht|done].
    apply compactLines_elem; [done|]. by apply includes_prefix in Hs.
Qed.

Lemma processAriaTree_shown ariaTree options finalizeNth st :
  refsShown [(processAriaTree ariaTree options finalizeNth st).1] st
            (processAriaTree ariaTree options finalizeNth st).2.
Proof.
  unfold processAriaTree.
  pose proof (processAriaTreeLines_shown ariaTree options finalizeNth st) as H.
  destruct (processAriaTreeLines _ _ _ st) as [result st']. cbn [fst snd] in *.
  apply (refsShown_join nl) in H.
  destruct (o_interactive options); [|done]. cbn [fst snd].
  eapply refsShown_mono; [exact H|]. intros r t Ht Hs.
  apply list_elem_of_singleton in Ht as ->. eexists. split; [by left|].
  unfold strOr. destruct (join nl result); [discriminate Hs|done].
Qed.

Lemma acquired_shown page options st r :
  try_catch (acquireTree page options st) (Returned (emptyText options, st))
    = Returned r ->
  refsShown [r.1] st r.2.
Proof.
  unfold acquireTree, try_catch, bindO.
  destruct (pg_ariaSnapshot _ _) as [ariaTree|];
    [|intros [= <-]; apply refsShown_refl].
  destruct (truthy ariaTree).
  - intros [= <-]. apply processAriaTree_shown.
  - destruct (o_interactive options); intros [= <-]; apply refsShown_refl.
Qed.

Lemma cursorLoop_shown els st :
  refsShown (cursorLoop els st).1 st (cursorLoop els st).2.
Proof.
  revert st. induction els as [|el rest IH]; intros st; [apply refsShown_refl|].
  rewrite cursorLoop_cons. cbv zeta. cbn [fst snd].
  eapply (refsShown_trans [_] _ st (cursorStep el st)); [|apply IH].
  intros r Hr. unfold cursorStep, nextRef in Hr. cbn [refs] in Hr.
  apply refsSet_keys in Hr as [->|Hr]; [|by left].
  right. eexists. split; [by left|].
  do 3 apply includes_app_r. apply includes_spec.
  exists " ", (" [" ++ join ", " (cursorHints el) ++ "]").
  unfold refTag. cbn [app list_ascii_of_string]. by rewrite <- !app_assoc.
Qed.

Lemma getEnhancedSnapshotForScope_shown page options st r :
  getEnhancedSnapshotForScope page options st = Returned r ->
  refsShown [r.1] st r.2.
Proof.
  unfold getEnhancedSnapshotForScope.
  destruct (acquired_steps page options st) as ([t st1] & Ha & _).
  pose proof (acquired_shown page options st _ Ha) as H1. rewrite Ha.
  cbn [bindO fst snd] in *.
  destruct (o_cursor options); [|by intros [= <-]].
  destruct (findCursorInteractiveElements_returns page (o_selector options))
    as [els ->]. cbn [bindO].
  pose proof (cursorLoop_shown els st1) as H2.
  destruct (cursorLoop els st1) as [[|l ls] st2]; cbn [fst snd] in *.
  - intros [= <-]. cbn [fst snd].
    exact (refsShown_trans [t] [] _ _ _ H1 H2).
  - intros [= <-]. cbn [fst snd].
    apply (refsShown_join nl) in H2.
    pose proof (refsShown_trans _ _ _ _ _ H1 H2) as H.
    eapply refsShown_mono; [exact H|]. intros r x Hx Hs.
    eexists. split; [by left|].
    apply elem_of_cons in Hx as [->|Hx].
    + destruct (isPlaceholder t) eqn:Hp.
      * by rewrite placeholder_no_tag in Hs.
      * by apply includes_app_l.
    + apply list_elem_of_singleton in Hx as ->. by do 2 apply includes_app_r.
Qed.

Lemma sectionLoop_shown page options selectors st r :
  sectionLoop page options selectors st = Returned r ->
  refsShown r.1 st r.2.
Proof.
  revert st r. induction selectors as [|sel rest IH]; intros st r;
    cbn [sectionLoop].
  - intros [= <-]. apply refsShown_refl.
  - destruct (getEnhancedSnapshotForScope_steps page
                (withSelector options (Some sel)) st) as ([t st1] & Hs & _).
    pose proof (getEnhancedSnapshotForScope_shown _ _ _ _ Hs) as H1.
    rewrite Hs. cbn [bindO fst snd] in *.
    destruct (sectionLoop_steps page options rest st1) as ([ps st2] & Hr & _).
    pose proof (IH _ _ Hr) as H2. rewrite Hr. cbn [bindO fst snd] in *.
    pose proof (refsShown_trans _ _ _ _ _ H1 H2) as H.
    destruct (_ || _) eqn:Hskip; intros [= <-]; cbn [fst snd]; [|done].
    eapply refsShown_mono; [exact H|]. intros x y Hy Hx.
    apply elem_of_cons in Hy as [->|Hy]; [|by exists y].
    exfalso. rewrite <- orb_assoc in Hskip.
    apply orb_true_iff in Hskip as [Hempty|Hp].
    + destruct t; [discriminate Hx|done].
    + rewrite placeholder_no_tag in Hx; [done|].
      unfold isPlaceholder. by rewrite orb_comm.
Qed.

Lemma buildMyheloRegionSection_shown page options selectors st r :
  buildMyheloRegionSection page options selectors st = Returned r ->
  refsShown [r.1] st r.2.
Proof.
  unfold buildMyheloRegionSection.
  destruct (sectionLoop_steps page options selectors st) as ([ps st1] & Hs & _).
  pose proof (sectionLoop_shown _ _ _ _ _ Hs) as H. rewrite Hs.
  cbn [bindO fst snd] in *.
  destruct ps as [|p ps]; intros [= <-]; cbn [fst snd].
  - exact (refsShown_trans [] [_] _ _ _ H (refsShown_refl _ _)).
  - exact (refsShown_join nl (p :: ps) _ _ H).
Qed.

Lemma regionLoop_shown page options regions st r :
  regionLoop page options regions st = Returned r ->
  refsShown r.1 st r.2.
Proof.
  revert st r. induction regions as [|region rest IH]; intros st r;
    cbn [regionLoop].
  - intros [= <-]. apply refsShown_refl.
  - destruct (buildMyheloRegionSection_steps page options
                (rg_selectors region) st) as ([t st1] & Hs & _).
    pose proof (buildMyheloRegionSection_shown _ _ _ _ _ Hs) as H1.
    rewrite Hs. cbn [bindO fst snd] in *.
    destruct (regionLoop_steps page options rest st1) as ([ss st2] & Hr & _).
    pose proof (IH _ _ Hr) as H2. rewrite Hr. cbn [bindO fst snd] in *.
    intros [= <-]. cbn [fst snd].
    pose proof (refsShown_trans _ _ _ _ _ H1 H2) as H.
    eapply refsShown_mono; [exact H|]. intros x y Hy Hx.
    apply elem_of_cons in Hy as [->|Hy]; [|by exists y; split; [right|]].
    eexists. split; [by left|].
    by apply (includes_app_r _ ("# " ++ rg_title region ++ ":" ++ nl) t) in Hx;
      rewrite <- !app_assoc in Hx.
Qed.

(** X5.  Every ref id of the ref map of a snapshot is shown in its tree: the
    text has the id between [[ref=] and the closing bracket, whatever the
    options, with regions or without. *)
Theorem snapshot_refs_shown (page : Page) (options : SnapshotOptions) (counter : N) :
  exists snap counter',
    getEnhancedSnapshot page options counter = Returned (snap, counter')
    /\ forall r, r ∈ map fst (snap_refs snap) ->
         includes (refTag r) (tree snap) = true.
Proof.
  unfold getEnhancedSnapshot.
  set (st0 := resetRefs (mkSt counter [] createRoleNameTracker)).
  assert (Hwhole : exists snap counter',
    (let! scoped := getEnhancedSnapshotForScope page options st0 in
     let st := removeNthFromNonDuplicates scoped.2 in
     Returned (mkSnapshot scoped.1 (refs st), refCounter st))
      = Returned (snap, counter')
    /\ forall r, r ∈ map fst (snap_refs snap) ->
         includes (refTag r) (tree snap) = true).
  { destruct (getEnhancedSnapshotForScope_steps page options st0)
      as ([t st1] & Hs & _).
    pose proof (getEnhancedSnapshotForScope_shown _ _ _ _ Hs) as H.
    rewrite Hs. cbn [bindO fst snd] in *. eexists _, _. split; [done|].
    cbn [snap_refs tree]. intros r Hr. rewrite removeNth_keys in Hr.
    destruct (H r Hr) as [Hold|(t' & Ht & Hshown)]; [by inversion Hold|].
    by apply list_elem_of_singleton in Ht as ->. }
  destruct (negb (truthyOpt (o_selector options))); [|exact Hwhole].
  destruct (getMyheloActiveRegions_returns page) as [regions ->]. cbn [bindO].
  destruct regions as [|region regions]; [exact Hwhole|].
  destruct (regionLoop_steps page options (region :: regions) st0)
    as ([ss st1] & Hs & _).
  pose proof (regionLoop_shown _ _ _ _ _ Hs) as H.
  rewrite Hs. cbn [bindO fst snd] in *. eexists _, _. split; [done|].
  cbn [snap_refs tree]. intros r Hr. rewrite removeNth_keys in Hr.
  destruct (H r Hr) as [Hold|(t' & Ht & Hshown)]; [by inversion Hold|].
  by eapply join_includes.
Qed.

End RefsShown.

(** ** The cursor detector: names, marks and scores *)

Section DetectorFacts.

Lemma candidateOf_shape el order c :
  candidateOf el order = Some c -> cursorShaped (emitCandidate c).
Proof.
  unfold candidateOf. set (pointer := strEq (el_cursor el) "pointer").
  destruct (memStr (toLowerCase (el_tagName el)) interactiveTags) eqn:Htag;
    [done|].
  destruct (match el_role el with Some _ => _ | None => _ end); [done|].
  destruct (negb _ && negb _ && negb _) eqn:Hmarks; [done|].
  destruct (_ || _ || _); [done|].
  destruct (el_rectEmpty el); [done|].
  assert (Hlen : length (sliceTo 100 (getBestText el)) <= 100).
  { unfold sliceTo. rewrite length_take. lia. }
  revert Hlen. generalize (sliceTo 100 (getBestText el)). intros text Hlen.
  destruct (negb (truthy text)) eqn:Htext; [done|].
  intros [= <-]. unfold cursorShaped, emitCandidate.
  cbn [ce_text ce_tagName ce_hasCursorPointer ce_hasOnClick ce_hasTabIndex
       c_text c_tagName c_hasCursorPointer c_hasOnClick c_hasTabIndex
       c_selector].
  split; [by apply negb_false_iff in Htext|].
  split; [done|].
  split; [|by apply memStr_false_inv].
  revert Hmarks.
  by destruct pointer, (el_onclick el),
    (match el_tabindex el with Some (Some n) => (0 <=? n)%Z | _ => false end).
Qed.

Lemma collectCandidates_shape els n :
  Forall (fun c => cursorShaped (emitCandidate c)) (collectCandidates els n).
Proof.
  revert n. induction els as [|el rest IH]; intros n; cbn [collectCandidates];
    [constructor|].
  destruct (candidateOf el n) as [c|] eqn:E; [|apply IH].
  constructor; [by eapply candidateOf_shape|apply IH].
Qed.

Lemma selectCandidates_elem candidates c :
  c ∈ selectCandidates candidates -> c ∈ candidates.
Proof.
  unfold selectCandidates. rewrite (jsSort_perm compareOrder).
  destruct (selectLoop_spec (jsSort compareCandidates candidates) [] I)
    as (acc & -> & Hsub & _).
  cbn [app]. intros H. rewrite <- (jsSort_perm compareCandidates candidates).
  by eapply elem_of_sublist.
Qed.

Lemma cursorHints_nonempty el :
  ce_hasCursorPointer el || ce_hasOnClick el || ce_hasTabIndex el = true ->
  cursorHints el <> [].
Proof.
  unfold cursorHints.
  by destruct (ce_hasCursorPointer el), (ce_hasOnClick el), (ce_hasTabIndex el).
Qed.

(** What the detector returns, whatever the page and the selector. *)
Lemma findCursorInteractiveElements_shape page selector :
  exists els,
    findCursorInteractiveElements page selector = Returned els
    /\ Forall cursorShaped els.
Proof.
  unfold findCursorInteractiveElements, evaluate, try_catch, bindO.
  destruct (pg_document page) as [doc|]; [|by exists []].
  unfold cursorQuery, bindO.
  destruct (querySelector doc _) as [found|]; [|by exists []].
  destruct (match found with Some r => Some r | None => doc_body doc end)
    as [root|]; [|by exists []].
  eexists. split; [done|]. apply Forall_forall. intros el Hel.
  apply list_elem_of_fmap in Hel as (c & -> & Hc).
  apply selectCandidates_elem in Hc.
  pose proof (collectCandidates_shape (root :: descendants doc root) 0) as H.
  rewrite Forall_forall in H. by apply H.
Qed.

(** X6.  Every element the cursor detector returns has a name of one to a
    hundred characters and at least one of the marks cursor:pointer, onclick
    and tabindex, so the list of hints of its line is never empty; its tag is
    none of the natively interactive ones.  The detector returns for every
    page and selector, and when the query in the page fails it returns the
    empty list. *)
Theorem cursor_elements_shaped (page : Page) (selector : option str) :
  exists els,
    findCursorInteractiveElements page selector = Returned els
    /\ Forall (fun el => cursorShaped el /\ cursorHints el <> []) els
    /\ (evaluate page (cursorQuery (strOr (default [] selector) "body")) = Threw ->
        els = []).
Proof.
  destruct (findCursorInteractiveElements_shape page selector)
    as (els & E & H).
  exists els. split; [done|]. split.
  - eapply Forall_impl; [exact H|].
    intros el Hel. split; [done|]. apply cursorHints_nonempty. apply Hel.
  - intros Hq. unfold findCursorInteractiveElements in E. rewrite Hq in E.
    by injection E as <-.
Qed.

Lemma cursor_elements_shaped_witness :
  findCursorInteractiveElements brokenPage None = Returned [].
Proof.
  destruct (cursor_elements_shaped brokenPage None) as (els & E & _ & H).
  rewrite E. f_equal. by apply H.
Defined.


Lemma collapseSpaces_head (s : str) :
  match collapseSpaces true s with
  | c :: _ => isSpace c = false
  | [] => True
  end.
Proof.
  induction s as [|c s IH]; [done|]. cbn [collapseSpaces].
  by destruct (isSpace c) eqn:E.
Qed.

Lemma collapseSpaces_singleSpaced (inRun : bool) (s : str) :
  singleSpaced (collapseSpaces inRun s) = true.
Proof.
  revert inRun. induction s as [|c s IH]; intros inRun; [done|].
  cbn [collapseSpaces]. destruct (isSpace c) eqn:E.
  - destruct inRun; [apply IH|]. cbn [app list_ascii_of_string singleSpaced].
    rewrite IH, andb_true_r. pose proof (collapseSpaces_head s) as H.
    destruct (collapseSpaces true s); [done|]. by rewrite H.
  - cbn [singleSpaced]. by rewrite E, IH.
Qed.

Lemma singleSpaced_app_r (a b : str) :
  singleSpaced (a ++ b) = true -> singleSpaced b = true.
Proof.
  induction a as [|c a IH]; [done|]. cbn [app singleSpaced].
  intros H. apply andb_true_iff in H as [_ H]. by apply IH.
Qed.

Lemma singleSpaced_app_l (a b : str) :
  singleSpaced (a ++ b) = true -> singleSpaced a = true.
Proof.
  induction a as [|c a IH]; [done|]. cbn [app singleSpaced].
  intros H. apply andb_true_iff in H as [Hc H]. rewrite (IH H), andb_true_r.
  destruct (isSpace c); [|done]. cbn [negb orb] in *.
  apply andb_true_iff in Hc as [-> Hc]. by destruct a.
Qed.

Lemma trim_spec (s : str) :
  exists a b, s = a ++ trim s ++ b /\ trimmed (trim s).
Proof.
  unfold trim. pose proof (span_eq isSpace s) as E1.
  pose proof (span_stop isSpace s) as S1.
  destruct (span isSpace s) as [a m]. cbn [fst snd] in *.
  pose proof (span_eq isSpace (rev m)) as E2.
  pose proof (span_stop isSpace (rev m)) as S2.
  destruct (span isSpace (rev m)) as [b t]. cbn [fst snd] in *.
  exists a, (rev b). split.
  - rewrite <- rev_app_distr, <- E2, rev_involutive. exact E1.
  - split.
    + destruct (rev t) as [|c r] eqn:Et; [done|].
      destruct b as [|x b].
      * cbn [app] in E2. rewrite <- E2, rev_involutive in Et.
        by apply (S1 c r).
      * assert (Hm : m = rev t ++ rev (x :: b)).
        { by rewrite <- rev_app_distr, <- E2, rev_involutive. }
        rewrite Et in Hm. by apply (S1 c (r ++ rev (x :: b))).
    + rewrite rev_involutive. destruct t as [|c r]; [done|]. by apply (S2 c r).
Qed.

Lemma collapseSpaces_fixed (inRun : bool) (s : str) :
  singleSpaced s = true ->
  (inRun = true -> match s with c :: _ => isSpace c = false | [] => True end) ->
  collapseSpaces inRun s = s.
Proof.
  revert inRun. induction s as [|c s IH]; intros inRun Hs Hh; [done|].
  cbn [collapseSpaces singleSpaced] in *.
  apply andb_true_iff in Hs as [Hc Hs]. destruct (isSpace c) eqn:E.
  - destruct inRun; [by specialize (Hh eq_refl)|].
    cbn [negb orb] in Hc. apply andb_true_iff in Hc as [Hc Hn].
    apply Ascii.eqb_eq in Hc as ->. cbn [app list_ascii_of_string].
    f_equal. apply IH; [done|]. intros _. destruct s; [done|].
    by apply negb_true_iff in Hn.
  - f_equal. by apply IH.
Qed.

Lemma span_head (p : ascii -> bool) (s : str) :
  match s with c :: _ => p c = false | [] => True end -> span p s = ([], s).
Proof. destruct s as [|c s]; [done|]. cbn [span]. by intros ->. Qed.

Lemma trim_fixed (s : str) : trimmed s -> trim s = s.
Proof.
  intros [Hh Hl]. unfold trim. rewrite (span_head _ _ Hh). cbn [snd].
  rewrite (span_head _ _ Hl). cbn [snd]. apply rev_involutive.
Qed.

(** X7.  A normalized text has no whitespace at either end and only single
    spaces inside, and normalizing it again changes nothing. *)
Theorem normalizeText_normal (value : str) :
  trimmed (normalizeText value)
  /\ singleSpaced (normalizeText value) = true
  /\ normalizeText (normalizeText value) = normalizeText value.
Proof.
  unfold normalizeText.
  destruct (trim_spec (collapseSpaces false value)) as (a & b & E & Ht).
  pose proof (collapseSpaces_singleSpaced false value) as Hs.
  rewrite E in Hs. apply singleSpaced_app_r, singleSpaced_app_l in Hs.
  split; [done|]. split; [done|].
  rewrite collapseSpaces_fixed; [by apply trim_fixed|done|done].
Qed.

(** X8.  The score orders the candidates by their marks, the heaviest first:
    title, then aria-label (counted only without a title), then the inline
    pointer cursor, then onclick, then tabindex; no sum of lighter marks
    outweighs a heavier one, and the score lies between 0 and 23. *)
Theorem score_orders_marks (a b : Candidate) :
  (scoreCandidate a <? scoreCandidate b)%Z = flagsLt (scoreFlags a) (scoreFlags b)
  /\ (0 <= scoreCandidate a <= 23)%Z.
Proof.
  unfold scoreCandidate, scoreFlags. cbn [flagsLt].
  destruct (c_hasTitle a), (c_hasAriaLabel a), (c_hasDirectCursorPointer a),
    (c_hasOnClick a), (c_hasTabIndex a);
  (split; [|cbn; lia]);
  destruct (c_hasTitle b), (c_hasAriaLabel b), (c_hasDirectCursorPointer b),
    (c_hasOnClick b), (c_hasTabIndex b); reflexivity.
Qed.

(** X9.  A candidate is named by its label: with a title that is not blank
    the name is the normalized title; without one, with an aria-label that is
    not blank, the normalized aria-label; only an element with neither is
    named by its visible text or, when that is blank, by its text content.
    The name is cut to a hundred characters. *)
Theorem candidate_named_by_label (el : Element) (order : nat) (c : Candidate) :
  candidateOf el order = Some c ->
  let title := normalizeText (default [] (el_title el)) in
  let ariaLabel := normalizeText (default [] (el_ariaLabel el)) in
  c_hasTitle c = truthy title
  /\ c_hasAriaLabel c = truthy ariaLabel
  /\ (c_hasTitle c = true -> c_text c = sliceTo 100 title)
  /\ (c_hasTitle c = false -> c_hasAriaLabel c = true ->
      c_text c = sliceTo 100 ariaLabel)
  /\ (labeled c = false ->
      c_text c = sliceTo 100
                   (strOr (getVisibleText el)
                      (normalizeText (default [] (el_textContent el))))).
Proof.
  unfold candidateOf.
  repeat match goal with
         | |- context [if ?b then None else _] => destruct b
         end; try done.
  intros [= <-]. cbv zeta. unfold labeled, getBestText, strOr.
  cbn [c_hasTitle c_hasAriaLabel c_text].
  destruct (truthy (normalizeText (default [] (el_title el))));
    destruct (truthy (normalizeText (default [] (el_ariaLabel el))));
    by repeat split.
Qed.

Lemma candidate_named_by_label_witness :
  exists c,
    candidateOf (exampleElement [0; 0] "DIV" "wrap" (Some ("Settings" : str))
                   "* Settings" "pointer" true) 0 = Some c
    /\ c_text c = sliceTo 100 (normalizeText "Settings").
Proof.
  destruct (candidateOf (exampleElement [0; 0] "DIV" "wrap"
                           (Some ("Settings" : str)) "* Settings" "pointer" true) 0)
    as [c|] eqn:E; [|vm_compute in E; discriminate E].
  exists c. split; [done|].
  destruct (candidate_named_by_label _ _ _ E) as (Ht & _ & Htext & _).
  apply Htext. rewrite Ht. reflexivity.
Defined.

End DetectorFacts.

(** ** The entries of the ref map *)

Section Entries.

Lemma classify_annotated_role line options m :
  classify line options = Annotated m ->
  toLowerCase (lm_role m) ∈ INTERACTIVE_ROLES
  \/ (o_interactive options = false
      /\ toLowerCase (lm_role m) ∈ CONTENT_ROLES
      /\ truthyOpt (lm_name m) = true).
Proof.
  unfold classify. destruct (tooDeep _ _); [done|].
  destruct (lineMatch line) as [m'|]; [|by destruct (o_interactive options)].
  destruct (startsWith _ _); [done|].
  destruct (o_interactive options && _) eqn:Hi; [done|].
  destruct (o_compact options && _ && _); [done|].
  unfold shouldHaveRef.
  destruct (memStr (toLowerCase (lm_role m')) INTERACTIVE_ROLES) eqn:E1.
  { intros [= <-]. left. by apply memStr_true. }
  destruct (memStr (toLowerCase (lm_role m')) CONTENT_ROLES) eqn:E2; [|done].
  destruct (truthyOpt (lm_name m')) eqn:E3; [|done].
  intros [= <-]. right. split; [|split; [by apply memStr_true|done]].
  by destruct (o_interactive options).
Qed.

Lemma processLine_produced line options cursor st :
  rtc (produced (o_interactive options) cursor) st (processLine line options st).2.
Proof.
  rewrite processLine_classify.
  destruct (classify line options) as [| |m] eqn:E; [done|done|].
  apply classify_annotated_role in E as [E|(Hi & E & Hn)].
  - pose proof (produced_interactive (o_interactive options) cursor
                  _ (lm_name m) st E) as H.
    destruct (assignRef _ _ st) as [[ref nth] st']. by apply rtc_once.
  - pose proof (produced_content (o_interactive options) cursor
                  _ (lm_name m) st Hi E Hn) as H.
    destruct (assignRef _ _ st) as [[ref nth] st']. by apply rtc_once.
Qed.

Lemma fullLoop_produced lines options cursor st :
  rtc (produced (o_interactive options) cursor) st (fullLoop lines options st).2.
Proof.
  revert st. induction lines as [|line rest IH]; intros st; cbn [fullLoop];
    [done|].
  pose proof (processLine_produced line options cursor st) as H1.
  destruct (processLine line options st) as [processed st']. cbn [snd] in H1.
  specialize (IH st'). destruct (fullLoop rest options st') as [result st''].
  cbn [snd] in IH. destruct processed; cbn [snd]; by etrans.
Qed.

Lemma interactiveLoop_produced lines interactive cursor st :
  rtc (produced interactive cursor) st (interactiveLoop lines st).2.
Proof.
  revert st. induction lines as [|line rest IH]; intros st;
    cbn [interactiveLoop]; [done|].
  destruct (lineMatch line) as [m|]; [|apply IH].
  destruct (memStr _ _) eqn:Hi; [|apply IH].
  apply memStr_true in Hi.
  pose proof (produced_interactive interactive cursor _ (lm_name m) st Hi) as H1.
  destruct (assignRef _ _ st) as [[ref nth] st']. cbn [snd] in H1.
  specialize (IH st'). destruct (interactiveLoop rest st') as [result st''].
  cbn [snd] in *. etrans; [apply rtc_once, H1|done].
Qed.

Lemma processAriaTree_produced ariaTree options cursor st :
  rtc (produced (o_interactive options) cursor) st
    (processAriaTree ariaTree options false st).2.
Proof.
  unfold processAriaTree, processAriaTreeLines.
  destruct (o_interactive options) eqn:Hi.
  - pose proof (interactiveLoop_produced (split ariaTree) true cursor st) as H.
    by destruct (interactiveLoop _ st).
  - pose proof (fullLoop_produced (split ariaTree) options cursor st) as H.
    rewrite Hi in H. destruct (fullLoop _ _ st).
    by destruct (o_compact options).
Qed.

Lemma cursorLoop_produced els interactive st :
  Forall cursorShaped els ->
  rtc (produced interactive true) st (cursorLoop els st).2.
Proof.
  intros H. revert st. induction H as [|el rest Hel _ IH]; intros st; [done|].
  rewrite cursorLoop_cons. cbv zeta. cbn [snd].
  etrans; [|apply IH]. by apply rtc_once, produced_cursor.
Qed.

Lemma getEnhancedSnapshotForScope_produced page options st r :
  getEnhancedSnapshotForScope page options st = Returned r ->
  rtc (produced (o_interactive options) (o_cursor options)) st r.2.
Proof.
  unfold getEnhancedSnapshotForScope.
  assert (Ha : exists a,
    try_catch (acquireTree page options st) (Returned (emptyText options, st))
      = Returned a
    /\ rtc (produced (o_interactive options) (o_cursor options)) st a.2).
  { unfold acquireTree, try_catch, bindO.
    destruct (pg_ariaSnapshot _ _) as [ariaTree|]; [|by eexists].
    destruct (truthy ariaTree).
    - eexists. split; [done|]. apply processAriaTree_produced.
    - destruct (o_interactive options); by eexists. }
  destruct Ha as ([t st1] & -> & H1). cbn [bindO fst snd] in *.
  destruct (o_cursor options) eqn:Hc; [|by intros [= <-]].
  destruct (findCursorInteractiveElements_shape page (o_selector options))
    as (els & -> & Hels). cbn [bindO].
  pose proof (cursorLoop_produced els (o_interactive options) st1 Hels) as H2.
  destruct (cursorLoop els st1) as [[|l ls] st2]; cbn [snd] in *;
    intros [= <-]; cbn [snd]; by etrans.
Qed.

Lemma sectionLoop_produced page options selectors st r :
  sectionLoop page options selectors st = Returned r ->
  rtc (produced (o_interactive options) (o_cursor options)) st r.2.
Proof.
  revert st r. induction selectors as [|sel rest IH]; intros st r;
    cbn [sectionLoop].
  - by intros [= <-].
  - destruct (getEnhancedSnapshotForScope_steps page
                (withSelector options (Some sel)) st) as ([t st1] & Hs & _).
    pose proof (getEnhancedSnapshotForScope_produced _ _ _ _ Hs) as H1.
    rewrite Hs. cbn [bindO fst snd withSelector o_interactive o_cursor] in *.
    destruct (sectionLoop_steps page options rest st1) as ([ps st2] & Hr & _).
    pose proof (IH _ _ Hr) as H2. rewrite Hr. cbn [bindO fst snd] in *.
    destruct (_ || _); intros [= <-]; cbn [snd]; by etrans.
Qed.

Lemma regionLoop_produced page options regions st r :
  regionLoop page options regions st = Returned r ->
  rtc (produced (o_interactive options) (o_cursor options)) st r.2.
Proof.
  revert st r. induction regions as [|region rest IH]; intros st r;
    cbn [regionLoop].
  - by intros [= <-].
  - unfold buildMyheloRegionSection.
    destruct (sectionLoop_steps page options (rg_selectors region) st)
      as ([ps st1] & Hs & _).
    pose proof (sectionLoop_produced _ _ _ _ _ Hs) as H1.
    rewrite Hs. cbn [bindO fst snd] in *.
    assert (Hb : exists body,
      (match ps with
       | _ :: _ => Returned (join nl ps, st1)
       | [] => Returned (emptyText options, st1)
       end) = Returned (body, st1)) by (destruct ps; by eexists).
    destruct Hb as [body ->]. cbn [bindO fst snd].
    destruct (regionLoop_steps page options rest st1) as ([ss st2] & Hr & _).
    pose proof (IH _ _ Hr) as H2. rewrite Hr. cbn [bindO fst snd] in *.
    intros [= <-]. cbn [snd]. by etrans.
Qed.

(** The top-level call with the options taken into account. *)
Lemma getEnhancedSnapshot_produced page options counter :
  exists text st,
    getEnhancedSnapshot page options counter
      = Returned (mkSnapshot text (refs (removeNthFromNonDuplicates st)),
                  refCounter st)
    /\ rtc (produced (o_interactive options) (o_cursor options)) initialState st.
Proof.
  unfold getEnhancedSnapshot.
  change (resetRefs _) with initialState.
  assert (Hwhole : exists text st,
    (let! scoped := getEnhancedSnapshotForScope page options initialState in
     Returned (mkSnapshot scoped.1 (refs (removeNthFromNonDuplicates scoped.2)),
               refCounter (removeNthFromNonDuplicates scoped.2)))
      = Returned (mkSnapshot text (refs (removeNthFromNonDuplicates st)),
                  refCounter st)
    /\ rtc (produced (o_interactive options) (o_cursor options)) initialState st).
  { destruct (getEnhancedSnapshotForScope_steps page options initialState)
      as ([t st1] & Hs & _).
    pose proof (getEnhancedSnapshotForScope_produced _ _ _ _ Hs) as H.
    rewrite Hs. cbn [bindO fst snd] in *. by exists t, st1. }
  destruct (negb _); [|exact Hwhole].
  destruct (getMyheloActiveRegions_returns page) as [[|r rs] ->]; cbn [bindO];
    [exact Hwhole|].
  destruct (regionLoop_steps page options (r :: rs) initialState)
    as ([ss st1] & Hs & _).
  pose proof (regionLoop_produced _ _ _ _ _ Hs) as H.
  rewrite Hs. cbn [bindO fst snd] in *. by eexists _, st1.
Qed.

Lemma refsSet_elem ref entry (m : RefMap) kv :
  kv ∈ refsSet ref entry m -> kv = (ref, entry) \/ kv ∈ m.
Proof.
  induction m as [|[k v] m IH]; cbn [refsSet].
  - rewrite list_elem_of_singleton. by left.
  - unfold strEq. destruct (bool_decide (k = ref)) eqn:E.
    + apply bool_decide_eq_true in E as ->.
      rewrite !elem_of_cons. intros [->|H]; [by left|by right; right].
    + rewrite !elem_of_cons. intros [->|H]; [by right; left|].
      destruct (IH H); [by left|by right; right].
Qed.

Lemma produced_entries interactive cursor st st' :
  produced interactive cursor st st' ->
  (forall kv, kv ∈ refs st -> entryOk interactive cursor kv.2) ->
  forall kv, kv ∈ refs st' -> entryOk interactive cursor kv.2.
Proof.
  intros Hstep Hinv kv. destruct Hstep as [role name st Hr|role name st Hi Hr Hn
                                           |el st Hc (Ht & Hl & _)].
  - rewrite assignRef_eq. cbn [snd refs]. intros H.
    apply refsSet_elem in H as [->|H]; [|by apply Hinv]. by left.
  - rewrite assignRef_eq. cbn [snd refs]. intros H.
    apply refsSet_elem in H as [->|H]; [|by apply Hinv]. right. by left.
  - unfold cursorStep, nextRef. cbn [refs]. intros H.
    apply refsSet_elem in H as [->|H]; [|by apply Hinv]. right. right.
    split; [done|]. split; [apply cursorRole_name|]. split; [done|].
    by exists (ce_text el).
Qed.

Lemma steps_entries_from interactive cursor st st' :
  rtc (produced interactive cursor) st st' ->
  (forall kv, kv ∈ refs st -> entryOk interactive cursor kv.2) ->
  forall kv, kv ∈ refs st' -> entryOk interactive cursor kv.2.
Proof. induction 1; eauto using produced_entries. Qed.

Lemma filter_all {A} (P : A -> Prop) `{!forall x, Decision (P x)} (l : list A) :
  Forall P l -> filter P l = l.
Proof.
  induction 1 as [|x l Hx _ IH]; [done|].
  by rewrite filter_cons, decide_True, IH.
Qed.

Lemma steps_entries interactive cursor st :
  rtc (produced interactive cursor) initialState st ->
  forall kv, kv ∈ refs (removeNthFromNonDuplicates st) ->
    entryOk interactive cursor kv.2.
Proof.
  intros Hsteps.
  assert (Hinv : forall kv, kv ∈ refs st -> entryOk interactive cursor kv.2).
  { apply (steps_entries_from _ _ _ _ Hsteps).
    intros kv H. by apply elem_of_nil in H. }
  intros kv H. unfold removeNthFromNonDuplicates in H. cbn [refs] in H.
  apply list_elem_of_fmap in H as (kv0 & -> & Hin). specialize (Hinv kv0 Hin).
  destruct (bool_decide _); [done|]. cbn [snd].
  destruct Hinv as [H|[[Hi H]|[Hc (H1 & H2 & H3)]]];
    [by left|by right; left|by right; right].
Qed.

(** X10.  Every entry of the ref map of a snapshot is of one of three kinds.
    An entry with an interactive role, or (outside the interactive mode) an
    entry with a content role and a non-empty name, has the role-and-name
    selector of its own role and name.  With the cursor option there are also
    the entries of the detector: role clickable or focusable, a name of one
    to a hundred characters, no nth. *)
Theorem snapshot_entries (page : Page) (options : SnapshotOptions) (counter : N) :
  exists snap counter',
    getEnhancedSnapshot page options counter = Returned (snap, counter')
    /\ forall kv, kv ∈ snap_refs snap ->
         entryOk (o_interactive options) (o_cursor options) kv.2.
Proof.
  destruct (getEnhancedSnapshot_produced page options counter)
    as (text & st & -> & Hsteps).
  eexists _, _. split; [done|]. cbn [snap_refs]. by apply steps_entries.
Qed.

Lemma cursorRoleName_not_interactive role :
  cursorRoleName role -> role ∉ INTERACTIVE_ROLES.
Proof. intros [->| ->]; by apply memStr_false_inv. Qed.

(** X11.  In the interactive mode without the cursor option every ref of a
    snapshot belongs to an interactive role: the statistics count as many
    interactive entries as refs. *)
Theorem interactive_snapshot_stats (page : Page) (options : SnapshotOptions)
    (counter : N) :
  o_interactive options = true -> o_cursor options = false ->
  exists snap counter',
    getEnhancedSnapshot page options counter = Returned (snap, counter')
    /\ Forall (fun kv : str * RefEntry => re_role kv.2 ∈ INTERACTIVE_ROLES)
         (snap_refs snap)
    /\ stat_interactive (getSnapshotStats (tree snap) (snap_refs snap))
       = stat_refs (getSnapshotStats (tree snap) (snap_refs snap)).
Proof.
  intros Hi Hc.
  destruct (getEnhancedSnapshot_produced page options counter)
    as (text & st & -> & Hsteps).
  eexists _, _. split; [done|]. cbn [snap_refs tree].
  pose proof (steps_entries _ _ _ Hsteps) as H. rewrite Hi, Hc in H.
  assert (Hall : Forall (fun kv : str * RefEntry =>
                           re_role kv.2 ∈ INTERACTIVE_ROLES)
                   (refs (removeNthFromNonDuplicates st))).
  { apply Forall_forall. intros kv Hkv.
    destruct (H kv Hkv) as [[Hr _]|[[? _]|[? _]]]; done. }
  split; [done|]. cbn [getSnapshotStats stat_interactive stat_refs].
  rewrite filter_all; [done|].
  eapply Forall_impl; [exact Hall|]. intros kv Hkv. by apply memStr_true.
Qed.

Lemma interactive_snapshot_stats_witness :
  exists snap counter',
    getEnhancedSnapshot (shellPage true true true)
      (mkOptions true false None false None) 0 = Returned (snap, counter')
    /\ stat_interactive (getSnapshotStats (tree snap) (snap_refs snap))
       = stat_refs (getSnapshotStats (tree snap) (snap_refs snap)).
Proof.
  destruct (interactive_snapshot_stats (shellPage true true true)
              (mkOptions true false None false None) 0 eq_refl eq_refl)
    as (snap & counter' & H & _ & Hstats).
  exists snap, counter'. split; [exact H|exact Hstats].
Defined.

End Entries.

(** ** Selectors and locators *)

Section Selectors.

Lemma escapeQuotes_cons (c : ascii) (s : str) :
  escapeQuotes (c :: s)
  = (if isQuote c then "\" ++ [chr_quote] else [c]) ++ escapeQuotes s.
Proof. reflexivity. Qed.

Lemma escapeQuotes_head (s : str) :
  match escapeQuotes s with
  | c :: _ => isQuote c = false
  | [] => True
  end.
Proof.
  destruct s as [|c s]; [done|]. rewrite escapeQuotes_cons.
  by destruct (isQuote c) eqn:E.
Qed.

Lemma escapeQuotes_inj (a b : str) : escapeQuotes a = escapeQuotes b -> a = b.
Proof.
  revert b. induction a as [|x a IH]; intros [|y b].
  - done.
  - rewrite escapeQuotes_cons. by destruct (isQuote y).
  - rewrite escapeQuotes_cons. by destruct (isQuote x).
  - rewrite !escapeQuotes_cons.
    pose proof (escapeQuotes_head a) as Ha.
    pose proof (escapeQuotes_head b) as Hb.
    destruct (isQuote x) eqn:Ex, (isQuote y) eqn:Ey; cbn [app list_ascii_of_string].
    + intros [= E]. apply isQuote_eq in Ex, Ey. subst. f_equal. by apply IH.
    + intros [= <- E]. rewrite <- E in Hb. done.
    + intros [= -> E]. rewrite E in Ha. done.
    + intros [= -> E]. f_equal. by apply IH.
Qed.

Lemma span_word_role (role rest : str) :
  wordOnly role = true ->
  match rest with c :: _ => isWord c = false | [] => True end ->
  span isWord (role ++ rest) = (role, rest).
Proof. intros H. apply span_app. by apply forallb_all. Qed.

(** The two forms of the selector, after the role. *)
Lemma buildSelector_eq role name :
  buildSelector role name
  = "getByRole('" ++ role
      ++ (if truthyOpt name
          then "', { name: " ++ [chr_quote] ++ escapeQuotes (default [] name)
                 ++ [chr_quote] ++ ", exact: true })"
          else "')").
Proof.
  unfold buildSelector. destruct name as [[|c n]|]; cbn [truthyOpt truthy default];
    try done.
Qed.

Lemma buildSelector_inj r1 n1 r2 n2 :
  wordOnly r1 = true -> wordOnly r2 = true ->
  buildSelector r1 n1 = buildSelector r2 n2 ->
  r1 = r2 /\ default [] n1 = default [] n2.
Proof.
  intros H1 H2. rewrite !buildSelector_eq. intros E.
  apply app_inv_head in E.
  assert (Hs : forall r n, wordOnly r = true ->
    span isWord (r ++ (if truthyOpt n
          then "', { name: " ++ [chr_quote] ++ escapeQuotes (default [] n)
                 ++ [chr_quote] ++ ", exact: true })"
          else "')"))
    = (r, if truthyOpt n
          then "', { name: " ++ [chr_quote] ++ escapeQuotes (default [] n)
                 ++ [chr_quote] ++ ", exact: true })"
          else "')")).
  { intros r n Hr. apply span_word_role; [done|]. by destruct (truthyOpt n). }
  pose proof (Hs r1 n1 H1) as S1. pose proof (Hs r2 n2 H2) as S2.
  rewrite E, S2 in S1. injection S1 as <- Hrest. split; [done|].
  destruct (truthyOpt n1) eqn:T1, (truthyOpt n2) eqn:T2; try done.
  - apply (app_inv_head ("', { name: " ++ [chr_quote])) in Hrest.
    apply (app_inv_tail ([chr_quote] ++ ", exact: true })")) in Hrest.
    apply escapeQuotes_inj in Hrest. done.
  - by destruct n1 as [[|? ?]|], n2 as [[|? ?]|].
Qed.

Lemma wordOnly_colonFree r : wordOnly r = true -> colonFree r = true.
Proof.
  unfold wordOnly, colonFree. rewrite !forallb_all. intros H.
  eapply Forall_impl; [exact H|].
  intros c. by destruct c as [[] [] [] [] [] [] [] []].
Qed.

Lemma getKey_inj r1 n1 r2 n2 :
  wordOnly r1 = true -> wordOnly r2 = true ->
  getKey r1 n1 = getKey r2 n2 ->
  r1 = r2 /\ default [] n1 = default [] n2.
Proof.
  intros H1 H2 E.
  pose proof (getKey_role_inj _ _ _ _ (wordOnly_colonFree _ H1)
                (wordOnly_colonFree _ H2) E) as <-.
  split; [done|]. unfold getKey in E. by do 2 apply app_inv_head in E.
Qed.

(** X12.  For roles made of word characters, two role-and-name pairs give the
    same selector exactly when the duplicate tracker files them under the
    same key: the same role, and the same name with a missing name read as
    the empty one. *)
Theorem selector_matches_key (r1 r2 : str) (n1 n2 : option str) :
  wordOnly r1 = true -> wordOnly r2 = true ->
  (buildSelector r1 n1 = buildSelector r2 n2 <-> getKey r1 n1 = getKey r2 n2)
  /\ (getKey r1 n1 = getKey r2 n2 <-> r1 = r2 /\ default [] n1 = default [] n2).
Proof.
  intros H1 H2.
  assert (Hback : r1 = r2 /\ default [] n1 = default [] n2 ->
            buildSelector r1 n1 = buildSelector r2 n2
            /\ getKey r1 n1 = getKey r2 n2).
  { intros [<- E]. unfold getKey. rewrite E. split; [|done].
    rewrite !buildSelector_eq.
    assert (truthyOpt n1 = truthyOpt n2) as <-.
    { by destruct n1 as [[|? ?]|], n2 as [[|? ?]|]. }
    by rewrite E. }
  split; split.
  - intros E. by apply Hback, buildSelector_inj.
  - intros E. by apply Hback, getKey_inj.
  - by apply getKey_inj.
  - intros E. by apply Hback.
Qed.

Lemma selector_matches_key_witness :
  buildSelector "button" None = buildSelector "button" (Some [])
  <-> getKey "button" None = getKey "button" (Some []).
Proof.
  exact (proj1 (selector_matches_key "button" "button" None (Some [])
                  eq_refl eq_refl)).
Defined.

Lemma treeRole_wordOnly r : treeRole r -> wordOnly r = true.
Proof.
  unfold treeRole, INTERACTIVE_ROLES, CONTENT_ROLES, strs. cbn [map].
  intros [H|H];
    repeat (apply elem_of_cons in H as [->|H]; [done|]);
    by apply elem_of_nil in H.
Qed.

Lemma produced_step interactive cursor st st' :
  produced interactive cursor st st' -> step st st'.
Proof.
  intros [role name s H|role name s _ H _|el s _ _].
  - apply step_tree. by left.
  - apply step_tree. by right.
  - apply step_cursor.
Qed.

Lemma produced_steps interactive cursor st st' :
  rtc (produced interactive cursor) st st' -> rtc step st st'.
Proof. induction 1; [done|]. econstructor; [by eapply produced_step|done]. Qed.

Lemma nths_NoDup n : NoDup (nths n).
Proof.
  unfold nths. apply NoDup_fmap_2_strong; [|apply NoDup_seq].
  intros i j _ _ [= H]. lia.
Qed.

Lemma NoDup_map_inj {A B} (f : A -> B) (l : list A) a b :
  NoDup (map f l) -> a ∈ l -> b ∈ l -> f a = f b -> a = b.
Proof.
  induction l as [|x l IH]; cbn [map]; [by intros _ H; apply elem_of_nil in H|].
  intros Hnd Ha Hb E. apply NoDup_cons in Hnd as [Hx Hnd].
  apply elem_of_cons in Ha as [->|Ha], Hb as [->|Hb]; [done| | |by apply IH].
  - destruct Hx. rewrite E. by apply list_elem_of_fmap_2.
  - destruct Hx. rewrite <- E. by apply list_elem_of_fmap_2.
Qed.

Lemma two_elements {A} (l : list A) a b :
  a ∈ l -> b ∈ l -> a <> b -> 2 <= length l.
Proof.
  destruct l as [|x [|y l]]; cbn [length]; [| |lia].
  - by intros H; apply elem_of_nil in H.
  - intros Ha%list_elem_of_singleton Hb%list_elem_of_singleton. congruence.
Qed.

(** The indices under a key of the tree that occurs at least twice, after the
    final clean-up. *)
Lemma final_sharing_nths st role name :
  trackInv st -> treeRole role ->
  2 <= length (sharing (getKey role name) (refs (removeNthFromNonDuplicates st))) ->
  map nthOf (sharing (getKey role name) (refs (removeNthFromNonDuplicates st)))
    = nths (length (sharing (getKey role name)
                      (refs (removeNthFromNonDuplicates st)))).
Proof.
  intros Hinv Htree. rewrite removeNth_sharing.
  pose proof (sharing_length_tracked st _ name Hinv Htree) as Hlen.
  pose proof (ti_nths st Hinv _ name Htree) as Hn.
  pose proof (getDuplicateKeys_spec (tracker st) (getKey role name)) as Hdup.
  destruct (bool_decide _) eqn:Hd.
  - intros _. rewrite <- (length_map nthOf (sharing _ _)), Hn.
    by rewrite nths_length.
  - rewrite length_map. intros H2. apply bool_decide_eq_false in Hd.
    destruct Hd. apply Hdup. lia.
Qed.

(** X13.  Two different refs of a snapshot that come from lines of the tree
    never stand for the same locator: when their selectors are equal, both
    carry an nth index and the two indices differ. *)
Theorem tree_refs_distinct_locators (page : Page) (options : SnapshotOptions)
    (counter : N) :
  exists snap counter',
    getEnhancedSnapshot page options counter = Returned (snap, counter')
    /\ forall kv1 kv2, kv1 ∈ snap_refs snap -> kv2 ∈ snap_refs snap ->
         kv1.1 <> kv2.1 ->
         treeRole (re_role kv1.2) -> treeRole (re_role kv2.2) ->
         re_selector kv1.2 = re_selector kv2.2 ->
         exists i j, re_nth kv1.2 = Some i /\ re_nth kv2.2 = Some j /\ i <> j.
Proof.
  destruct (getEnhancedSnapshot_produced page options counter)
    as (text & st & -> & Hsteps).
  eexists _, _. split; [done|]. cbn [snap_refs].
  pose proof (steps_entries _ _ _ Hsteps) as Hentries.
  pose proof (steps_trackInv _ _ (produced_steps _ _ _ _ Hsteps)
                initial_trackInv) as Hinv.
  intros kv1 kv2 Hin1 Hin2 Hne Ht1 Ht2 Hsel.
  assert (Hbuilt : forall kv, kv ∈ refs (removeNthFromNonDuplicates st) ->
            treeRole (re_role kv.2) ->
            re_selector kv.2 = buildSelector (re_role kv.2) (re_name kv.2)).
  { intros kv Hin Ht. destruct (Hentries kv Hin) as [[_ H]|[[_ (_ & _ & H)]|[_ (Hc & _)]]];
      [done|done|]. by destruct (treeRole_not_cursor _ Ht). }
  rewrite (Hbuilt kv1 Hin1 Ht1), (Hbuilt kv2 Hin2 Ht2) in Hsel.
  apply buildSelector_inj in Hsel as [Hrole Hname];
    [|by apply treeRole_wordOnly..].
  assert (Hkey : entryKey kv2.2 = entryKey kv1.2).
  { unfold entryKey, getKey. by rewrite Hrole, Hname. }
  set (es := sharing (entryKey kv1.2) (refs (removeNthFromNonDuplicates st))).
  assert (H1 : kv1 ∈ es) by (by apply list_elem_of_filter).
  assert (H2 : kv2 ∈ es) by (by apply list_elem_of_filter).
  assert (Hkv : kv1 <> kv2) by (by intros ->).
  pose proof (two_elements es kv1 kv2 H1 H2 Hkv) as Hlen.
  pose proof (final_sharing_nths st (re_role kv1.2) (re_name kv1.2) Hinv Ht1 Hlen)
    as Hn. fold (entryKey kv1.2) in Hn. fold es in Hn.
  assert (Hin : forall kv, kv ∈ es -> exists i, re_nth kv.2 = Some i).
  { intros kv Hkvin.
    assert (Hk : nthOf kv ∈ map nthOf es) by (by apply list_elem_of_fmap_2).
    rewrite Hn in Hk. unfold nths in Hk.
    apply list_elem_of_fmap in Hk as (i & Hi & _). by exists (N.of_nat i). }
  destruct (Hin kv1 H1) as [i Hi], (Hin kv2 H2) as [j Hj].
  exists i, j. split; [done|]. split; [done|]. intros ->. apply Hkv.
  apply (NoDup_map_inj nthOf es); [|done|done|].
  - rewrite Hn. apply nths_NoDup.
  - unfold nthOf. by rewrite Hi, Hj.
Qed.

End Selectors.

(** ** The two versions of the entry point *)

Section Versions.

Lemma processAriaTree_finalize ariaTree options st :
  processAriaTree ariaTree options true st
  = ((processAriaTree ariaTree options false st).1,
     removeNthFromNonDuplicates (processAriaTree ariaTree options false st).2).
Proof.
  unfold processAriaTree, processAriaTreeLines.
  destruct (o_interactive options).
  - by destruct (interactiveLoop _ st).
  - destruct (fullLoop _ _ st). by destruct (o_compact options).
Qed.

Lemma refsSet_map (f : RefEntry -> RefEntry) ref entry (m : RefMap) :
  f entry = entry ->
  map (fun kv : str * RefEntry => (kv.1, f kv.2)) (refsSet ref entry m)
  = refsSet ref entry (map (fun kv : str * RefEntry => (kv.1, f kv.2)) m).
Proof.
  intros Hf. induction m as [|[k v] m IH]; cbn [refsSet map fst snd].
  - by rewrite Hf.
  - destruct (strEq k ref); cbn [map fst snd]; [by rewrite Hf|by rewrite IH].
Qed.

Lemma removeNth_eq st :
  removeNthFromNonDuplicates st
  = mkSt (refCounter st)
      (map (fun kv : str * RefEntry => (kv.1, stripNth (tracker st) kv.2))
         (refs st))
      (tracker st).
Proof.
  unfold removeNthFromNonDuplicates. f_equal. apply map_ext.
  intros [k v]. unfold stripNth, entryKey. cbn [fst snd].
  by destruct (bool_decide _).
Qed.

Lemma cursorStep_removeNth el st :
  cursorStep el (removeNthFromNonDuplicates st)
  = removeNthFromNonDuplicates (cursorStep el st).
Proof.
  rewrite (removeNth_eq (cursorStep el st)), (removeNth_eq st).
  unfold cursorStep, nextRef. cbn [refs tracker refCounter]. f_equal.
  symmetry. apply (refsSet_map (stripNth (tracker st))).
  unfold stripNth. by destruct (bool_decide _).
Qed.

Lemma cursorLoop_removeNth els st :
  cursorLoop els (removeNthFromNonDuplicates st)
  = ((cursorLoop els st).1, removeNthFromNonDuplicates (cursorLoop els st).2).
Proof.
  revert st. induction els as [|el rest IH]; intros st; [done|].
  rewrite !cursorLoop_cons. cbv zeta. cbn [fst snd].
  rewrite cursorStep_removeNth, IH. done.
Qed.

Lemma interactive_text_not_empty ariaTree options finalizeNth st :
  o_interactive options = true ->
  (processAriaTree ariaTree options finalizeNth st).1 <> textEmpty.
Proof.
  intros Hi. unfold processAriaTree, processAriaTreeLines. rewrite Hi.
  pose proof (interactiveLoop_lines (split ariaTree) st) as H.
  destruct (interactiveLoop _ st) as [result st']. cbn [fst] in *.
  destruct H as [|l ls Hl _]; [done|].
  apply startsWith_spec in Hl as [t ->]. by destruct ls.
Qed.

(** X14.  When the accessibility tree is acquired and not empty, and no
    region layout is in play (a selector is given, or no region is
    detected), the entry point of [src/snapshot.ts] and the region-aware one
    return the same snapshot and leave the same counter.  With the cursor
    option this needs the tree text not to be the placeholder [(empty)],
    which the interactive mode never produces. *)
Theorem versions_agree (page : Page) (options : SnapshotOptions) (counter : N)
    (ariaTree : str) :
  pg_ariaSnapshot page (scopeLocator options) = Returned ariaTree ->
  truthy ariaTree = true ->
  truthyOpt (o_selector options) = true
    \/ getMyheloActiveRegions page = Returned [] ->
  o_cursor options = false \/ o_interactive options = true
    \/ (processAriaTree ariaTree options true initialState).1 <> textEmpty ->
  Legacy.getEnhancedSnapshot page options counter
    = getEnhancedSnapshot page options counter.
Proof.
  intros Htree Hne Hregions Htext.
  assert (Htext' : o_cursor options = false
            \/ strEq (processAriaTree ariaTree options false initialState).1
                 textEmpty = false).
  { destruct Htext as [?|[Hi|H]]; [by left|right..].
    - apply bool_decide_eq_false. by apply interactive_text_not_empty.
    - apply bool_decide_eq_false. by rewrite processAriaTree_finalize in H. }
  assert (Hwhole :
    Legacy.getEnhancedSnapshot page options counter
    = let! scoped := getEnhancedSnapshotForScope page options initialState in
      let st := removeNthFromNonDuplicates scoped.2 in
      Returned (mkSnapshot scoped.1 (refs st), refCounter st)).
  { unfold Legacy.getEnhancedSnapshot, Legacy.processAriaTree,
      getEnhancedSnapshotForScope, acquireTree.
    change (resetRefs _) with initialState.
    change (mkSt (refCounter initialState) (refs initialState)
              createRoleNameTracker) with initialState.
    unfold scopeLocator in Htree. rewrite Htree. cbn [bindO try_catch].
    rewrite Hne. cbn [negb try_catch bindO].
    rewrite processAriaTree_finalize.
    destruct (processAriaTree ariaTree options false initialState) as [t st'].
    cbn [fst snd] in *.
    destruct (o_cursor options); [|done].
    destruct (findCursorInteractiveElements_returns page (o_selector options))
      as [els ->]. cbn [bindO].
    rewrite cursorLoop_removeNth.
    destruct (cursorLoop els st') as [[|l ls] st2]; cbn [fst snd bindO]; [done|].
    destruct Htext' as [?|Ht]; [done|].
    unfold isPlaceholder. rewrite Ht, orb_false_r. done. }
  rewrite Hwhole. unfold getEnhancedSnapshot.
  change (resetRefs _) with initialState.
  destruct Hregions as [-> | ->]; [done|].
  by destruct (negb _).
Qed.

Lemma versions_agree_witness :
  Legacy.getEnhancedSnapshot (shellPage true true true)
    (mkOptions true true None false (Some ("#contents-center" : str))) 0
  = getEnhancedSnapshot (shellPage true true true)
      (mkOptions true true None false (Some ("#contents-center" : str))) 0.
Proof.
  apply (versions_agree (shellPage true true true)
           (mkOptions true true None false (Some ("#contents-center" : str))) 0
           ("- button" ++ quoted "Conversation")).
  - reflexivity.
  - reflexivity.
  - by left.
  - right. by left.
Defined.

End Versions.

(** ** Regions: top-level elements and the detection of the shell *)

Section TopLevel.

Lemma isPrefix_refl (p : list nat) : isPrefix p p = true.
Proof. induction p as [|a p IH]; [done|]. cbn. by rewrite Nat.eqb_refl. Qed.

Lemma isPrefix_length (p q : list nat) :
  isPrefix p q = true -> length p <= length q.
Proof.
  revert q. induction p as [|a p IH]; intros [|b q]; cbn; try done; [lia|].
  intros H. apply andb_true_iff in H as [_ H]. apply IH in H. lia.
Qed.

Lemma isPrefix_same_length (p q : list nat) :
  isPrefix p q = true -> length p = length q -> p = q.
Proof.
  revert q. induction p as [|a p IH]; intros [|b q]; cbn; try done.
  intros H Hl. apply andb_true_iff in H as [Hab H].
  apply Nat.eqb_eq in Hab as ->. f_equal. apply IH; [done|lia].
Qed.

Lemma contains_refl (a : Element) : contains a a = true.
Proof. apply isPrefix_refl. Qed.

Lemma contains_back (a b : Element) :
  getDepth a <= getDepth b -> contains b a = true -> contains a b = true.
Proof.
  unfold contains, getDepth. intros Hd H.
  pose proof (isPrefix_length _ _ H) as Hl.
  rewrite (isPrefix_same_length _ _ H) by lia. apply isPrefix_refl.
Qed.

Lemma uniqueElements_sub (l : list Element) e :
  e ∈ uniqueElements l -> e ∈ l.
Proof.
  induction l as [|x l IH]; cbn [uniqueElements]; [done|].
  rewrite !elem_of_cons, list_elem_of_filter. intros [->|[_ H]]; [by left|].
  right. by apply IH.
Qed.

Lemma uniqueElements_cover (l : list Element) e :
  e ∈ l -> exists u, u ∈ uniqueElements l /\ el_path u = el_path e.
Proof.
  induction l as [|x l IH]; [by intros H; apply elem_of_nil in H|].
  cbn [uniqueElements]. intros H.
  apply elem_of_cons in H as [->|H]; [exists x; split; [by left|done]|].
  destruct (IH H) as (u & Hu & Hp).
  destruct (sameElement x u) eqn:E.
  - exists x. split; [by left|]. apply bool_decide_eq_true in E. congruence.
  - exists u. split; [|done]. right. apply list_elem_of_filter.
    split; [by rewrite E|done].
Qed.

Lemma StronglySorted_sublist {A} (R : A -> A -> Prop) (l1 l2 : list A) :
  sublist l1 l2 -> StronglySorted R l2 -> StronglySorted R l1.
Proof.
  intros Hsub Hs. revert l1 Hsub.
  induction Hs as [|x l2 Hs IH Hx]; intros l1 Hsub.
  - apply sublist_nil_r in Hsub as ->. constructor.
  - apply sublist_cons_r in Hsub as [Hsub|(l1' & -> & Hsub)]; [by apply IH|].
    constructor; [by apply IH|]. by eapply Forall_sublist.
Qed.

Lemma StronglySorted_snoc {A} (R : A -> A -> Prop) (l : list A) x :
  StronglySorted R l -> Forall (fun y => R y x) l -> StronglySorted R (l ++ [x]).
Proof.
  intros Hs Hx. apply StronglySorted_app_2; [|done|by repeat constructor].
  intros a b Ha Hb. apply list_elem_of_singleton in Hb as ->.
  rewrite Forall_forall in Hx. by apply Hx.
Qed.

Lemma topLevelLoop_spec candidates selected :
  StronglySorted (fun a b => contains a b = false) selected ->
  exists accepted,
    topLevelLoop candidates selected = selected ++ accepted
    /\ sublist accepted candidates
    /\ StronglySorted (fun a b => contains a b = false) (selected ++ accepted)
    /\ (forall c, c ∈ candidates ->
          exists p, p ∈ selected ++ accepted /\ contains p c = true).
Proof.
  revert selected. induction candidates as [|c rest IH]; intros selected Hs.
  - exists []. rewrite app_nil_r. split; [done|]. split; [done|].
    split; [done|]. intros c H. by apply elem_of_nil in H.
  - cbn [topLevelLoop].
    destruct (existsb (fun picked => contains picked c) selected) eqn:E.
    + destruct (IH selected Hs) as (acc & -> & Hsub & Hsorted & Hcover).
      exists acc. split; [done|]. split; [by apply sublist_cons|].
      split; [done|]. intros c' Hin.
      apply elem_of_cons in Hin as [->|Hin]; [|by apply Hcover].
      apply existsb_exists in E as (p & Hin & Hp). exists p.
      split; [|done]. apply elem_of_app. left. by apply list_elem_of_In.
    + assert (Hnew : StronglySorted (fun a b => contains a b = false)
                       (selected ++ [c])).
      { apply StronglySorted_snoc; [done|]. apply Forall_forall. intros p Hp.
        destruct (contains p c) eqn:Hpc; [|done].
        assert (existsb (fun picked => contains picked c) selected = true);
          [|congruence].
        apply existsb_exists. exists p. split; [by apply list_elem_of_In|done]. }
      destruct (IH (selected ++ [c]) Hnew) as (acc & -> & Hsub & Hsorted & Hcover).
      exists (c :: acc). rewrite <- app_assoc in *. cbn [app] in *.
      split; [done|]. split; [by apply sublist_skip|]. split; [done|].
      intros c' Hin. apply elem_of_cons in Hin as [->|Hin]; [|by apply Hcover].
      exists c. split; [|apply contains_refl].
      apply elem_of_app. right. by left.
Qed.

Lemma contains_path (p a b : Element) :
  el_path a = el_path b -> contains p a = contains p b.
Proof. unfold contains. by intros ->. Qed.

Lemma dedupe_sub (elements : list Element) e :
  e ∈ dedupeTopLevelElements elements -> e ∈ elements.
Proof.
  unfold dedupeTopLevelElements.
  destruct (topLevelLoop_spec (jsSort compareDepth (uniqueElements elements)) []
              ltac:(constructor)) as (acc & -> & Hsub & _).
  cbn [app]. intros He. apply uniqueElements_sub.
  rewrite <- (jsSort_perm compareDepth). by eapply elem_of_sublist.
Qed.

Lemma dedupe_cover (elements : list Element) e :
  e ∈ elements ->
  exists p, p ∈ dedupeTopLevelElements elements /\ contains p e = true.
Proof.
  unfold dedupeTopLevelElements.
  destruct (topLevelLoop_spec (jsSort compareDepth (uniqueElements elements)) []
              ltac:(constructor)) as (acc & -> & _ & _ & Hcover).
  cbn [app] in *. intros He.
  destruct (uniqueElements_cover _ _ He) as (u & Hu & Hp).
  rewrite <- (jsSort_perm compareDepth) in Hu.
  destruct (Hcover u Hu) as (p & Hin & Hc).
  exists p. split; [done|]. by rewrite <- (contains_path p u e Hp).
Qed.

(** X15.  The elements kept as top level are elements of the input, each
    input element lies within one of them, and no kept element lies within
    another; they come shallowest first. *)
Theorem dedupe_top_level (elements : list Element) :
  let selected := dedupeTopLevelElements elements in
  (forall e, e ∈ selected -> e ∈ elements)
  /\ (forall e, e ∈ elements -> exists p, p ∈ selected /\ contains p e = true)
  /\ StronglySorted apart selected.
Proof.
  cbv zeta. split; [apply dedupe_sub|]. split; [apply dedupe_cover|].
  unfold dedupeTopLevelElements.
  set (sorted := jsSort compareDepth (uniqueElements elements)).
  assert (Hdepth : StronglySorted (fun a b => getDepth a <= getDepth b) sorted).
  { eapply StronglySorted_weaken; [|apply (jsSort_sorted compareDepth)].
    - intros a b. unfold compareDepth. lia.
    - intros a b. unfold compareDepth. lia.
    - intros a b c. unfold compareDepth. lia. }
  destruct (topLevelLoop_spec sorted [] ltac:(constructor))
    as (acc & -> & Hsub & Hsorted & _).
  cbn [app] in *.
  apply (StronglySorted_sublist _ _ _ Hsub) in Hdepth.
  clear -Hsorted Hdepth. induction acc as [|a acc IH]; [constructor|].
  apply StronglySorted_inv in Hsorted as [Hs Ha].
  apply StronglySorted_inv in Hdepth as [Hd Hda].
  constructor; [by apply IH|].
  rewrite Forall_forall in *. intros b Hb. specialize (Ha b Hb).
  specialize (Hda b Hb). split; [done|]. split; [|done].
  destruct (contains b a) eqn:E; [|done].
  by rewrite (contains_back a b Hda E) in Ha.
Qed.

Lemma querySelector_found doc sel e :
  querySelector doc sel = Returned (Some e) ->
  exists p, doc_matches doc sel = Some p /\ e ∈ doc_elements doc /\ p e = true.
Proof.
  unfold querySelector, querySelectorAll, bindO.
  destruct (doc_matches doc sel) as [p|]; [|done]. intros [= H].
  exists p. split; [done|].
  assert (Hin : e ∈ filter (fun x => p x = true) (doc_elements doc)).
  { destruct (filter _ _) as [|x l]; [done|]. injection H as ->. by left. }
  apply list_elem_of_filter in Hin as [? ?]. done.
Qed.

Lemma anyMatch_true doc selectors :
  anyMatch doc selectors = Returned true -> present doc selectors.
Proof.
  induction selectors as [|sel rest IH]; cbn [anyMatch]; [done|].
  destruct (querySelector doc sel) as [[e|]|] eqn:E; cbn [bindO]; [| |done].
  - intros _. destruct (querySelector_found _ _ _ E) as (p & Hp & Hin & He).
    exists sel, p, e. split; [by left|done].
  - intros H. destruct (IH H) as (s & p & e & Hs & Hrest).
    exists s, p, e. split; [by right|done].
Qed.

(** X16.  Regions are reported only for a page whose document has both an
    element of a contents pane and an element of a sidebar or drawer: without
    one of the two no region is returned, whatever else the page has, a
    floating button included. *)
Theorem regions_need_shell (page : Page) (regions : list SnapshotRegion) :
  getMyheloActiveRegions page = Returned regions -> regions <> [] ->
  exists doc,
    pg_document page = Returned doc
    /\ present doc (strs [ "#panel-center"; "#contents-center";
                          ".component.reverb.threads";
                          ".component.reverb.messages" ])
    /\ present doc (strs [ "#sidebar-center"; "#drawer-container";
                          ".component.reverb.sidebar" ]).
Proof.
  unfold getMyheloActiveRegions, evaluate, try_catch, bindO.
  destruct (pg_document page) as [doc|]; [|by intros [= <-]].
  intros H Hne. exists doc. split; [done|].
  unfold regionsQuery, hasMyheloSubLayout, bindO in H.
  destruct (anyMatch doc (strs [ "#panel-center"; _; _; _ ]))
    as [[|]|] eqn:E1; [| |]; try (by injection H as <-).
  destruct (anyMatch doc (strs [ "#sidebar-center"; _; _ ]))
    as [[|]|] eqn:E2; [| |]; try (by injection H as <-).
  split; by apply anyMatch_true.
Qed.

Lemma regions_need_shell_witness :
  exists doc,
    pg_document (shellPage true false true) = Returned doc
    /\ present doc (strs [ "#panel-center"; "#contents-center";
                          ".component.reverb.threads";
                          ".component.reverb.messages" ])
    /\ present doc (strs [ "#sidebar-center"; "#drawer-container";
                          ".component.reverb.sidebar" ]).
Proof.
  destruct (getMyheloActiveRegions (shellPage true false true))
    as [regions|] eqn:E.
  - apply (regions_need_shell (shellPage true false true) regions E).
    vm_compute in E. injection E as <-. discriminate.
  - vm_compute in E. discriminate E.
Defined.

Lemma collectMatches_spec doc candidateSelectors matches :
  collectMatches doc candidateSelectors = Returned matches ->
  forall e, e ∈ matches <->
    el_onScreenAndVisible e = true
    /\ exists sel p, sel ∈ candidateSelectors /\ doc_matches doc sel = Some p
         /\ e ∈ doc_elements doc /\ p e = true.
Proof.
  revert matches. induction candidateSelectors as [|sel rest IH];
    intros matches; cbn [collectMatches].
  - intros [= <-] e. split; [by intros H; apply elem_of_nil in H|].
    intros (_ & s & p & H & _). by apply elem_of_nil in H.
  - unfold querySelectorAll.
    destruct (doc_matches doc sel) as [p|] eqn:Hp; [|done]. cbn [bindO].
    destruct (collectMatches doc rest) as [more|]; [|done]. cbn [bindO].
    intros [= <-] e. specialize (IH more eq_refl e).
    rewrite elem_of_app, !list_elem_of_filter, IH. split.
    + intros [(Hon & He & Hin)|(Hon & s & q & Hs & Hrest)].
      * split; [done|]. exists sel, p. split; [by left|done].
      * split; [done|]. exists s, q. split; [by right|done].
    + intros (Hon & s & q & Hs & Hq & Hin & He).
      apply elem_of_cons in Hs as [->|Hs].
      * left. rewrite Hp in Hq. injection Hq as <-. done.
      * right. split; [done|]. by exists s, q.
Qed.

(** X17.  The selectors found for a region are the selectors of elements
    that match one of its candidate selectors and are on screen and
    visible; the list is empty, and the region is left out, exactly when no
    such element exists. *)
Theorem region_selectors_on_screen (doc : Document)
    (candidateSelectors selectors : list str) :
  collectRegionSelectors doc candidateSelectors = Returned selectors ->
  (forall s, s ∈ selectors ->
     exists e sel p,
       s = el_uniqueSelector e /\ el_onScreenAndVisible e = true
       /\ sel ∈ candidateSelectors /\ doc_matches doc sel = Some p
       /\ e ∈ doc_elements doc /\ p e = true)
  /\ (selectors = [] <->
      forall e sel p,
        sel ∈ candidateSelectors -> doc_matches doc sel = Some p ->
        e ∈ doc_elements doc -> p e = true ->
        el_onScreenAndVisible e = false).
Proof.
  unfold collectRegionSelectors.
  destruct (collectMatches doc candidateSelectors) as [matches|] eqn:E; [|done].
  cbn [bindO]. intros [= <-].
  pose proof (collectMatches_spec _ _ _ E) as Hm. split; [|split].
  - intros s Hs. apply list_elem_of_fmap in Hs as (e & -> & He).
    apply dedupe_sub, Hm in He as (Hon & sel & p & Hrest).
    by exists e, sel, p.
  - intros Hnil e sel p Hsel Hp Hin He.
    destruct (el_onScreenAndVisible e) eqn:Hon; [|done].
    assert (Hmatch : e ∈ matches) by (apply Hm; split; [done|]; by exists sel, p).
    destruct (dedupe_cover _ _ Hmatch) as (q & Hq & _).
    apply (list_elem_of_fmap_2 el_uniqueSelector) in Hq.
    change (el_uniqueSelector <$> dedupeTopLevelElements matches)
      with (map el_uniqueSelector (dedupeTopLevelElements matches)) in Hq.
    rewrite Hnil in Hq. by apply elem_of_nil in Hq.
  - intros Hnone.
    destruct (dedupeTopLevelElements matches) as [|e l] eqn:Hd; [done|].
    assert (He : e ∈ dedupeTopLevelElements matches) by (rewrite Hd; by left).
    apply dedupe_sub, Hm in He as (Hon & sel & p & Hsel & Hp & Hin & Hpe).
    by rewrite (Hnone e sel p Hsel Hp Hin Hpe) in Hon.
Qed.

Lemma region_selectors_on_screen_witness :
  exists doc e,
    pg_document (shellPage true true true) = Returned doc
    /\ e ∈ doc_elements doc
    /\ ("#contents-center" : str) = el_uniqueSelector e
    /\ el_onScreenAndVisible e = true.
Proof.
  destruct (pg_document (shellPage true true true)) as [doc|] eqn:Hdoc;
    [|discriminate Hdoc].
  exists doc. injection Hdoc as Hdoc.
  assert (H : collectRegionSelectors doc (rd_candidates contentsDefinition)
              = Returned ["#contents-center" : str]).
  { rewrite <- Hdoc. vm_compute. reflexivity. }
  destruct (proj1 (region_selectors_on_screen _ _ _ H) "#contents-center")
    as (e & sel & p & He & Hon & _ & _ & Hin & _); [by left|].
  by exists e.
Defined.

End TopLevel.

(** ** The final clean-up, the statistics and the interactive mode *)

Section CleanUp.

Lemma stripNth_key t e : entryKey (stripNth t e) = entryKey e.
Proof. unfold stripNth. by destruct (bool_decide _). Qed.

Lemma stripNth_idempotent t e : stripNth t (stripNth t e) = stripNth t e.
Proof.
  unfold stripNth at 1. rewrite stripNth_key. unfold stripNth.
  by destruct (bool_decide _).
Qed.

(** X18.  The final clean-up changes nothing but nth fields: the refs keep
    their order, selector, role and name, the counter and the tracker stay
    as they are, and running the clean-up a second time changes nothing. *)
Theorem removeNth_idempotent (st : St) :
  removeNthFromNonDuplicates (removeNthFromNonDuplicates st)
    = removeNthFromNonDuplicates st
  /\ map (fun kv : str * RefEntry =>
            (kv.1, re_selector kv.2, re_role kv.2, re_name kv.2))
       (refs (removeNthFromNonDuplicates st))
     = map (fun kv : str * RefEntry =>
              (kv.1, re_selector kv.2, re_role kv.2, re_name kv.2)) (refs st)
  /\ refCounter (removeNthFromNonDuplicates st) = refCounter st
  /\ tracker (removeNthFromNonDuplicates st) = tracker st.
Proof.
  split; [|split; [|done]].
  - rewrite (removeNth_eq (removeNthFromNonDuplicates st)), (removeNth_eq st).
    cbn [refs tracker refCounter]. f_equal. rewrite map_map.
    apply map_ext. intros [k v]. cbn [fst snd]. by rewrite stripNth_idempotent.
  - rewrite removeNth_eq. cbn [refs]. rewrite map_map. apply map_ext.
    intros [k v]. cbn [fst snd]. unfold stripNth.
    by destruct (bool_decide _).
Qed.

Lemma split_length (s : str) : 1 <= length (split s) <= length s + 1.
Proof.
  induction s as [|c s IH]; cbn [split length]; [lia|].
  destruct (Ascii.eqb c chr_newline); cbn [length]; [lia|].
  destruct (split s) as [|l ls]; cbn [length] in *; lia.
Qed.

(** X19.  The statistics of any tree and ref map: at least one line, also
    for the empty text, and at most one more than there are characters; the
    token estimate is the quarter of the characters rounded up; the
    interactive entries are among the refs. *)
Theorem stats_bounds (tree : str) (refs : RefMap) :
  let stats := getSnapshotStats tree refs in
  1 <= stat_lines stats <= stat_chars stats + 1
  /\ stat_chars stats <= 4 * stat_tokens stats < stat_chars stats + 4
  /\ stat_interactive stats <= stat_refs stats
  /\ stat_chars stats = length tree /\ stat_refs stats = length refs.
Proof.
  cbv zeta. cbn [getSnapshotStats stat_lines stat_chars stat_tokens
                 stat_interactive stat_refs].
  split; [apply split_length|]. split.
  - pose proof (Nat.div_mod_eq (length tree + 3) 4) as H.
    pose proof (Nat.mod_upper_bound (length tree + 3) 4). lia.
  - split; [apply length_filter|done].
Qed.

Lemma interactiveLoop_numbered lines st :
  refCounter (interactiveLoop lines st).2
    = (refCounter st + N.of_nat (length (interactiveLoop lines st).1))%N
  /\ forall i l, (interactiveLoop lines st).1 !! i = Some l ->
       startsWith "- " l = true
       /\ includes (refTag (refName (refCounter st + N.of_nat (S i)))) l = true.
Proof.
  revert st. induction lines as [|line rest IH]; intros st.
  - cbn. split; [lia|done].
  - cbn [interactiveLoop].
    destruct (lineMatch line) as [m|]; [|apply IH].
    destruct (memStr _ _); [|apply IH].
    rewrite assignRef_eq. cbv beta iota zeta.
    match goal with |- context [interactiveLoop rest ?s] =>
      destruct (IH s) as [Hc Hl]; destruct (interactiveLoop rest s) as [ls st'']
    end.
    cbn [fst snd refCounter length] in *. split; [lia|].
    intros [|i] l; cbn [lookup list_lookup].
    + intros [= <-]. split; [done|].
      replace (refCounter st + N.of_nat 1)%N with (refCounter st + 1)%N by lia.
      apply renderInteractive_shows.
    + intros H. destruct (Hl i l H) as [H1 H2]. split; [done|].
      by replace (refCounter st + N.of_nat (S (S i)))%N
        with (refCounter st + 1 + N.of_nat (S i))%N by lia.
Qed.

Lemma interactiveLoop_count lines st :
  length (interactiveLoop lines st).1
  = length (filter (fun l => hasInteractiveRole l = true) lines).
Proof.
  revert st. induction lines as [|line rest IH]; intros st; [done|].
  cbn [interactiveLoop]. rewrite filter_cons.
  destruct (decide (hasInteractiveRole line = true)) as [H|H];
    unfold hasInteractiveRole in H;
    destruct (lineMatch line) as [m|]; try done;
    destruct (memStr _ _); try done; try apply IH.
  destruct (assignRef _ _ st) as [[ref nth] st'].
  specialize (IH st'). destruct (interactiveLoop rest st').
  cbn [fst length] in *. by rewrite IH.
Qed.

(** X20.  In the interactive mode [processAriaTree] gives one ref to each
    line of the tree whose role is in the Interactive set: the counter
    advances by their number.  When there is none the text is the
    placeholder; otherwise the text has one line for each of them, every line
    starts at the dash, and the line at position i shows the ref numbered i
    after the counter's value at the start, so the refs read in order down
    the text. *)
Theorem interactive_lines_numbered (ariaTree : str) (options : SnapshotOptions)
    (finalizeNth : bool) (st : St) :
  o_interactive options = true ->
  let run := processAriaTree ariaTree options finalizeNth st in
  let n := length (filter (fun l => hasInteractiveRole l = true)
                     (split ariaTree)) in
  refCounter run.2 = (refCounter st + N.of_nat n)%N
  /\ (n = 0 -> run.1 = textNoInteractive)
  /\ (n <> 0 ->
      length (split run.1) = n
      /\ forall i l, split run.1 !! i = Some l ->
           startsWith "- " l = true
           /\ includes (refTag (refName (refCounter st + N.of_nat (S i)))) l
              = true).
Proof.
  intros Hi. cbv zeta. rewrite processAriaTree_eq. cbv zeta. rewrite Hi.
  pose proof (interactiveLoop_numbered (split ariaTree) st) as [Hc Hl].
  pose proof (interactiveLoop_count (split ariaTree) st) as Hn.
  pose proof (interactiveLoop_noNewline (split ariaTree) st
                (split_noNewline ariaTree)) as Hnl.
  pose proof (interactiveLoop_lines (split ariaTree) st) as Hdash.
  destruct (interactiveLoop _ st) as [result st']. cbn [fst snd] in *.
  rewrite <- Hn. split; [by destruct finalizeNth|]. split.
  - intros H0. by destruct result.
  - intros Hne. destruct result as [|l ls]; [done|].
    assert (Ht : strOr (join nl (l :: ls)) textNoInteractive = join nl (l :: ls)).
    { apply Forall_cons in Hdash as [Hd _].
      apply startsWith_spec in Hd as [t ->]. by destruct ls. }
    rewrite Ht, split_join by done. by split.
Qed.


Lemma interactive_lines_numbered_witness :
  refCounter (processAriaTree ("- button" ++ nl ++ "- link")
                (mkOptions true false None false None) true initialState).2
  = (refCounter initialState
     + N.of_nat (length (filter (fun l => hasInteractiveRole l = true)
                           (split ("- button" ++ nl ++ "- link")))))%N.
Proof.
  exact (proj1 (interactive_lines_numbered ("- button" ++ nl ++ "- link")
                  (mkOptions true false None false None) true initialState
                  eq_refl)).
Defined.


End CleanUp.

(** ** The line pattern and the bodies of the region sections *)

Section Pattern.

Lemma entryShaped_parses (line : str) :
  noTerminator line = true -> entryShaped line -> is_Some (parseLine line).
Proof.
  intros Hterm (ws1 & ws2 & w & rest & -> & H1 & H2 & Hw).
  unfold parseLine.
  rewrite (span_app isSpace ws1 ("-" ++ ws2 ++ w :: rest)) by done.
  cbn [app list_ascii_of_string]. change (code "-" =? 45)%N with true.
  cbv iota.
  rewrite (span_app isSpace ws2 (w :: rest)); [|done|by apply isWord_isSpace].
  cbn [span]. rewrite Hw.
  pose proof (span_eq isWord rest) as E.
  destruct (span isWord rest) as [a r3]. cbn [fst snd truthy] in *.
  assert (Hr3 : noTerminator r3 = true).
  { rewrite E in Hterm.
    replace (ws1 ++ "-" ++ ws2 ++ w :: a ++ r3)
      with ((ws1 ++ "-" ++ ws2 ++ w :: a) ++ r3) in Hterm
      by (rewrite <- !app_assoc; reflexivity).
    rewrite noTerminator_app in Hterm. by apply andb_true_iff in Hterm as [_ ?]. }
  cbv zeta. rewrite Hr3.
  destruct (matchQuotedName r3) as [[name rest']|]; [|done].
  by destruct (noTerminator rest').
Qed.

(** X21.  The captures of a matched line put the line together again:
    prefix, role, the quoted name after whitespace when there is one, and
    suffix.  The role is one or more word characters, so it never begins
    with a slash and the test for it after the match never holds.  A line
    without a line terminator matches exactly when it begins, after optional
    whitespace, with a dash, optional whitespace and a word character. *)
Theorem line_pattern (line : str) :
  (forall m, lineMatch line = Some m ->
     (exists mid, line = lm_prefix m ++ lm_role m ++ mid ++ lm_suffix m
        /\ nameText (lm_name m) mid)
     /\ lm_role m <> [] /\ wordOnly (lm_role m) = true
     /\ startsWith "/" (lm_role m) = false)
  /\ (noTerminator line = true ->
      (is_Some (lineMatch line) <-> entryShaped line)).
Proof.
  split.
  - intros m Hm.
    destruct (lineMatch_inv line m Hm)
      as (ws1 & dash & ws2 & mid & Hline & Hprefix & _ & _ & _ & Hrole & Hne
          & _ & Hname).
    split; [|split; [done|split]].
    + exists mid. split; [|done]. rewrite Hprefix, Hline.
      by rewrite <- !app_assoc.
    + by apply forallb_all.
    + destruct (lm_role m) as [|c r]; [done|].
      apply Forall_cons in Hrole as [Hc _]. cbn [startsWith list_ascii_of_string].
      rewrite andb_true_r. apply Ascii.eqb_neq. by intros <-.
  - intros Hterm. split.
    + intros [m Hm].
      destruct (lineMatch_inv line m Hm)
        as (ws1 & dash & ws2 & mid & Hline & _ & H1 & Hdash & H2 & Hrole & Hne
            & _).
      destruct (lm_role m) as [|w r]; [done|].
      apply Forall_cons in Hrole as [Hw _].
      exists ws1, ws2, w, (r ++ mid ++ lm_suffix m).
      split; [|done]. apply code_inj in Hdash as ->. exact Hline.
    + intros H. rewrite lineMatch_parseLine. by apply entryShaped_parses.
Qed.

Lemma line_pattern_witness :
  is_Some (lineMatch "  - button") <-> entryShaped "  - button".
Proof. exact (proj2 (line_pattern "  - button") eq_refl). Defined.

Lemma keptText_skip (t : str) :
  negb (truthy t) || strEq t textEmpty || strEq t textNoInteractive
  = negb (keptText t).
Proof.
  unfold keptText, isPlaceholder.
  by destruct (truthy t), (strEq t textEmpty), (strEq t textNoInteractive).
Qed.

Lemma sectionLoop_texts page options selectors st :
  exists texts st',
    scopeTexts page options selectors st texts st'
    /\ sectionLoop page options selectors st
       = Returned (filter (fun t => keptText t = true) texts, st').
Proof.
  revert st. induction selectors as [|sel rest IH]; intros st;
    cbn [sectionLoop].
  { exists [], st. split; [constructor|done]. }
  destruct (getEnhancedSnapshotForScope_steps page
              (withSelector options (Some sel)) st) as ([t st1] & Hscope & _).
  destruct (IH st1) as (texts & st' & Htexts & Hloop).
  exists (t :: texts), st'. split.
  { by apply (scopeTexts_cons page options sel rest st (t, st1)). }
  rewrite Hscope. cbn [bindO fst snd]. rewrite Hloop. cbn [bindO fst snd].
  rewrite keptText_skip, filter_cons.
  destruct (decide (keptText t = true)) as [-> | H]; [done|].
  by apply not_true_is_false in H as ->.
Qed.

(** X22.  The body of a region section is made of the scoped snapshots of
    the selectors of the region, taken in turn, each from the state the one
    before it left: it is the texts among them that are neither empty nor a
    placeholder, joined by line feeds, and, exactly when there is no such
    text, the placeholder of the mode.  The body is never the empty string,
    and the state is the one the last scope left. *)
Theorem region_section_body (page : Page) (options : SnapshotOptions)
    (selectors : list str) (st : St) :
  exists texts st' body,
    scopeTexts page options selectors st texts st'
    /\ buildMyheloRegionSection page options selectors st = Returned (body, st')
    /\ body = match filter (fun t => keptText t = true) texts with
              | [] => emptyText options
              | part :: parts => join nl (part :: parts)
              end
    /\ truthy body = true.
Proof.
  unfold buildMyheloRegionSection.
  destruct (sectionLoop_texts page options selectors st)
    as (texts & st' & Htexts & ->).
  cbn [bindO fst snd]. exists texts, st'.
  destruct (filter _ texts) as [|part parts] eqn:E.
  - eexists. split; [done|]. split; [done|]. split; [done|].
    unfold emptyText. by destruct (o_interactive options).
  - eexists. split; [done|]. split; [done|]. split; [done|].
    assert (Hp : part ∈ filter (fun t => keptText t = true) texts)
      by (rewrite E; by left).
    apply list_elem_of_filter in Hp as [Hp _]. unfold keptText in Hp.
    apply andb_true_iff in Hp as [Hp _].
    destruct part; [done|]. by destruct parts.
Qed.


End Pattern.

(** ** What the compact and depth options leave alone *)

Section Options.

Lemma scope_compact_state page options st :
  exists r1 r2,
    getEnhancedSnapshotForScope page (withCompact options true) st = Returned r1
    /\ getEnhancedSnapshotForScope page (withCompact options false) st
       = Returned r2
    /\ r1.2 = r2.2.
Proof.
  unfold getEnhancedSnapshotForScope, acquireTree.
  cbn [withCompact o_interactive o_cursor o_selector].
  assert (Ha : exists a1 a2,
    try_catch
      (let! ariaTree := pg_ariaSnapshot page
          (if truthyOpt (o_selector options)
           then default [] (o_selector options) else ":root") in
       if truthy ariaTree
       then Returned (processAriaTree ariaTree (withCompact options true) false st)
       else if o_interactive options then Returned (textNoInteractive, st)
            else Returned (textEmpty, st))
      (Returned (emptyText (withCompact options true), st)) = Returned a1
    /\ try_catch
      (let! ariaTree := pg_ariaSnapshot page
          (if truthyOpt (o_selector options)
           then default [] (o_selector options) else ":root") in
       if truthy ariaTree
       then Returned (processAriaTree ariaTree (withCompact options false) false st)
       else if o_interactive options then Returned (textNoInteractive, st)
            else Returned (textEmpty, st))
      (Returned (emptyText (withCompact options false), st)) = Returned a2
    /\ a1.2 = a2.2).
  { unfold try_catch, bindO.
    destruct (pg_ariaSnapshot page _) as [ariaTree|]; [|by eexists _, _].
    destruct (truthy ariaTree).
    - eexists _, _. split; [done|]. split; [done|].
      apply processAriaTree_compact_state.
    - destruct (o_interactive options); by eexists _, _. }
  destruct Ha as ([t1 s1] & [t2 s2] & -> & -> & Hs). cbn [fst snd bindO] in *.
  subst s2.
  destruct (o_cursor options); [|by eexists _, _].
  destruct (findCursorInteractiveElements_returns page (o_selector options))
    as [els ->]. cbn [bindO].
  destruct (cursorLoop els s1) as [[|l ls] s3]; by eexists _, _.
Qed.

Lemma sectionLoop_compact_state page options selectors st :
  exists r1 r2,
    sectionLoop page (withCompact options true) selectors st = Returned r1
    /\ sectionLoop page (withCompact options false) selectors st = Returned r2
    /\ r1.2 = r2.2.
Proof.
  revert st. induction selectors as [|sel rest IH]; intros st;
    cbn [sectionLoop]; [by eexists _, _|].
  destruct (scope_compact_state page (withSelector options (Some sel)) st)
    as ([t1 s1] & [t2 s2] & H1 & H2 & Hs).
  change (withSelector (withCompact options true) (Some sel))
    with (withCompact (withSelector options (Some sel)) true).
  change (withSelector (withCompact options false) (Some sel))
    with (withCompact (withSelector options (Some sel)) false).
  rewrite H1, H2. cbn [bindO fst snd] in *. subst s2.
  destruct (IH s1) as ([p1 u1] & [p2 u2] & -> & -> & Hu).
  cbn [bindO fst snd] in *. subst u2.
  do 2 destruct (_ || _); by eexists _, _.
Qed.

Lemma regionLoop_compact_state page options regions st :
  exists r1 r2,
    regionLoop page (withCompact options true) regions st = Returned r1
    /\ regionLoop page (withCompact options false) regions st = Returned r2
    /\ r1.2 = r2.2.
Proof.
  revert st. induction regions as [|region rest IH]; intros st;
    cbn [regionLoop]; [by eexists _, _|].
  unfold buildMyheloRegionSection.
  destruct (sectionLoop_compact_state page options (rg_selectors region) st)
    as ([p1 s1] & [p2 s2] & -> & -> & Hs). cbn [bindO fst snd] in *. subst s2.
  assert (Hb : forall o (ps : list str), exists body,
    (match ps with
     | _ :: _ => Returned (join nl ps, s1)
     | [] => Returned (emptyText o, s1)
     end) = Returned (body, s1)) by (intros o [|? ?]; by eexists).
  destruct (Hb (withCompact options true) p1) as [b1 ->].
  destruct (Hb (withCompact options false) p2) as [b2 ->].
  cbn [bindO fst snd].
  destruct (IH s1) as ([q1 u1] & [q2 u2] & -> & -> & Hu).
  cbn [bindO fst snd] in *. subst u2. by eexists _, _.
Qed.

(** X23.  The compact option never changes the ref map: for every page and
    every setting of the other options, the snapshot taken with compact and
    the one taken without have the same refs, with the same selectors, roles,
    names and nth, and leave the same counter; only the tree text differs. *)
Theorem compact_keeps_refs (page : Page) (options : SnapshotOptions) (counter : N) :
  exists snap1 snap2 counter',
    getEnhancedSnapshot page (withCompact options true) counter
      = Returned (snap1, counter')
    /\ getEnhancedSnapshot page (withCompact options false) counter
       = Returned (snap2, counter')
    /\ snap_refs snap1 = snap_refs snap2.
Proof.
  unfold getEnhancedSnapshot. cbn [withCompact o_selector].
  set (st0 := resetRefs (mkSt counter [] createRoleNameTracker)).
  assert (Hwhole : exists snap1 snap2 counter',
    (let! scoped := getEnhancedSnapshotForScope page (withCompact options true) st0 in
     let st := removeNthFromNonDuplicates scoped.2 in
     Returned (mkSnapshot scoped.1 (refs st), refCounter st))
      = Returned (snap1, counter')
    /\ (let! scoped := getEnhancedSnapshotForScope page (withCompact options false) st0 in
        let st := removeNthFromNonDuplicates scoped.2 in
        Returned (mkSnapshot scoped.1 (refs st), refCounter st))
       = Returned (snap2, counter')
    /\ snap_refs snap1 = snap_refs snap2).
  { destruct (scope_compact_state page options st0)
      as ([t1 s1] & [t2 s2] & -> & -> & Hs). cbn [bindO fst snd] in *. subst s2.
    by eexists _, _, _. }
  destruct (negb (truthyOpt (o_selector options))); [|exact Hwhole].
  destruct (getMyheloActiveRegions_returns page) as [[|r rs] ->]; cbn [bindO];
    [exact Hwhole|].
  destruct (regionLoop_compact_state page options (r :: rs) st0)
    as ([q1 s1] & [q2 s2] & -> & -> & Hs). cbn [bindO fst snd] in *. subst s2.
  by eexists _, _, _.
Qed.

Lemma processAriaTree_interactive ariaTree o1 o2 finalizeNth st :
  o_interactive o1 = true -> o_interactive o2 = true ->
  processAriaTree ariaTree o1 finalizeNth st
  = processAriaTree ariaTree o2 finalizeNth st.
Proof.
  intros H1 H2. unfold processAriaTree, processAriaTreeLines.
  by rewrite H1, H2.
Qed.

Lemma scope_interactive page o1 o2 st :
  o_interactive o1 = true -> o_interactive o2 = true ->
  o_cursor o1 = o_cursor o2 -> o_selector o1 = o_selector o2 ->
  getEnhancedSnapshotForScope page o1 st = getEnhancedSnapshotForScope page o2 st.
Proof.
  intros H1 H2 Hc Hs. unfold getEnhancedSnapshotForScope, acquireTree, emptyText.
  rewrite H1, H2, Hc, Hs.
  destruct (pg_ariaSnapshot page _) as [ariaTree|]; [|done]. cbn [bindO].
  destruct (truthy ariaTree); [|done].
  by rewrite (processAriaTree_interactive ariaTree o1 o2 false st H1 H2).
Qed.

Lemma sectionLoop_interactive page o1 o2 selectors st :
  o_interactive o1 = true -> o_interactive o2 = true ->
  o_cursor o1 = o_cursor o2 ->
  sectionLoop page o1 selectors st = sectionLoop page o2 selectors st.
Proof.
  intros H1 H2 Hc. revert st. induction selectors as [|sel rest IH]; intros st;
    [done|]. cbn [sectionLoop].
  rewrite (scope_interactive page (withSelector o1 (Some sel))
             (withSelector o2 (Some sel)) st) by done.
  destruct (getEnhancedSnapshotForScope page _ st) as [[t s1]|]; [|done].
  cbn [bindO fst snd]. by rewrite IH.
Qed.

Lemma regionLoop_interactive page o1 o2 regions st :
  o_interactive o1 = true -> o_interactive o2 = true ->
  o_cursor o1 = o_cursor o2 ->
  regionLoop page o1 regions st = regionLoop page o2 regions st.
Proof.
  intros H1 H2 Hc. revert st. induction regions as [|region rest IH]; intros st;
    [done|]. cbn [regionLoop]. unfold buildMyheloRegionSection, emptyText.
  rewrite (sectionLoop_interactive page o1 o2 _ st H1 H2 Hc), H1, H2.
  destruct (sectionLoop page o2 _ st) as [[ps s1]|]; [|done].
  cbn [bindO fst snd]. destruct ps; cbn [bindO fst snd]; by rewrite IH.
Qed.

(** X24.  In the interactive mode the depth limit and the compact option
    have no effect: the snapshot is the same whatever their values. *)
Theorem interactive_ignores_filters (page : Page) (options : SnapshotOptions)
    (counter : N) (maxDepth : option Z) (compact : bool) :
  o_interactive options = true ->
  getEnhancedSnapshot page (withMaxDepth (withCompact options compact) maxDepth)
    counter
  = getEnhancedSnapshot page options counter.
Proof.
  intros Hi. unfold getEnhancedSnapshot.
  cbn [withMaxDepth withCompact o_selector].
  rewrite (scope_interactive page
             (withMaxDepth (withCompact options compact) maxDepth) options)
    by done.
  destruct (negb _); [|done].
  destruct (getMyheloActiveRegions page) as [[|r rs]|]; [done| |done].
  cbn [bindO].
  by rewrite (regionLoop_interactive page
                (withMaxDepth (withCompact options compact) maxDepth) options).
Qed.

Lemma interactive_ignores_filters_witness :
  getEnhancedSnapshot (shellPage true true true)
    (withMaxDepth (withCompact (mkOptions true false None false None) true)
       (Some 0%Z)) 0
  = getEnhancedSnapshot (shellPage true true true)
      (mkOptions true false None false None) 0.
Proof.
  exact (interactive_ignores_filters (shellPage true true true)
           (mkOptions true false None false None) 0 (Some 0%Z) true eq_refl).
Defined.

Lemma cursorStep_refs el st :
  keysInv st ->
  refs (cursorStep el st)
  = refs st ++ [(refName (refCounter st + 1),
                 mkRefEntry (ce_selector el) (cursorRole el)
                   (Some (ce_text el)) None)]
  /\ refCounter (cursorStep el st) = (refCounter st + 1)%N.
Proof.
  intros Hk. unfold cursorStep, nextRef. cbn [refs refCounter].
  change ("e" ++ toString (refCounter st + 1)) with (refName (refCounter st + 1)).
  by rewrite keysInv_push.
Qed.

Lemma cursorLoop_appends els st :
  keysInv st ->
  exists added,
    refs (cursorLoop els st).2 = refs st ++ added
    /\ Forall (fun kv : str * RefEntry =>
                cursorRoleName (re_role kv.2) /\ re_nth kv.2 = None) added
    /\ length added = length els
    /\ length (cursorLoop els st).1 = length els
    /\ refCounter (cursorLoop els st).2
       = (refCounter st + N.of_nat (length els))%N.
Proof.
  revert st. induction els as [|el rest IH]; intros st Hk.
  - exists []. rewrite app_nil_r. cbn. repeat split; [constructor|lia].
  - rewrite cursorLoop_cons. cbv zeta. cbn [fst snd length].
    assert (Hk' : keysInv (cursorStep el st)).
    { apply (step_keysInv st); [apply step_cursor|done]. }
    destruct (IH _ Hk') as (added & Hrefs & Hall & Hlen & Hlines & Hc).
    destruct (cursorStep_refs el st Hk) as [Hr1 Hc1].
    rewrite Hr1, <- app_assoc in Hrefs. rewrite Hc1 in Hc.
    eexists. split; [exact Hrefs|]. split.
    + constructor; [|done]. split; [apply cursorRole_name|done].
    + cbn [length app]. repeat split; [lia|lia|]. rewrite Hc. lia.
Qed.

Lemma keysInv_removeNth st : keysInv st -> keysInv (removeNthFromNonDuplicates st).
Proof. unfold keysInv. by rewrite removeNth_keys. Qed.

(** X25.  Without a region layout (a selector is given, or no region is
    detected) the cursor option only adds to the snapshot: the ref map is the
    ref map of the snapshot without the option followed by the entries of the
    detector, all clickable or focusable and without nth; the counter
    advances by their number; with no such entry the tree is the same, and
    otherwise a tree that is not a placeholder is kept as it is and followed
    by the heading and the lines of the detector. *)
Theorem cursor_option_appends (page : Page) (options : SnapshotOptions)
    (counter : N) :
  truthyOpt (o_selector options) = true
    \/ getMyheloActiveRegions page = Returned [] ->
  exists snap0 snap1 counter0 added,
    getEnhancedSnapshot page (withCursor options false) counter
      = Returned (snap0, counter0)
    /\ getEnhancedSnapshot page (withCursor options true) counter
       = Returned (snap1, (counter0 + N.of_nat (length added))%N)
    /\ snap_refs snap1 = snap_refs snap0 ++ added
    /\ Forall (fun kv : str * RefEntry =>
                cursorRoleName (re_role kv.2) /\ re_nth kv.2 = None) added
    /\ (added = [] -> tree snap1 = tree snap0)
    /\ (added <> [] -> isPlaceholder (tree snap0) = false ->
        exists lines, tree snap1 = tree snap0 ++ cursorHeading ++ lines).
Proof.
  intros Hregions.
  assert (Hwhole : forall o,
    o_selector o = o_selector options ->
    getEnhancedSnapshot page o counter
    = let! scoped := getEnhancedSnapshotForScope page o initialState in
      let st := removeNthFromNonDuplicates scoped.2 in
      Returned (mkSnapshot scoped.1 (refs st), refCounter st)).
  { intros o Ho. unfold getEnhancedSnapshot. rewrite Ho.
    change (resetRefs _) with initialState.
    destruct Hregions as [-> | ->]; [done|]. by destruct (negb _). }
  rewrite !Hwhole by done.
  unfold getEnhancedSnapshotForScope. rewrite !acquire_cursor.
  destruct (acquired_steps page options initialState) as ([t st1] & -> & Hsteps).
  change (o_cursor (withCursor options false)) with false.
  change (o_cursor (withCursor options true)) with true.
  change (o_selector (withCursor options true)) with (o_selector options).
  cbn [bindO fst snd] in *. cbv iota.
  assert (Hk : keysInv (removeNthFromNonDuplicates st1)).
  { apply keysInv_removeNth. by apply (steps_keysInv _ _ Hsteps). }
  destruct (findCursorInteractiveElements_returns page (o_selector options))
    as [els ->]. cbn [bindO].
  destruct (cursorLoop_appends els _ Hk) as (added & Hrefs & Hall & Hlen & Hlines & Hc).
  rewrite cursorLoop_removeNth in Hrefs, Hlines, Hc. cbn [fst snd] in *.
  exists (mkSnapshot t (refs (removeNthFromNonDuplicates st1))).
  destruct (cursorLoop els st1) as [[|l ls] st2] eqn:Hloop;
    cbn [fst snd length bindO] in *; rewrite Hc, <- Hlen;
    eexists _, _, added; (split; [reflexivity|]); (split; [reflexivity|]);
    cbn [snap_refs tree]; (split; [exact Hrefs|]); (split; [exact Hall|]).
  - split; [done|]. intros Hne. destruct added; [done|]. cbn in Hlen. lia.
  - split.
    + intros ->. cbn in Hlen. lia.
    + intros _ Hp. rewrite Hp. by eexists.
Qed.

Lemma cursor_option_appends_witness :
  exists snap0 snap1 counter0 added,
    getEnhancedSnapshot twoSavePage
      (withCursor defaultOptions false) 0 = Returned (snap0, counter0)
    /\ getEnhancedSnapshot twoSavePage (withCursor defaultOptions true) 0
       = Returned (snap1, (counter0 + N.of_nat (length added))%N)
    /\ snap_refs snap1 = snap_refs snap0 ++ added.
Proof.
  destruct (cursor_option_appends twoSavePage defaultOptions 0)
    as (snap0 & snap1 & counter0 & added & H0 & H1 & Hrefs & _).
  - right. reflexivity.
  - by exists snap0, snap1, counter0, added.
Defined.

End Options.

(** ** The depth limit and the ref map *)

Section DepthRefs.

Lemma grows_refl st : keysInv st -> grows st st [].
Proof. intros H. split; [by rewrite app_nil_r|done]. Qed.

Lemma grows_trans st0 st1 st2 a b :
  grows st0 st1 a -> grows st1 st2 b -> grows st0 st2 (a ++ b).
Proof. intros [H1 _] [H2 K]. split; [by rewrite H2, H1, app_assoc|done]. Qed.

Lemma assignRef_grows role name st :
  keysInv st ->
  exists e,
    grows st (assignRef role name st).2 [e]
    /\ entryId e = (buildSelector role name, role, name).
Proof.
  intros Hk. rewrite assignRef_eq. cbv zeta. cbn [snd].
  exists (refName (refCounter st + 1),
          mkRefEntry (buildSelector role name) role name
            (Some (default 0%N (counts (tracker st) !! getKey role name)))).
  split; [|reflexivity]. split.
  - cbn [refs]. by apply keysInv_push.
  - unfold keysInv. cbn [refs refCounter]. rewrite keysInv_push by done.
    by rewrite map_app, Hk, refIds_succ.
Qed.

Lemma fullLoop_depth_refs lines options d d2 st1 st2 :
  depthLe (Some d) d2 -> keysInv st1 -> keysInv st2 ->
  exists a1 a2,
    grows st1 (fullLoop lines (withMaxDepth options (Some d)) st1).2 a1
    /\ grows st2 (fullLoop lines (withMaxDepth options d2) st2).2 a2
    /\ sublist (map entryId a1) (map entryId a2).
Proof.
  intros Hle. revert st1 st2. induction lines as [|line rest IH];
    intros st1 st2 K1 K2.
  { exists [], []. by repeat split; try apply grows_refl. }
  cbn [fullLoop]. rewrite !processLine_classify.
  assert (Hcases :
    classify line (withMaxDepth options (Some d)) = Dropped
    \/ classify line (withMaxDepth options (Some d))
       = classify line (withMaxDepth options d2)).
  { destruct (tooDeep (withMaxDepth options (Some d)) (getIndentLevel line))
      eqn:Hdeep.
    - left. unfold classify. by rewrite Hdeep.
    - right. by apply classify_maxDepth_kept. }
  destruct Hcases as [-> | ->].
  - destruct (classify line (withMaxDepth options d2)) as [| |m].
    + destruct (IH st1 st2 K1 K2) as (a1 & a2 & H1 & H2 & Hs).
      do 2 destruct (fullLoop rest _ _). by exists a1, a2.
    + destruct (IH st1 st2 K1 K2) as (a1 & a2 & H1 & H2 & Hs).
      do 2 destruct (fullLoop rest _ _). by exists a1, a2.
    + destruct (assignRef_grows (toLowerCase (lm_role m)) (lm_name m) st2 K2)
        as (e & He & _).
      destruct (assignRef _ _ st2) as [[ref nth] st2']. cbn [snd] in He.
      destruct (IH st1 st2' K1 (proj2 He)) as (a1 & a2 & H1 & H2 & Hs).
      do 2 destruct (fullLoop rest _ _). cbn [snd] in *.
      exists a1, ([e] ++ a2). split; [done|].
      split; [by eapply grows_trans|]. cbn [app map]. by apply sublist_cons.
  - destruct (classify line (withMaxDepth options d2)) as [| |m].
    + destruct (IH st1 st2 K1 K2) as (a1 & a2 & H1 & H2 & Hs).
      do 2 destruct (fullLoop rest _ _). by exists a1, a2.
    + destruct (IH st1 st2 K1 K2) as (a1 & a2 & H1 & H2 & Hs).
      do 2 destruct (fullLoop rest _ _). by exists a1, a2.
    + destruct (assignRef_grows (toLowerCase (lm_role m)) (lm_name m) st1 K1)
        as (e1 & He1 & Hid1).
      destruct (assignRef_grows (toLowerCase (lm_role m)) (lm_name m) st2 K2)
        as (e2 & He2 & Hid2).
      destruct (assignRef _ _ st1) as [[ref1 nth1] st1'].
      destruct (assignRef _ _ st2) as [[ref2 nth2] st2']. cbn [snd] in *.
      destruct (IH st1' st2' (proj2 He1) (proj2 He2)) as (a1 & a2 & H1 & H2 & Hs).
      do 2 destruct (fullLoop rest _ _). cbn [snd] in *.
      exists ([e1] ++ a1), ([e2] ++ a2).
      split; [by eapply grows_trans|]. split; [by eapply grows_trans|].
      cbn [app map]. rewrite Hid1, Hid2. by apply sublist_skip.
Qed.

Lemma interactiveLoop_refs lines st1 st2 :
  keysInv st1 -> keysInv st2 ->
  exists a1 a2,
    grows st1 (interactiveLoop lines st1).2 a1
    /\ grows st2 (interactiveLoop lines st2).2 a2
    /\ map entryId a1 = map entryId a2.
Proof.
  revert st1 st2. induction lines as [|line rest IH]; intros st1 st2 K1 K2.
  { exists [], []. by repeat split; try apply grows_refl. }
  cbn [interactiveLoop].
  destruct (lineMatch line) as [m|]; [|by apply IH].
  destruct (memStr _ _); [|by apply IH].
  destruct (assignRef_grows (toLowerCase (lm_role m)) (lm_name m) st1 K1)
    as (e1 & He1 & Hid1).
  destruct (assignRef_grows (toLowerCase (lm_role m)) (lm_name m) st2 K2)
    as (e2 & He2 & Hid2).
  destruct (assignRef _ _ st1) as [[ref1 nth1] st1'].
  destruct (assignRef _ _ st2) as [[ref2 nth2] st2']. cbn [snd] in *.
  destruct (IH st1' st2' (proj2 He1) (proj2 He2)) as (a1 & a2 & H1 & H2 & Hs).
  do 2 destruct (interactiveLoop rest _). cbn [snd] in *.
  exists ([e1] ++ a1), ([e2] ++ a2).
  split; [by eapply grows_trans|]. split; [by eapply grows_trans|].
  cbn [app map]. by rewrite Hid1, Hid2, Hs.
Qed.

Lemma processAriaTree_depth_refs ariaTree options d1 d2 st1 st2 :
  depthLe d1 d2 -> keysInv st1 -> keysInv st2 ->
  exists a1 a2,
    grows st1 (processAriaTree ariaTree (withMaxDepth options d1) false st1).2 a1
    /\ grows st2 (processAriaTree ariaTree (withMaxDepth options d2) false st2).2 a2
    /\ sublist (map entryId a1) (map entryId a2).
Proof.
  intros Hle K1 K2. unfold processAriaTree, processAriaTreeLines.
  cbn [withMaxDepth o_interactive o_compact].
  destruct (o_interactive options).
  - destruct (interactiveLoop_refs (split ariaTree) st1 st2 K1 K2)
      as (a1 & a2 & H1 & H2 & Hs).
    do 2 destruct (interactiveLoop _ _). exists a1, a2.
    split; [done|]. split; [done|]. by rewrite Hs.
  - destruct d1 as [d|].
    + destruct (fullLoop_depth_refs (split ariaTree) options d d2 st1 st2
                  Hle K1 K2) as (a1 & a2 & H1 & H2 & Hs).
      do 2 destruct (fullLoop _ _ _). exists a1, a2.
      by destruct (o_compact options).
    + destruct d2 as [?|]; [done|].
      assert (Hsame : forall st, keysInv st -> exists a,
                grows st (fullLoop (split ariaTree)
                            (withMaxDepth options None) st).2 a
                /\ forall st', keysInv st' -> exists a',
                     grows st' (fullLoop (split ariaTree)
                                  (withMaxDepth options None) st').2 a'
                     /\ sublist (map entryId a) (map entryId a')).
      { clear. generalize (split ariaTree). intros lines.
        induction lines as [|line rest IH]; intros st K.
        { exists []. split; [by apply grows_refl|]. intros st' K'.
          exists []. split; [by apply grows_refl|done]. }
        cbn [fullLoop]. rewrite processLine_classify.
        destruct (classify line (withMaxDepth options None)) as [| |m] eqn:E.
        - destruct (IH st K) as (a & Ha & Hrest). destruct (fullLoop rest _ st).
          exists a. split; [done|]. intros st' K'. rewrite processLine_classify, E.
          destruct (Hrest st' K') as (a' & Ha' & Hs).
          destruct (fullLoop rest _ st'). by exists a'.
        - destruct (IH st K) as (a & Ha & Hrest). destruct (fullLoop rest _ st).
          exists a. split; [done|]. intros st' K'. rewrite processLine_classify, E.
          destruct (Hrest st' K') as (a' & Ha' & Hs).
          destruct (fullLoop rest _ st'). by exists a'.
        - destruct (assignRef_grows (toLowerCase (lm_role m)) (lm_name m) st K)
            as (e & He & Hid).
          destruct (assignRef _ _ st) as [[ref nth] st1]. cbn [snd] in *.
          destruct (IH st1 (proj2 He)) as (a & Ha & Hrest).
          destruct (fullLoop rest _ st1). cbn [snd] in *.
          exists ([e] ++ a). split; [by eapply grows_trans|].
          intros st' K'. rewrite processLine_classify, E.
          destruct (assignRef_grows (toLowerCase (lm_role m)) (lm_name m) st' K')
            as (e' & He' & Hid').
          destruct (assignRef _ _ st') as [[ref' nth'] st1']. cbn [snd] in *.
          destruct (Hrest st1' (proj2 He')) as (a' & Ha' & Hs).
          destruct (fullLoop rest _ st1'). cbn [snd] in *.
          exists ([e'] ++ a'). split; [by eapply grows_trans|].
          cbn [app map]. rewrite Hid, Hid'. by apply sublist_skip. }
      destruct (Hsame st1 K1) as (a1 & H1 & Hrest).
      destruct (Hrest st2 K2) as (a2 & H2 & Hs).
      do 2 destruct (fullLoop _ _ _). exists a1, a2.
      by destruct (o_compact options).
Qed.

Lemma cursorLoop_grows els st :
  keysInv st ->
  exists added,
    grows st (cursorLoop els st).2 added
    /\ map entryId added
       = map (fun el => (ce_selector el, cursorRole el, Some (ce_text el))) els.
Proof.
  revert st. induction els as [|el rest IH]; intros st Hk.
  - exists []. split; [by apply grows_refl|done].
  - rewrite cursorLoop_cons. cbv zeta. cbn [snd].
    assert (Hk' : keysInv (cursorStep el st)).
    { apply (step_keysInv st); [apply step_cursor|done]. }
    destruct (IH _ Hk') as (added & [Hrefs Hkeys] & Hids).
    destruct (cursorStep_refs el st Hk) as [Hr1 _].
    rewrite Hr1, <- app_assoc in Hrefs.
    eexists. split; [split; [exact Hrefs|done]|].
    cbn [app map]. by rewrite Hids.
Qed.

Lemma scope_depth_refs page options d1 d2 st1 st2 :
  depthLe d1 d2 -> keysInv st1 -> keysInv st2 ->
  exists r1 r2 a1 a2,
    getEnhancedSnapshotForScope page (withMaxDepth options d1) st1 = Returned r1
    /\ getEnhancedSnapshotForScope page (withMaxDepth options d2) st2
       = Returned r2
    /\ grows st1 r1.2 a1 /\ grows st2 r2.2 a2
    /\ sublist (map entryId a1) (map entryId a2).
Proof.
  intros Hle K1 K2. unfold getEnhancedSnapshotForScope.
  assert (Ha : exists x1 x2 a1 a2,
    try_catch (acquireTree page (withMaxDepth options d1) st1)
      (Returned (emptyText (withMaxDepth options d1), st1)) = Returned x1
    /\ try_catch (acquireTree page (withMaxDepth options d2) st2)
      (Returned (emptyText (withMaxDepth options d2), st2)) = Returned x2
    /\ grows st1 x1.2 a1 /\ grows st2 x2.2 a2
    /\ sublist (map entryId a1) (map entryId a2)).
  { unfold acquireTree, emptyText, try_catch, bindO.
    change (o_selector (withMaxDepth options d1)) with (o_selector options).
    change (o_selector (withMaxDepth options d2)) with (o_selector options).
    change (o_interactive (withMaxDepth options d1)) with (o_interactive options).
    change (o_interactive (withMaxDepth options d2)) with (o_interactive options).
    destruct (pg_ariaSnapshot page _) as [ariaTree|].
    2:{ eexists _, _, [], []. by repeat split; try apply grows_refl. }
    destruct (truthy ariaTree).
    - destruct (processAriaTree_depth_refs ariaTree options d1 d2 st1 st2
                  Hle K1 K2) as (a1 & a2 & H1 & H2 & Hs).
      by eexists _, _, a1, a2.
    - destruct (o_interactive options); eexists _, _, [], [];
        by repeat split; try apply grows_refl. }
  destruct Ha as ([t1 s1] & [t2 s2] & a1 & a2 & -> & -> & H1 & H2 & Hs).
  cbn [bindO fst snd] in *.
  change (o_cursor (withMaxDepth options d1)) with (o_cursor options).
  change (o_cursor (withMaxDepth options d2)) with (o_cursor options).
  change (o_selector (withMaxDepth options d1)) with (o_selector options).
  change (o_selector (withMaxDepth options d2)) with (o_selector options).
  destruct (o_cursor options).
  2:{ by eexists _, _, a1, a2. }
  destruct (findCursorInteractiveElements_returns page (o_selector options))
    as [els ->]. cbn [bindO].
  destruct (cursorLoop_grows els s1 (proj2 H1)) as (b1 & Hb1 & Hid1).
  destruct (cursorLoop_grows els s2 (proj2 H2)) as (b2 & Hb2 & Hid2).
  destruct (cursorLoop els s1) as [l1 u1], (cursorLoop els s2) as [l2 u2].
  cbn [snd] in *.
  assert (Hout : forall (t : str) (l : list str) (u : St), exists text,
    match l with
    | _ :: _ =>
        Returned ((if isPlaceholder t then [] else t)
                  ++ (if isPlaceholder t then []
                      else nl ++ "# Cursor-interactive elements:" ++ nl)
                  ++ join nl l, u)
    | [] => Returned (t, u)
    end = Returned (text, u)) by (intros t [|? ?] u; by eexists).
  destruct (Hout t1 l1 u1) as [x1 ->], (Hout t2 l2 u2) as [x2 ->].
  eexists _, _, (a1 ++ b1), (a2 ++ b2). split; [done|]. split; [done|].
  cbn [snd]. split; [by eapply grows_trans|]. split; [by eapply grows_trans|].
  rewrite !map_app, Hid1, Hid2. by apply sublist_app.
Qed.

Lemma sectionLoop_depth_refs page options d1 d2 selectors st1 st2 :
  depthLe d1 d2 -> keysInv st1 -> keysInv st2 ->
  exists r1 r2 a1 a2,
    sectionLoop page (withMaxDepth options d1) selectors st1 = Returned r1
    /\ sectionLoop page (withMaxDepth options d2) selectors st2 = Returned r2
    /\ grows st1 r1.2 a1 /\ grows st2 r2.2 a2
    /\ sublist (map entryId a1) (map entryId a2).
Proof.
  intros Hle. revert st1 st2. induction selectors as [|sel rest IH];
    intros st1 st2 K1 K2; cbn [sectionLoop].
  { eexists _, _, [], []. by repeat split; try apply grows_refl. }
  change (withSelector (withMaxDepth options d1) (Some sel))
    with (withMaxDepth (withSelector options (Some sel)) d1).
  change (withSelector (withMaxDepth options d2) (Some sel))
    with (withMaxDepth (withSelector options (Some sel)) d2).
  destruct (scope_depth_refs page (withSelector options (Some sel)) d1 d2
              st1 st2 Hle K1 K2)
    as ([t1 s1] & [t2 s2] & a1 & a2 & -> & -> & H1 & H2 & Hs).
  cbn [bindO fst snd] in *.
  destruct (IH s1 s2 (proj2 H1) (proj2 H2))
    as ([p1 u1] & [p2 u2] & b1 & b2 & -> & -> & G1 & G2 & Hb).
  cbn [bindO fst snd] in *.
  do 2 destruct (_ || _); eexists _, _, (a1 ++ b1), (a2 ++ b2);
    (split; [done|]); (split; [done|]); cbn [snd];
    (split; [by eapply grows_trans|]); (split; [by eapply grows_trans|]);
    rewrite !map_app; by apply sublist_app.
Qed.

Lemma regionLoop_depth_refs page options d1 d2 regions st1 st2 :
  depthLe d1 d2 -> keysInv st1 -> keysInv st2 ->
  exists r1 r2 a1 a2,
    regionLoop page (withMaxDepth options d1) regions st1 = Returned r1
    /\ regionLoop page (withMaxDepth options d2) regions st2 = Returned r2
    /\ grows st1 r1.2 a1 /\ grows st2 r2.2 a2
    /\ sublist (map entryId a1) (map entryId a2).
Proof.
  intros Hle. revert st1 st2. induction regions as [|region rest IH];
    intros st1 st2 K1 K2; cbn [regionLoop].
  { eexists _, _, [], []. by repeat split; try apply grows_refl. }
  unfold buildMyheloRegionSection.
  destruct (sectionLoop_depth_refs page options d1 d2 (rg_selectors region)
              st1 st2 Hle K1 K2)
    as ([p1 s1] & [p2 s2] & a1 & a2 & -> & -> & H1 & H2 & Hs).
  cbn [bindO fst snd] in *.
  assert (Hb : forall o (ps : list str) (s : St), exists body,
    (match ps with
     | _ :: _ => Returned (join nl ps, s)
     | [] => Returned (emptyText o, s)
     end) = Returned (body, s)) by (intros o [|? ?] s; by eexists).
  destruct (Hb (withMaxDepth options d1) p1 s1) as [b1 ->].
  destruct (Hb (withMaxDepth options d2) p2 s2) as [b2 ->].
  cbn [bindO fst snd].
  destruct (IH s1 s2 (proj2 H1) (proj2 H2))
    as ([q1 u1] & [q2 u2] & c1 & c2 & -> & -> & G1 & G2 & Hc).
  cbn [bindO fst snd] in *.
  eexists _, _, (a1 ++ c1), (a2 ++ c2). split; [done|]. split; [done|].
  cbn [snd]. split; [by eapply grows_trans|]. split; [by eapply grows_trans|].
  rewrite !map_app. by apply sublist_app.
Qed.

Lemma removeNth_ids st :
  map entryId (refs (removeNthFromNonDuplicates st)) = map entryId (refs st).
Proof.
  rewrite removeNth_eq. cbn [refs]. rewrite map_map. apply map_ext.
  intros [k v]. unfold entryId, stripNth. cbn [fst snd].
  by destruct (bool_decide _).
Qed.

(** X26.  A larger depth limit never loses a ref: for limits d1 below d2 (no
    limit being the largest) the selector, role and name of the entries of
    the snapshot under d1 are, in order, a sub-sequence of those of the
    snapshot under d2; ref numbers and nth indices may differ. *)
Theorem depth_keeps_refs (page : Page) (options : SnapshotOptions) (counter : N)
    (d1 d2 : option Z) :
  depthLe d1 d2 ->
  exists snap1 snap2 counter1 counter2,
    getEnhancedSnapshot page (withMaxDepth options d1) counter
      = Returned (snap1, counter1)
    /\ getEnhancedSnapshot page (withMaxDepth options d2) counter
       = Returned (snap2, counter2)
    /\ sublist (map entryId (snap_refs snap1)) (map entryId (snap_refs snap2))
    /\ length (snap_refs snap1) <= length (snap_refs snap2).
Proof.
  intros Hle. unfold getEnhancedSnapshot.
  change (o_selector (withMaxDepth options d1)) with (o_selector options).
  change (o_selector (withMaxDepth options d2)) with (o_selector options).
  change (resetRefs _) with initialState.
  assert (K0 : keysInv initialState) by done.
  assert (Hfinish : forall s1 s2 a1 a2 (t1 t2 : str),
    grows initialState s1 a1 -> grows initialState s2 a2 ->
    sublist (map entryId a1) (map entryId a2) ->
    exists snap1 snap2 counter1 counter2,
      Returned (mkSnapshot t1 (refs (removeNthFromNonDuplicates s1)),
                refCounter (removeNthFromNonDuplicates s1))
        = Returned (snap1, counter1)
      /\ Returned (mkSnapshot t2 (refs (removeNthFromNonDuplicates s2)),
                   refCounter (removeNthFromNonDuplicates s2))
         = Returned (snap2, counter2)
      /\ sublist (map entryId (snap_refs snap1)) (map entryId (snap_refs snap2))
      /\ length (snap_refs snap1) <= length (snap_refs snap2)).
  { intros s1 s2 a1 a2 t1 t2 [H1 _] [H2 _] Hs. eexists _, _, _, _.
    split; [done|]. split; [done|]. cbn [snap_refs].
    assert (Hsub : sublist (map entryId (refs (removeNthFromNonDuplicates s1)))
                     (map entryId (refs (removeNthFromNonDuplicates s2)))).
    { rewrite !removeNth_ids, H1, H2. done. }
    split; [done|]. apply sublist_length in Hsub. by rewrite !length_map in Hsub. }
  assert (Hwhole : exists snap1 snap2 counter1 counter2,
    (let! scoped := getEnhancedSnapshotForScope page (withMaxDepth options d1)
                      initialState in
     let st := removeNthFromNonDuplicates scoped.2 in
     Returned (mkSnapshot scoped.1 (refs st), refCounter st))
      = Returned (snap1, counter1)
    /\ (let! scoped := getEnhancedSnapshotForScope page (withMaxDepth options d2)
                         initialState in
        let st := removeNthFromNonDuplicates scoped.2 in
        Returned (mkSnapshot scoped.1 (refs st), refCounter st))
       = Returned (snap2, counter2)
    /\ sublist (map entryId (snap_refs snap1)) (map entryId (snap_refs snap2))
    /\ length (snap_refs snap1) <= length (snap_refs snap2)).
  { destruct (scope_depth_refs page options d1 d2 _ _ Hle K0 K0)
      as ([t1 s1] & [t2 s2] & a1 & a2 & -> & -> & H1 & H2 & Hs).
    cbn [bindO fst snd] in *. by eapply Hfinish. }
  destruct (negb (truthyOpt (o_selector options))); [|exact Hwhole].
  destruct (getMyheloActiveRegions_returns page) as [[|r rs] ->]; cbn [bindO];
    [exact Hwhole|].
  destruct (regionLoop_depth_refs page options d1 d2 (r :: rs) _ _ Hle K0 K0)
    as ([q1 s1] & [q2 s2] & a1 & a2 & -> & -> & H1 & H2 & Hs).
  cbn [bindO fst snd] in *. by eapply Hfinish.
Qed.

Lemma depth_keeps_refs_witness :
  exists snap1 snap2 counter1 counter2,
    getEnhancedSnapshot (shellPage true true true)
      (withMaxDepth defaultOptions (Some 0%Z)) 0 = Returned (snap1, counter1)
    /\ getEnhancedSnapshot (shellPage true true true)
         (withMaxDepth defaultOptions None) 0 = Returned (snap2, counter2)
    /\ length (snap_refs snap1) <= length (snap_refs snap2).
Proof.
  destruct (depth_keeps_refs (shellPage true true true) defaultOptions 0
              (Some 0%Z) None I)
    as (snap1 & snap2 & c1 & c2 & H1 & H2 & _ & Hlen).
  exists snap1, snap2, c1, c2. split; [exact H1|]. split; [exact H2|exact Hlen].
Defined.

End DepthRefs.
(** ** The ref map of the interactive mode *)

Section InteractiveRefs.

Lemma mirrors_refl sI sF :
  agree sI sF -> keysInv sI -> keysInv sF -> mirrors sI sF sI sF.
Proof.
  intros A KI KF. exists [], [].
  split; [by apply grows_refl|]. split; [by apply grows_refl|]. done.
Qed.

Lemma mirrors_trans sI sF sI1 sF1 sI2 sF2 :
  mirrors sI sF sI1 sF1 -> mirrors sI1 sF1 sI2 sF2 -> mirrors sI sF sI2 sF2.
Proof.
  intros (a1 & a2 & G1 & G2 & _ & E) (b1 & b2 & H1 & H2 & A & E').
  exists (a1 ++ b1), (a2 ++ b2).
  split; [by eapply grows_trans|]. split; [by eapply grows_trans|].
  split; [done|]. unfold withoutContent in *.
  by rewrite filter_app, !map_app, E, E'.
Qed.

Lemma mirrors_inv sI sF sI' sF' :
  mirrors sI sF sI' sF' -> agree sI' sF' /\ keysInv sI' /\ keysInv sF'.
Proof. by intros (a1 & a2 & [_ K1] & [_ K2] & A & _). Qed.

Lemma interactive_not_content role :
  memStr role INTERACTIVE_ROLES = true -> role ∉ CONTENT_ROLES.
Proof.
  intros H. apply memStr_false_inv. apply memStr_true in H.
  unfold INTERACTIVE_ROLES, strs in H. cbn [map] in H.
  repeat (apply elem_of_cons in H as [->|H]; [done|]).
  by apply elem_of_nil in H.
Qed.

Lemma cursorRole_not_content el : cursorRole el ∉ CONTENT_ROLES.
Proof.
  unfold cursorRole.
  destruct (ce_hasCursorPointer el), (ce_hasOnClick el);
    by apply memStr_false_inv.
Qed.

Lemma assignRef_grows_data role name st :
  keysInv st ->
  exists e,
    grows st (assignRef role name st).2 [e]
    /\ entryData e
       = (buildSelector role name, role, name, Some (assignRef role name st).1.2).
Proof.
  intros Hk. rewrite assignRef_eq. cbv zeta. cbn [fst snd].
  exists (refName (refCounter st + 1),
          mkRefEntry (buildSelector role name) role name
            (Some (default 0%N (counts (tracker st) !! getKey role name)))).
  split; [|reflexivity]. split.
  - cbn [refs]. by apply keysInv_push.
  - unfold keysInv. cbn [refs refCounter]. rewrite keysInv_push by done.
    by rewrite map_app, Hk, refIds_succ.
Qed.

Lemma loops_mirror lines options sI sF :
  o_maxDepth options = None -> agree sI sF -> keysInv sI -> keysInv sF ->
  mirrors sI sF (interactiveLoop lines sI).2 (fullLoop lines options sF).2.
Proof.
  intros Hd. revert sI sF.
  induction lines as [|line rest IH]; intros sI sF A KI KF.
  { by apply mirrors_refl. }
  cbn [fullLoop interactiveLoop]. rewrite processLine_classify.
  destruct (lineMatch line) as [m|] eqn:Hm.
  - destruct (memStr (toLowerCase (lm_role m)) INTERACTIVE_ROLES) eqn:Hi.
    + rewrite (classify_interactive_role line options m Hm Hi Hd).
      pose proof (assignRef_nth_agree _ (lm_name m) sI sF A Hi) as Hnth.
      pose proof (agree_assign_both (toLowerCase (lm_role m)) (lm_name m)
                    sI sF A) as A'.
      destruct (assignRef_grows_data (toLowerCase (lm_role m)) (lm_name m) sI KI)
        as (eI & GI & DI).
      destruct (assignRef_grows_data (toLowerCase (lm_role m)) (lm_name m) sF KF)
        as (eF & GF & DF).
      destruct (assignRef _ _ sI) as [[refI nthI] sI'].
      destruct (assignRef _ _ sF) as [[refF nthF] sF'].
      cbn [fst snd] in *. subst nthF.
      specialize (IH sI' sF' A' (proj2 GI) (proj2 GF)).
      destruct (interactiveLoop rest sI'), (fullLoop rest options sF').
      cbn [snd] in *.
      apply (mirrors_trans _ _ sI' sF'); [|exact IH].
      exists [eI], [eF]. split; [done|]. split; [done|]. split; [done|].
      unfold withoutContent. rewrite filter_cons_True.
      * cbn [map filter]. by rewrite DI, DF.
      * assert (Hr : re_role eF.2 = toLowerCase (lm_role m))
          by (unfold entryData in DF; congruence).
        rewrite Hr. by apply interactive_not_content.
    + destruct (classify line options) as [| |m'] eqn:E.
      * specialize (IH sI sF A KI KF).
        by destruct (fullLoop rest options sF).
      * specialize (IH sI sF A KI KF).
        by destruct (fullLoop rest options sF).
      * apply classify_annotated in E as (Hm' & Href' & _).
        rewrite Hm in Hm'. injection Hm' as <-.
        pose proof (agree_assign_content (toLowerCase (lm_role m)) (lm_name m)
                      sI sF A (shouldHaveRef_treeRole m Href') Hi) as A'.
        destruct (assignRef_grows_data (toLowerCase (lm_role m)) (lm_name m)
                    sF KF) as (eF & GF & DF).
        destruct (assignRef _ _ sF) as [[refF nthF] sF'].
        cbn [fst snd] in *.
        specialize (IH sI sF' A' KI (proj2 GF)).
        destruct (fullLoop rest options sF'). cbn [snd] in *.
        apply (mirrors_trans _ _ sI sF'); [|exact IH].
        exists [], [eF]. split; [by apply grows_refl|]. split; [done|].
        split; [done|]. unfold withoutContent. rewrite filter_cons_False; [done|].
        assert (Hr : re_role eF.2 = toLowerCase (lm_role m))
          by (unfold entryData in DF; congruence).
        rewrite Hr. unfold shouldHaveRef in Href'. rewrite Hi in Href'.
        cbn [orb] in Href'. apply andb_true_iff in Href' as [Hc _].
        apply memStr_true in Hc. by intros Hn.
  - assert (classify line options = Dropped \/ classify line options = Verbatim)
      as [-> | ->].
    { unfold classify. rewrite Hm. destruct (tooDeep _ _); [by left|].
      destruct (o_interactive options); auto. }
    + specialize (IH sI sF A KI KF). by destruct (fullLoop rest options sF).
    + specialize (IH sI sF A KI KF). by destruct (fullLoop rest options sF).
Qed.

Lemma processAriaTree_mirror ariaTree options sI sF :
  o_maxDepth options = None -> agree sI sF -> keysInv sI -> keysInv sF ->
  mirrors sI sF
    (processAriaTree ariaTree (withInteractive options true) false sI).2
    (processAriaTree ariaTree (withInteractive options false) false sF).2.
Proof.
  intros Hd A KI KF. rewrite !processAriaTree_eq. cbv zeta.
  cbn [withInteractive o_interactive o_compact].
  pose proof (loops_mirror (split ariaTree) (withInteractive options false)
                sI sF Hd A KI KF) as H.
  destruct (interactiveLoop _ _), (fullLoop _ _ _).
  by destruct (o_compact options).
Qed.

Lemma cursorStep_mirror el sI sF :
  agree sI sF -> keysInv sI -> keysInv sF ->
  mirrors sI sF (cursorStep el sI) (cursorStep el sF).
Proof.
  intros A KI KF.
  destruct (cursorStep_refs el sI KI) as [RI _].
  destruct (cursorStep_refs el sF KF) as [RF _].
  eexists [_], [_].
  split; [split; [exact RI|]|].
  { apply (step_keysInv sI); [apply step_cursor|done]. }
  split; [split; [exact RF|]|].
  { apply (step_keysInv sF); [apply step_cursor|done]. }
  split; [intros role name Hr; exact (A role name Hr)|].
  unfold withoutContent. rewrite filter_cons_True; [done|].
  cbn [snd re_role]. apply cursorRole_not_content.
Qed.

Lemma cursorLoop_mirror els sI sF :
  agree sI sF -> keysInv sI -> keysInv sF ->
  mirrors sI sF (cursorLoop els sI).2 (cursorLoop els sF).2.
Proof.
  revert sI sF. induction els as [|el rest IH]; intros sI sF A KI KF.
  { by apply mirrors_refl. }
  rewrite !cursorLoop_cons. cbv zeta. cbn [snd].
  pose proof (cursorStep_mirror el sI sF A KI KF) as H.
  destruct (mirrors_inv _ _ _ _ H) as (A' & KI' & KF').
  apply (mirrors_trans _ _ _ _ _ _ H). by apply IH.
Qed.

Lemma scope_mirror page options sI sF :
  o_maxDepth options = None -> agree sI sF -> keysInv sI -> keysInv sF ->
  exists rI rF,
    getEnhancedSnapshotForScope page (withInteractive options true) sI
      = Returned rI
    /\ getEnhancedSnapshotForScope page (withInteractive options false) sF
       = Returned rF
    /\ mirrors sI sF rI.2 rF.2.
Proof.
  intros Hd A KI KF. unfold getEnhancedSnapshotForScope.
  assert (Ha : exists xI xF,
    try_catch (acquireTree page (withInteractive options true) sI)
      (Returned (emptyText (withInteractive options true), sI)) = Returned xI
    /\ try_catch (acquireTree page (withInteractive options false) sF)
      (Returned (emptyText (withInteractive options false), sF)) = Returned xF
    /\ mirrors sI sF xI.2 xF.2).
  { unfold acquireTree, emptyText, try_catch, bindO.
    change (o_selector (withInteractive options true))
      with (o_selector options).
    change (o_selector (withInteractive options false))
      with (o_selector options).
    change (o_interactive (withInteractive options true)) with true.
    change (o_interactive (withInteractive options false)) with false.
    destruct (pg_ariaSnapshot page _) as [ariaTree|].
    2:{ eexists _, _. split; [done|]. split; [done|]. by apply mirrors_refl. }
    destruct (truthy ariaTree).
    - eexists _, _. split; [done|]. split; [done|].
      by apply processAriaTree_mirror.
    - eexists _, _. split; [done|]. split; [done|]. by apply mirrors_refl. }
  destruct Ha as ([tI uI] & [tF uF] & -> & -> & H).
  cbn [bindO fst snd] in *.
  change (o_cursor (withInteractive options true)) with (o_cursor options).
  change (o_cursor (withInteractive options false)) with (o_cursor options).
  change (o_selector (withInteractive options true)) with (o_selector options).
  change (o_selector (withInteractive options false)) with (o_selector options).
  destruct (o_cursor options).
  2:{ by eexists _, _. }
  destruct (findCursorInteractiveElements_returns page (o_selector options))
    as [els ->]. cbn [bindO].
  destruct (mirrors_inv _ _ _ _ H) as (A' & KI' & KF').
  pose proof (cursorLoop_mirror els uI uF A' KI' KF') as Hc.
  destruct (cursorLoop els uI) as [lI vI], (cursorLoop els uF) as [lF vF].
  cbn [snd] in *.
  assert (Hout : forall (t : str) (l : list str) (u : St), exists text,
    match l with
    | _ :: _ =>
        Returned ((if isPlaceholder t then [] else t)
                  ++ (if isPlaceholder t then []
                      else nl ++ "# Cursor-interactive elements:" ++ nl)
                  ++ join nl l, u)
    | [] => Returned (t, u)
    end = Returned (text, u)) by (intros t [|? ?] u; by eexists).
  destruct (Hout tI lI vI) as [xI ->], (Hout tF lF vF) as [xF ->].
  eexists _, _. split; [done|]. split; [done|]. cbn [snd].
  by eapply mirrors_trans.
Qed.

Lemma sectionLoop_mirror page options selectors sI sF :
  o_maxDepth options = None -> agree sI sF -> keysInv sI -> keysInv sF ->
  exists rI rF,
    sectionLoop page (withInteractive options true) selectors sI = Returned rI
    /\ sectionLoop page (withInteractive options false) selectors sF
       = Returned rF
    /\ mirrors sI sF rI.2 rF.2.
Proof.
  intros Hd. revert sI sF. induction selectors as [|sel rest IH];
    intros sI sF A KI KF; cbn [sectionLoop].
  { eexists _, _. split; [done|]. split; [done|]. by apply mirrors_refl. }
  change (withSelector (withInteractive options true) (Some sel))
    with (withInteractive (withSelector options (Some sel)) true).
  change (withSelector (withInteractive options false) (Some sel))
    with (withInteractive (withSelector options (Some sel)) false).
  destruct (scope_mirror page (withSelector options (Some sel)) sI sF
              Hd A KI KF) as ([tI uI] & [tF uF] & -> & -> & H).
  cbn [bindO fst snd] in *.
  destruct (mirrors_inv _ _ _ _ H) as (A' & KI' & KF').
  destruct (IH uI uF A' KI' KF') as ([pI vI] & [pF vF] & -> & -> & H').
  cbn [bindO fst snd] in *.
  do 2 destruct (_ || _); eexists _, _;
    (split; [done|]); (split; [done|]); cbn [snd]; by eapply mirrors_trans.
Qed.

Lemma regionLoop_mirror page options regions sI sF :
  o_maxDepth options = None -> agree sI sF -> keysInv sI -> keysInv sF ->
  exists rI rF,
    regionLoop page (withInteractive options true) regions sI = Returned rI
    /\ regionLoop page (withInteractive options false) regions sF
       = Returned rF
    /\ mirrors sI sF rI.2 rF.2.
Proof.
  intros Hd. revert sI sF. induction regions as [|region rest IH];
    intros sI sF A KI KF; cbn [regionLoop].
  { eexists _, _. split; [done|]. split; [done|]. by apply mirrors_refl. }
  unfold buildMyheloRegionSection.
  destruct (sectionLoop_mirror page options (rg_selectors region) sI sF
              Hd A KI KF) as ([pI uI] & [pF uF] & -> & -> & H).
  cbn [bindO fst snd] in *.
  assert (Hb : forall o (ps : list str) (s : St), exists body,
    (match ps with
     | _ :: _ => Returned (join nl ps, s)
     | [] => Returned (emptyText o, s)
     end) = Returned (body, s)) by (intros o [|? ?] s; by eexists).
  destruct (Hb (withInteractive options true) pI uI) as [bI ->].
  destruct (Hb (withInteractive options false) pF uF) as [bF ->].
  cbn [bindO fst snd].
  destruct (mirrors_inv _ _ _ _ H) as (A' & KI' & KF').
  destruct (IH uI uF A' KI' KF') as ([qI vI] & [qF vF] & -> & -> & H').
  cbn [bindO fst snd] in *.
  eexists _, _. split; [done|]. split; [done|]. cbn [snd].
  by eapply mirrors_trans.
Qed.

Lemma duplicates_agree sI sF role name :
  trackInv sI -> trackInv sF -> agree sI sF ->
  memStr role INTERACTIVE_ROLES = true ->
  getKey role name ∈ getDuplicateKeys (tracker sI)
  <-> getKey role name ∈ getDuplicateKeys (tracker sF).
Proof.
  intros TI TF A Hr. rewrite !getDuplicateKeys_spec.
  by rewrite (ti_tracked _ TI), (ti_tracked _ TF), (A role name Hr).
Qed.

Lemma final_correspond tI tF :
  (forall role name, memStr role INTERACTIVE_ROLES = true ->
     getKey role name ∈ getDuplicateKeys tI
     <-> getKey role name ∈ getDuplicateKeys tF) ->
  forall aF aI : RefMap,
    Forall (fun kv : str * RefEntry =>
              treeRole (re_role kv.2) \/ re_nth kv.2 = None) aF ->
    map entryData aI = map entryData (withoutContent aF) ->
    map entryData (map (fun kv : str * RefEntry => (kv.1, stripNth tI kv.2)) aI)
    = map entryData
        (withoutContent
           (map (fun kv : str * RefEntry => (kv.1, stripNth tF kv.2)) aF)).
Proof.
  intros Hdup. induction aF as [|[kF eF] aF IH]; intros aI Hroles E.
  { destruct aI; [done|discriminate E]. }
  inversion Hroles as [|? ? Hr Hrest]; subst.
  cbn [map]. unfold withoutContent in *. rewrite filter_cons in E |- *.
  cbn [fst snd] in *.
  assert (Hrole : re_role (stripNth tF eF) = re_role eF)
    by (unfold stripNth; by destruct (bool_decide _)).
  rewrite Hrole. destruct (decide (re_role eF ∉ CONTENT_ROLES)) as [Hn|Hc].
  2:{ by apply IH. }
  destruct aI as [|[kI eI] aI]; [discriminate E|]. cbn [map] in E |- *.
  assert (Ehd : entryData (kI, eI) = entryData (kF, eF)) by congruence.
  assert (Etl : map entryData aI
                = map entryData
                    (filter (fun kv : str * RefEntry =>
                               re_role kv.2 ∉ CONTENT_ROLES) aF))
    by congruence.
  f_equal; [|by apply IH].
  assert (eI = eF) as ->.
  { unfold entryData in Ehd. cbn [snd] in Ehd. destruct eI, eF.
    cbn in Ehd. congruence. }
  unfold entryData. cbn [snd]. destruct Hr as [Ht|Hnone].
  - assert (Hi : memStr (re_role eF) INTERACTIVE_ROLES = true).
    { destruct Ht as [H|H]; [by apply memStr_true|done]. }
    unfold stripNth, entryKey.
    by rewrite (bool_decide_ext _ _ (Hdup (re_role eF) (re_name eF) Hi)).
  - unfold stripNth, deleteNth.
    do 2 destruct (bool_decide _); cbn; by rewrite ?Hnone.
Qed.

(** X27.  Without a depth limit the ref map of the interactive mode is the
    ref map of the normal mode without the entries of content roles: entry
    for entry, in the same order, the same selector, role, name and nth; only
    the ref numbers differ. *)
Theorem interactive_refs_of_full (page : Page) (options : SnapshotOptions)
    (counter : N) :
  o_maxDepth options = None ->
  exists snapI snapF counterI counterF,
    getEnhancedSnapshot page (withInteractive options true) counter
      = Returned (snapI, counterI)
    /\ getEnhancedSnapshot page (withInteractive options false) counter
       = Returned (snapF, counterF)
    /\ map entryData (snap_refs snapI)
       = map entryData (withoutContent (snap_refs snapF)).
Proof.
  intros Hd. unfold getEnhancedSnapshot.
  change (o_selector (withInteractive options true)) with (o_selector options).
  change (o_selector (withInteractive options false)) with (o_selector options).
  change (resetRefs _) with initialState.
  assert (K0 : keysInv initialState) by done.
  assert (A0 : agree initialState initialState) by apply agree_refl.
  assert (Hfinish : forall sI sF (tI tF : str),
    mirrors initialState initialState sI sF ->
    rtc step initialState sI -> rtc step initialState sF ->
    exists snapI snapF counterI counterF,
      Returned (mkSnapshot tI (refs (removeNthFromNonDuplicates sI)),
                refCounter (removeNthFromNonDuplicates sI))
        = Returned (snapI, counterI)
      /\ Returned (mkSnapshot tF (refs (removeNthFromNonDuplicates sF)),
                   refCounter (removeNthFromNonDuplicates sF))
         = Returned (snapF, counterF)
      /\ map entryData (snap_refs snapI)
         = map entryData (withoutContent (snap_refs snapF))).
  { intros sI sF tI tF (aI & aF & [RI _] & [RF _] & A & E) SI SF.
    eexists _, _, _, _. split; [done|]. split; [done|]. cbn [snap_refs].
    pose proof (steps_trackInv _ _ SI initial_trackInv) as TI.
    pose proof (steps_trackInv _ _ SF initial_trackInv) as TF.
    rewrite !removeNth_eq. cbn [refs].
    apply final_correspond.
    - intros role name Hr. by apply duplicates_agree.
    - apply Forall_forall. intros kv Hkv.
      destruct (ti_roles _ TF kv Hkv) as [H|[_ H]]; [by left|by right].
    - by rewrite RI, RF. }
  assert (Hwhole : exists snapI snapF counterI counterF,
    (let! scoped := getEnhancedSnapshotForScope page
                      (withInteractive options true) initialState in
     let st := removeNthFromNonDuplicates scoped.2 in
     Returned (mkSnapshot scoped.1 (refs st), refCounter st))
      = Returned (snapI, counterI)
    /\ (let! scoped := getEnhancedSnapshotForScope page
                         (withInteractive options false) initialState in
        let st := removeNthFromNonDuplicates scoped.2 in
        Returned (mkSnapshot scoped.1 (refs st), refCounter st))
       = Returned (snapF, counterF)
    /\ map entryData (snap_refs snapI)
       = map entryData (withoutContent (snap_refs snapF))).
  { destruct (scope_mirror page options initialState initialState Hd A0 K0 K0)
      as ([tI sI] & [tF sF] & EI & EF & H).
    destruct (getEnhancedSnapshotForScope_steps page
                (withInteractive options true) initialState) as (rI & EI' & SI).
    destruct (getEnhancedSnapshotForScope_steps page
                (withInteractive options false) initialState) as (rF & EF' & SF).
    rewrite EI in EI' |- *. rewrite EF in EF' |- *.
    injection EI' as <-. injection EF' as <-.
    cbn [bindO fst snd] in *. by apply Hfinish. }
  destruct (negb (truthyOpt (o_selector options))); [|exact Hwhole].
  destruct (getMyheloActiveRegions_returns page) as [regions ->]. cbn [bindO].
  destruct regions as [|region regions]; [exact Hwhole|].
  destruct (regionLoop_mirror page options (region :: regions)
              initialState initialState Hd A0 K0 K0)
    as ([qI sI] & [qF sF] & EI & EF & H).
  destruct (regionLoop_steps page (withInteractive options true)
              (region :: regions) initialState) as (rI & EI' & SI).
  destruct (regionLoop_steps page (withInteractive options false)
              (region :: regions) initialState) as (rF & EF' & SF).
  rewrite EI in EI' |- *. rewrite EF in EF' |- *.
  injection EI' as <-. injection EF' as <-.
  cbn [bindO fst snd] in *. by apply Hfinish.
Qed.

Lemma interactive_refs_of_full_witness :
  exists snapI snapF counterI counterF,
    getEnhancedSnapshot (shellPage true true true)
      (withInteractive (mkOptions false true None true None) true) 0
      = Returned (snapI, counterI)
    /\ getEnhancedSnapshot (shellPage true true true)
         (withInteractive (mkOptions false true None true None) false) 0
       = Returned (snapF, counterF)
    /\ map entryData (snap_refs snapI)
       = map entryData (withoutContent (snap_refs snapF)).
Proof.
  exact (interactive_refs_of_full (shellPage true true true)
           (mkOptions false true None true None) 0 eq_refl).
Defined.

End InteractiveRefs.

(** ** Examples *)

Section Examples.

(** The example of the header of the module. *)
Example annotated_tree :
  (processAriaTree
     ("- heading" ++ quoted "Example Domain" ++ " [level=1]" ++ nl
        ++ "- paragraph: Some text content" ++ nl
        ++ "- button" ++ quoted "Submit" ++ nl
        ++ "- textbox" ++ quoted "Email")
     defaultOptions true initialState).1
  = "- heading" ++ quoted "Example Domain" ++ " [ref=e1] [level=1]" ++ nl
      ++ "- paragraph: Some text content" ++ nl
      ++ "- button" ++ quoted "Submit" ++ " [ref=e2]" ++ nl
      ++ "- textbox" ++ quoted "Email" ++ " [ref=e3]".
Proof. vm_compute. reflexivity. Qed.

(** A titled wrapper around an icon and a text gives one clickable, named by
    the title. *)
Example titled_wrapper :
  treeOf (getEnhancedSnapshot settingsPage (mkOptions true true None false None) 0)
  = Some ("- clickable" ++ quoted "Settings" ++ " [ref=e1] [cursor:pointer]").
Proof. vm_compute. reflexivity. Qed.

(** The four regions of the shell, and the shell with the sidebar and the
    drawer off screen and the floating button hidden. *)
Example shell_all_regions :
  treeOf (getEnhancedSnapshot (shellPage true true true)
            (mkOptions true false None false None) 0)
  = Some ("# Sidebar:" ++ nl ++ "- button" ++ quoted "Threads" ++ " [ref=e1]"
          ++ nl ++ nl
          ++ "# Contents:" ++ nl ++ "- button" ++ quoted "Conversation" ++ " [ref=e2]"
          ++ nl ++ nl
          ++ "# Drawer:" ++ nl ++ "- button" ++ quoted "Details" ++ " [ref=e3]"
          ++ nl ++ nl
          ++ "# FAB:" ++ nl ++ "- button" ++ quoted "+" ++ " [ref=e4]").
Proof. vm_compute. reflexivity. Qed.

Example shell_contents_only :
  treeOf (getEnhancedSnapshot (shellPage false false false)
            (mkOptions true false None false None) 0)
  = Some ("# Contents:" ++ nl ++ "- button" ++ quoted "Conversation" ++ " [ref=e1]").
Proof. vm_compute. reflexivity. Qed.

End Examples.
